(** * eight_puzzle.py: 8-puzzle solver (A* / uniform-cost graph search)

    A shallow embedding of [src/eight_puzzle.py] and the properties of its
    state model, heuristics, solvability check and best-first search engine.

    Conventions of the embedding:
    - Python [int] is [Z]; Python [float] is the binary64 [float] of the
      standard library ([PrimFloat]), whose [+], [sqrt], [<] and [==] are the
      IEEE 754 operations Python uses.
    - A puzzle state, a Python list of lists of ints, is [list (list Z)].
    - A Python exception is a value of [exn]: every function that indexes a
      list returns in the error monad [exn].
    - [set()] of tuples is a [gset]; the frontier is the Python list that
      [heapq] keeps as a binary heap, with [heapq]'s own sift procedures.
    - The [while] loop of [graph_search] is a loop body iterated under a
      budget of iterations (fuel); the theorems show the budget that is
      always enough. *)

From Stdlib Require Import ZArith List Floats Lia.
From stdpp Require Import gmap strings list sorting.

Local Open Scope Z_scope.

(** ** Exceptions *)

Inductive exception : Set := IndexError | TypeError | OverflowError.

Inductive exn (A : Type) : Type :=
  | Ok (a : A)
  | Raise (e : exception).
Arguments Ok {A} a.
Arguments Raise {A} e.

#[global] Instance exn_ret : MRet exn := fun A a => Ok a.
#[global] Instance exn_bind : MBind exn := fun A B k m =>
  match m with Ok a => k a | Raise e => Raise e end.

(** [for x in xs: s = body(x, s)] *)
Fixpoint for_each {A S : Type} (xs : list A) (body : A → S → exn S) (s : S) : exn S :=
  match xs with
  | [] => Ok s
  | x :: xs' => s' ← body x s; for_each xs' body s'
  end.

(** ** Python lists *)

(** The position a Python index denotes: [l[i]] for [0 <= i < len(l)],
    [l[len(l)+i]] for [-len(l) <= i < 0], [IndexError] otherwise. *)
Definition py_index {A : Type} (l : list A) (i : Z) : exn nat :=
  let n := Z.of_nat (length l) in
  if (0 <=? i) && (i <? n) then Ok (Z.to_nat i)
  else if (- n <=? i) && (i <? 0) then Ok (Z.to_nat (n + i))
  else Raise IndexError.

(** [l[i]] *)
Definition getitem {A : Type} (l : list A) (i : Z) : exn A :=
  k ← py_index l i;
  match l !! k with Some x => Ok x | None => Raise IndexError end.

(** [l[i] = x] *)
Definition setitem {A : Type} (l : list A) (i : Z) (x : A) : exn (list A) :=
  k ← py_index l i; Ok (<[k := x]> l).

(** A puzzle state: 3 rows of 3 ints in the programs that call the solver. *)
Definition PuzzleState : Type := list (list Z).

(** [state[i][j]] *)
Definition getitem2 (state : PuzzleState) (i j : Z) : exn Z :=
  row ← getitem state i; getitem row j.

(** [state[i][j] = v]: the row object [state[i]] is updated in place. *)
Definition setitem2 (state : PuzzleState) (i j : Z) (v : Z) : exn PuzzleState :=
  row ← getitem state i;
  row' ← setitem row j v;
  setitem state i row'.

(** [range(3)], and the cells [(i, j)] in the order in which
    [for i in range(3): for j in range(3):] visits them. *)
Definition range3 : list Z := [0; 1; 2].
Definition cells : list (Z * Z) := i ← range3; j ← range3; [(i, j)].

(** ** class Problem *)

Module Problem.

Record t : Type := mk { initial_state : PuzzleState; goal_state : PuzzleState }.

(** [Problem(initial_state)] *)
Definition init (initial_state : PuzzleState) : t :=
  {| initial_state := initial_state;
     goal_state := [[1; 2; 3]; [4; 5; 6]; [7; 8; 0]] |}.

(** [_find_blank]: the first cell holding 0, or [(None, None)]. *)
Fixpoint find_blank_from (state : PuzzleState) (cs : list (Z * Z)) : exn (option (Z * Z)) :=
  match cs with
  | [] => Ok None
  | (i, j) :: cs' =>
      v ← getitem2 state i j;
      if v =? 0 then Ok (Some (i, j)) else find_blank_from state cs'
  end.

Definition _find_blank (state : PuzzleState) : exn (option (Z * Z)) :=
  find_blank_from state cells.

(** [operators]: on [(None, None)] the comparison [None > 0] raises. *)
Definition operators (state : PuzzleState) : exn (list string) :=
  b ← _find_blank state;
  match b with
  | None => Raise TypeError
  | Some (blank_row, blank_col) =>
      let ops := [] in
      let ops := if 0 <? blank_row then ops ++ ["up"%string] else ops in
      let ops := if blank_row <? 2 then ops ++ ["down"%string] else ops in
      let ops := if 0 <? blank_col then ops ++ ["left"%string] else ops in
      let ops := if blank_col <? 2 then ops ++ ["right"%string] else ops in
      Ok ops
  end.

(** The new position of the blank, [None] for an unknown operator;
    [None - 1] and [None + 1] raise [TypeError]. *)
Definition new_position (b : option (Z * Z)) (operator : string)
  : exn (option (Z * Z)) :=
  let moved (f : Z * Z → Z * Z) : exn (option (Z * Z)) :=
    match b with Some p => Ok (Some (f p)) | None => Raise TypeError end in
  if String.eqb operator "up" then moved (fun '(r, c) => (r - 1, c))
  else if String.eqb operator "down" then moved (fun '(r, c) => (r + 1, c))
  else if String.eqb operator "left" then moved (fun '(r, c) => (r, c - 1))
  else if String.eqb operator "right" then moved (fun '(r, c) => (r, c + 1))
  else Ok None.

(** [result]: the deep copy is the value itself. *)
Definition result (state : PuzzleState) (operator : string) : exn PuzzleState :=
  let new_state := state in
  b ← _find_blank state;
  target ← new_position b operator;
  match target, b with
  | None, _ => Ok new_state
  | Some _, None => Raise TypeError
  | Some (new_row, new_col), Some (blank_row, blank_col) =>
      tile ← getitem2 new_state new_row new_col;
      new_state ← setitem2 new_state blank_row blank_col tile;
      setitem2 new_state new_row new_col 0
  end.

(** [goal_test]: [state == self.goal_state] *)
Definition goal_test (self : t) (state : PuzzleState) : bool :=
  bool_decide (state = goal_state self).

(** [is_solvable] *)
Definition tiles_of (state : PuzzleState) : list Z :=
  filter (fun tile => tile ≠ 0) (concat state).

Definition count_inversions (tiles : list Z) : Z :=
  let n := length tiles in
  foldl (fun inversions i =>
           foldl (fun inversions j =>
                    if (tiles !!! j) <? (tiles !!! i)
                    then inversions + 1 else inversions)
                 inversions (seq (i + 1) (n - (i + 1))))
        0 (seq 0 n).

Definition is_solvable (state : PuzzleState) : bool :=
  let tiles := tiles_of state in
  let inversions := count_inversions tiles in
  inversions mod 2 =? 0.

End Problem.

(** ** Python numbers *)

(** [int] to [float], rounded to nearest even as Python does: the
    primitive conversion where the int fits a machine word (below 2^63), its
    specification [binary_normalize] beyond. *)
Definition float_of_Z (n : Z) : float :=
  if (0 <=? n) && (n <? 9223372036854775808)
  then PrimFloat.of_uint63 (Uint63.of_Z n)
  else SF2Prim (binary_normalize prec emax n 0 false).

(** The same conversion where Python checks the range ([math.sqrt(n)]). *)
Definition float_of_int (n : Z) : exn float :=
  let x := float_of_Z n in
  if PrimFloat.is_infinity x then Raise OverflowError else Ok x.

(** What the search needs of the values a heuristic returns:
    [depth + h], [a < b] and [a == b]. *)
Class PyNumber (H : Type) : Type := {
  int_add : Z → H → H;
  num_lt : H → H → bool;
  num_eq : H → H → bool;
  (** the values that are numbers: every int, every float but NaN *)
  is_number : H → bool
}.

#[global] Instance int_number : PyNumber Z := {|
  int_add := Z.add;
  num_lt := Z.ltb;
  num_eq := Z.eqb;
  is_number := fun _ => true
|}.

(** [int + float] converts the int first. The depth of a node is far below
    2^1024, the size at which the conversion would raise. *)
#[global] Instance float_number : PyNumber float := {|
  int_add := fun d x => (float_of_Z d + x)%float;
  num_lt := PrimFloat.ltb;
  num_eq := PrimFloat.eqb;
  is_number := fun x => negb (PrimFloat.is_nan x)
|}.

(** ** class Heuristic *)

Module Heuristic.

Definition goal : PuzzleState := [[1; 2; 3]; [4; 5; 6]; [7; 8; 0]].

Definition uniform_cost (state : PuzzleState) : exn Z := Ok 0.

Definition misplaced_tile (state : PuzzleState) : exn Z :=
  for_each cells (fun '(i, j) count =>
    a ← getitem2 state i j;
    if negb (a =? 0) then
      b ← getitem2 state i j;
      g ← getitem2 goal i j;
      if negb (b =? g) then Ok (count + 1) else Ok count
    else Ok count) 0.

Definition manhattan_distance (state : PuzzleState) : exn Z :=
  for_each cells (fun '(i, j) distance =>
    value ← getitem2 state i j;
    if negb (value =? 0) then
      let goal_i := (value - 1) `div` 3 in
      let goal_j := (value - 1) `mod` 3 in
      Ok (distance + (Z.abs (i - goal_i) + Z.abs (j - goal_j)))
    else Ok distance) 0.

Definition euclidean_distance (state : PuzzleState) : exn float :=
  for_each cells (fun '(i, j) distance =>
    value ← getitem2 state i j;
    if negb (value =? 0) then
      let goal_i := (value - 1) `div` 3 in
      let goal_j := (value - 1) `mod` 3 in
      x ← float_of_int ((i - goal_i) ^ 2 + (j - goal_j) ^ 2);
      Ok (distance + PrimFloat.sqrt x)%float
    else Ok distance) 0%float.

End Heuristic.

(** ** class Node *)

Module Node.

#[local] Set Warnings "-register-all".
Inductive t (H : Type) : Type := mk {
  state : PuzzleState;
  parent : option (t H);
  operator : option string;
  depth : Z;
  path_cost : Z;
  heuristic_cost : H
}.
Arguments mk {H}.
Arguments state {H}.
Arguments parent {H}.
Arguments operator {H}.
Arguments depth {H}.
Arguments path_cost {H}.
Arguments heuristic_cost {H}.

Section props.
Context {H : Type} `{PyNumber H}.

Definition action (self : t H) : option string := operator self.
Definition g (self : t H) : Z := depth self.
Definition h (self : t H) : H := heuristic_cost self.
Definition f (self : t H) : H := int_add (g self) (h self).

(** [__lt__] *)
Definition lt (self other : t H) : bool := num_lt (f self) (f other).
End props.

End Node.

(** The walk of [print_solution] over the parent links: the
    [(operator, state)] pairs from the root's child to [goal_node]. *)
Fixpoint solution_path {H : Type} (node : Node.t H) : list (option string * PuzzleState) :=
  match Node.parent node with
  | Some p => solution_path p ++ [(Node.operator node, Node.state node)]
  | None => []
  end.

(** ** heapq *)

Module heapq.
Section heap.
Context {E : Type} (lt : E → E → bool).

(** [heap[i]], for the positions the sift loops have checked. *)
Definition at_pos (heap : list E) (i : nat) (d : E) : E := default d (heap !! i).

(** The loop of [_siftdown]: [newitem] moves up from [pos] while it is
    smaller than its parent. *)
Fixpoint siftdown_loop (fuel : nat) (heap : list E) (startpos pos : nat) (newitem : E)
  : list E :=
  match fuel with
  | O => <[pos := newitem]> heap
  | S fuel' =>
      if (startpos <? pos)%nat then
        let parentpos := Nat.div2 (pos - 1) in
        let parent := at_pos heap parentpos newitem in
        if lt newitem parent
        then siftdown_loop fuel' (<[pos := parent]> heap) startpos parentpos newitem
        else <[pos := newitem]> heap
      else <[pos := newitem]> heap
  end.

Definition _siftdown (heap : list E) (startpos pos : nat) : list E :=
  match heap !! pos with
  | Some newitem => siftdown_loop pos heap startpos pos newitem
  | None => heap
  end.

(** The loop of [_siftup]: the smaller child moves up until [pos] is a
    leaf; returns the heap and that leaf. *)
Fixpoint siftup_loop (fuel : nat) (heap : list E) (endpos pos : nat) (newitem : E)
  : list E * nat :=
  match fuel with
  | O => (heap, pos)
  | S fuel' =>
      let childpos := (2 * pos + 1)%nat in
      if (childpos <? endpos)%nat then
        let rightpos := (childpos + 1)%nat in
        let childpos :=
          if (rightpos <? endpos)%nat
             && negb (lt (at_pos heap childpos newitem) (at_pos heap rightpos newitem))
          then rightpos else childpos in
        siftup_loop fuel' (<[pos := at_pos heap childpos newitem]> heap)
                    endpos childpos newitem
      else (heap, pos)
  end.

Definition _siftup (heap : list E) (pos : nat) : list E :=
  let endpos := length heap in
  let startpos := pos in
  match heap !! pos with
  | Some newitem =>
      let '(heap, pos) := siftup_loop endpos heap endpos pos newitem in
      _siftdown (<[pos := newitem]> heap) startpos pos
  | None => heap
  end.

Definition heappush (heap : list E) (item : E) : list E :=
  let heap := heap ++ [item] in
  _siftdown heap 0 (length heap - 1).

(** Returns the popped item and the heap that is left. *)
Definition heappop (heap : list E) : exn (E * list E) :=
  match last heap with
  | None => Raise IndexError
  | Some lastelt =>
      let heap := removelast heap in
      match heap with
      | [] => Ok (lastelt, heap)
      | returnitem :: _ => Ok (returnitem, _siftup (<[0%nat := lastelt]> heap) 0)
      end
  end.
End heap.
End heapq.

(** ** graph_search *)

Section graph_search.
Context {H : Type} `{PyNumber H}.

(** A frontier entry, the tuple [(f, counter, node)]. *)
Definition entry : Type := H * Z * Node.t H.

Definition entry_f (e : entry) : H := e.1.1.
Definition entry_counter (e : entry) : Z := e.1.2.
Definition entry_node (e : entry) : Node.t H := e.2.

(** [a < b] on these tuples: the first component at which they differ
    decides; the nodes are compared, with [Node.__lt__], only when both
    [f] and [counter] are equal. *)
Definition entry_lt (a b : entry) : bool :=
  let '(f1, c1, n1) := a in
  let '(f2, c2, n2) := b in
  if negb (num_eq f1 f2) then num_lt f1 f2
  else if negb (c1 =? c2) then c1 <? c2
  else Node.lt n1 n2.

(** The variables of the loop. *)
Record search_state : Type := mk_search_state {
  frontier : list entry;
  explored : gset PuzzleState;
  counter : Z;
  nodes_expanded : Z;
  max_queue_size : Z
}.

(** What [graph_search] returns: [(goal_node, nodes_expanded, max_queue_size)]. *)
Definition search_result : Type := option (Node.t H) * Z * Z.

(** [tuple(map(tuple, state))]: the same content, hashable. *)
Definition state_tuple (state : PuzzleState) : PuzzleState := state.

Variable problem : Problem.t.
Variable heuristic_func : PuzzleState → exn H.

(** One iteration of [for operator in problem.operators(node.state)]. *)
Definition expand_operator (node : Node.t H) (explored : gset PuzzleState)
    (operator : string) (acc : list entry * Z) : exn (list entry * Z) :=
  let '(frontier, counter) := acc in
  child_state ← Problem.result (Node.state node) operator;
  let child_state_tuple := state_tuple child_state in
  if bool_decide (child_state_tuple ∈ explored) then Ok (frontier, counter)
  else
    h_cost ← heuristic_func child_state;
    let child_node :=
      Node.mk child_state (Some node) (Some operator)
              (Node.depth node + 1) (Node.path_cost node + 1) h_cost in
    Ok (heapq.heappush entry_lt frontier (Node.f child_node, counter, child_node),
        counter + 1).

(** The body of [while frontier:], run on a non-empty frontier: either
    the function returns ([inl]) or the loop goes on ([inr]). *)
Definition loop_body (st : search_state) : exn (search_result + search_state) :=
  '(popped, frontier) ← heapq.heappop entry_lt (frontier st);
  let node := entry_node popped in
  if Problem.goal_test problem (Node.state node)
  then Ok (inl (Some node, nodes_expanded st, max_queue_size st))
  else
    let state_tuple := state_tuple (Node.state node) in
    if bool_decide (state_tuple ∈ explored st)
    then Ok (inr (mk_search_state frontier (explored st) (counter st)
                                  (nodes_expanded st) (max_queue_size st)))
    else
      let explored := {[state_tuple]} ∪ explored st in
      let nodes_expanded := nodes_expanded st + 1 in
      ops ← Problem.operators (Node.state node);
      '(frontier, counter) ←
        for_each ops (expand_operator node explored) (frontier, counter st);
      let max_queue_size :=
        Z.max (max_queue_size st) (Z.of_nat (length frontier)) in
      Ok (inr (mk_search_state frontier explored counter
                               nodes_expanded max_queue_size)).

(** [while frontier: ...] followed by [return None, ...]; [None] when the
    budget of iterations runs out before the loop ends. *)
Fixpoint search_loop (fuel : nat) (st : search_state) : option (exn search_result) :=
  match fuel with
  | O => None
  | S fuel' =>
      match frontier st with
      | [] => Some (Ok (None, nodes_expanded st, max_queue_size st))
      | _ :: _ =>
          match loop_body st with
          | Raise e => Some (Raise e)
          | Ok (inl r) => Some (Ok r)
          | Ok (inr st') => search_loop fuel' st'
          end
      end
  end.

(** The state of the loop when it is first entered. *)
Definition initial_search_state (h_initial : H) : search_state :=
  let initial_node :=
    Node.mk (Problem.initial_state problem) None None 0 0 h_initial in
  mk_search_state [(Node.f initial_node, 0, initial_node)] ∅ 1 0 1.

Definition graph_search (fuel : nat) : option (exn search_result) :=
  match heuristic_func (Problem.initial_state problem) with
  | Raise e => Some (Raise e)
  | Ok h_initial => search_loop fuel (initial_search_state h_initial)
  end.

End graph_search.

Arguments entry : clear implicits.
Arguments search_state : clear implicits.
Arguments search_result : clear implicits.

(** [uniform_cost_search], also what [graph_search] does when it is given
    no heuristic. *)
Definition uniform_cost_search (problem : Problem.t) (fuel : nat)
  : option (exn (search_result Z)) :=
  graph_search problem Heuristic.uniform_cost fuel.

(** ** Valid states and the state space *)

(** A valid [PuzzleState]: 3 rows of 3, each value 0..8 exactly once. *)
Definition valid_state (s : PuzzleState) : Prop :=
  length s = 3%nat ∧ Forall (fun row => length row = 3%nat) s
  ∧ concat s ≡ₚ [0; 1; 2; 3; 4; 5; 6; 7; 8].

(** The rows of a flat list of 9 values. *)
Definition to_grid (l : list Z) : PuzzleState :=
  match l with
  | [a; b; c; d; e; f; g; h; i] => [[a; b; c]; [d; e; f]; [g; h; i]]
  | _ => []
  end.

(** All 9! = 362880 valid states. *)
Definition all_states : list PuzzleState :=
  to_grid <$> permutations [0; 1; 2; 3; 4; 5; 6; 7; 8].

(** [len], counted in [Z]. *)
Definition zlength {A : Type} (l : list A) : Z :=
  foldl (fun n _ => n + 1) 0 l.

(** The instances of the test suite. *)
Definition goal : PuzzleState := [[1; 2; 3]; [4; 5; 6]; [7; 8; 0]].
Definition very_easy : PuzzleState := [[1; 2; 3]; [4; 5; 6]; [7; 0; 8]].
Definition easy : PuzzleState := [[1; 2; 0]; [4; 5; 3]; [7; 8; 6]].
Definition impossible : PuzzleState := [[1; 2; 3]; [4; 5; 6]; [8; 7; 0]].

(** ** The inversion count as the specification words it *)

(** The positions [(i, j)] with [i < j] and [values[i] > values[j]]. *)
Definition is_inversion (values : list Z) (p : nat * nat) : bool :=
  (p.1 <? p.2)%nat
  && match values !! p.1, values !! p.2 with
     | Some a, Some b => b <? a
     | _, _ => false
     end.

Definition index_pairs (n : nat) : list (nat * nat) :=
  i ← seq 0 n; j ← seq 0 n; [(i, j)].

Definition inversion_count (values : list Z) : nat :=
  length (filter (fun p => is_inversion values p) (index_pairs (length values))).

(** The values of a grid in row-major order (the rows one after the other,
    each from left to right), and the non-blank ones among them, in that
    order. *)
Definition row_major (s : PuzzleState) : list Z := concat s.

Definition non_blank_values (s : PuzzleState) : list Z :=
  filter (fun value => value ≠ 0) (row_major s).

(** The inverse of a move: up and down, left and right undo each other. *)
Definition inverse (m : string) : string :=
  if String.eqb m "up" then "down"
  else if String.eqb m "down" then "up"
  else if String.eqb m "left" then "right"
  else if String.eqb m "right" then "left"
  else m.

(** The four operators [result] knows. *)
Definition four_operators : list string :=
  ["up"; "down"; "left"; "right"]%string.

(** A check of [valid_state] that computes fast: a 3 by 3 grid in which
    each of 0..8 occurs. *)
Definition valid_state_b (s : PuzzleState) : bool :=
  match s with
  | [[_; _; _]; [_; _; _]; [_; _; _]] =>
      forallb (fun v => existsb (Z.eqb v) (concat s)) [0; 1; 2; 3; 4; 5; 6; 7; 8]
  | _ => false
  end.

(** Where [result] leaves the grid: [new_state[3]] and [row[3]] do not
    exist, whereas the index -1 denotes the last row or column. *)
Definition result_raises (blank_row blank_col : Z) (operator : string) : bool :=
  (String.eqb operator "down" && (blank_row =? 2))
  || (String.eqb operator "right" && (blank_col =? 2)).

(** The operators that [operators] lists, by the position of the blank. *)
Definition legal (blank_row blank_col : Z) (op : string) : bool :=
  (String.eqb op "up" && (0 <? blank_row))
  || (String.eqb op "down" && (blank_row <? 2))
  || (String.eqb op "left" && (0 <? blank_col))
  || (String.eqb op "right" && (blank_col <? 2)).

(** The inversion count by recursion on the list: the values after [x]
    that are smaller than [x], summed over the list. *)
Fixpoint smaller_after (x : Z) (rest : list Z) : Z :=
  match rest with
  | [] => 0
  | y :: rest' => (if y <? x then 1 else 0) + smaller_after x rest'
  end.

Fixpoint inversions (l : list Z) : Z :=
  match l with
  | [] => 0
  | x :: rest => smaller_after x rest + inversions rest
  end.

(** The spec-level floats that are not negative and not NaN. *)
Definition SF_nonneg (x : spec_float) : Prop :=
  match x with
  | S754_zero _ | S754_infinity false | S754_finite false _ _ => True
  | _ => False
  end.

(** [is_solvable] on the flat list of a grid. *)
Definition solvable_perm (p : list Z) : bool :=
  inversions (filter (fun tile => tile ≠ 0) p) mod 2 =? 0.

(** ** The search, seen from outside *)

(** The states that legal moves reach from [s0]. *)
Inductive reachable (s0 : PuzzleState) : PuzzleState → Prop :=
  | reachable_refl : reachable s0 s0
  | reachable_step s ops m s' :
      reachable s0 s →
      Problem.operators s = Ok ops → m ∈ ops →
      Problem.result s m = Ok s' →
      reachable s0 s'.

Section search_invariant.
Context {H : Type} `{PyNumber H}.

(** The entry [expand_operator] pushes for a child state. *)
Definition child_entry (node : Node.t H) (op : string) (child : PuzzleState)
    (h_cost : H) (counter : Z) : entry H :=
  let child_node :=
    Node.mk child (Some node) (Some op)
            (Node.depth node + 1) (Node.path_cost node + 1) h_cost in
  (Node.f child_node, counter, child_node).

(** What holds of the loop variables at every iteration of a search
    started in [s0]: frontier and explored set hold states reachable from
    [s0], and [nodes_expanded] is the size of the explored set. *)
Definition search_inv (s0 : PuzzleState) (st : search_state H) : Prop :=
  (∀ e, e ∈ frontier st → reachable s0 (Node.state (entry_node e)))
  ∧ (∀ s, s ∈ explored st → reachable s0 s)
  ∧ nodes_expanded st = Z.of_nat (size (explored st)).

(** What is left to do: each valid state can still be expanded once, which
    pops one entry and pushes at most four. *)
Definition potential (st : search_state H) : nat :=
  5 * (length all_states - size (explored st)) + length (frontier st).

End search_invariant.

(** ** Solutions and their length *)

(** The state after a sequence of moves, each of them listed by
    [operators] in the state where it is made. *)
Fixpoint apply_moves (s : PuzzleState) (moves : list string) : option PuzzleState :=
  match moves with
  | [] => Some s
  | m :: moves' =>
      match Problem.operators s, Problem.result s m with
      | Ok ops, Ok s' => if bool_decide (m ∈ ops) then apply_moves s' moves' else None
      | _, _ => None
      end
  end.

Definition solves (s : PuzzleState) (moves : list string) : Prop :=
  apply_moves s moves = Some goal.

(** [n] is the length of a shortest solution of [s]. *)
Definition optimal_length (s : PuzzleState) (n : Z) : Prop :=
  (∃ moves, Z.of_nat (length moves) = n ∧ solves s moves)
  ∧ ∀ moves, solves s moves → n ≤ Z.of_nat (length moves).

(** The ground truth of the specification: exhaustive breadth-first search,
    level by level, for the depth of the first level that holds the goal. *)
Definition successors (s : PuzzleState) : list PuzzleState :=
  match Problem.operators s with
  | Ok ops =>
      omap (fun m => match Problem.result s m with
                     | Ok s' => Some s'
                     | Raise _ => None
                     end) ops
  | Raise _ => []
  end.

Fixpoint bfs_depth (fuel : nat) (level : list PuzzleState) (depth : Z) : option Z :=
  match fuel with
  | O => None
  | S fuel' =>
      if bool_decide (goal ∈ level) then Some depth
      else bfs_depth fuel' (level ≫= successors) (depth + 1)
  end.

(** ** The heap order of heapq *)

Section heap_order.
Context {E : Type} (lt : E → E → bool).

(** [heap[k] <= heap[2*k+1]] and [heap[k] <= heap[2*k+2]], the invariant of
    heapq, with [x <= y] read as "not [y < x]". *)
Definition heap_ordered (heap : list E) : Prop :=
  ∀ j x y, (0 < j)%nat →
    heap !! j = Some y → heap !! Nat.div2 (j - 1) = Some x → lt y x = false.

(** A heap with a hole at [pos]: the order holds between the positions
    other than [pos], and the parent of [pos] is not above its children. *)
Definition hole_ok (heap : list E) (pos : nat) : Prop :=
  (pos < length heap)%nat
  ∧ (∀ j x y, (0 < j)%nat → j ≠ pos → Nat.div2 (j - 1) ≠ pos →
       heap !! j = Some y → heap !! Nat.div2 (j - 1) = Some x → lt y x = false)
  ∧ (∀ c x y, (0 < pos)%nat → (0 < c)%nat → Nat.div2 (c - 1) = pos →
       heap !! c = Some y → heap !! Nat.div2 (pos - 1) = Some x → lt y x = false).

(** The hole can take [newitem] as far as the children of [pos] go. *)
Definition fits_above (heap : list E) (pos : nat) (newitem : E) : Prop :=
  ∀ c y, (0 < c)%nat → Nat.div2 (c - 1) = pos →
    heap !! c = Some y → lt y newitem = false.

(** The items other than the one at [pos] satisfy [P]. *)
Definition all_but (P : E → Prop) (heap : list E) (pos : nat) : Prop :=
  ∀ j y, j ≠ pos → heap !! j = Some y → P y.

End heap_order.

(** ** Numbers that are ordered *)

(** The order that the values of a heuristic have when they are numbers:
    [<] is asymmetric, "not [>]" is transitive, and [==] holds where neither
    [<] nor [>] does. *)
Class PyNumberLaws (H : Type) `{PyNumber H} : Prop := {
  num_lt_asym : ∀ a b,
    is_number a = true → is_number b = true →
    num_lt a b = true → num_lt b a = false;
  num_le_trans : ∀ a b c,
    is_number a = true → is_number b = true → is_number c = true →
    num_lt b a = false → num_lt c b = false → num_lt c a = false;
  num_eq_le : ∀ a b,
    is_number a = true → is_number b = true →
    num_eq a b = negb (num_lt a b) && negb (num_lt b a)
}.

Section frontier_invariant.
Context {H : Type} `{PyNumber H}.

(** A frontier entry as [graph_search] builds it: the tuple
    [(node.f, counter, node)] of a node of non-negative depth whose [f] is
    a number. *)
Definition entry_ok (e : entry H) : Prop :=
  entry_f e = Node.f (entry_node e)
  ∧ is_number (entry_f e) = true
  ∧ 0 ≤ Node.depth (entry_node e).

(** The frontier of a run: a heap of such entries whose counters differ and
    lie below the next counter. *)
Definition frontier_ok (frontier : list (entry H)) (counter : Z) : Prop :=
  heap_ordered entry_lt frontier
  ∧ Forall entry_ok frontier
  ∧ Forall (fun e => entry_counter e < counter) frontier
  ∧ NoDup (entry_counter <$> frontier).

(** The states of the loop in a run of [graph_search]. *)
Inductive run_state (problem : Problem.t) (heuristic_func : PuzzleState → exn H)
  : search_state H → Prop :=
  | run_start h_initial :
      heuristic_func (Problem.initial_state problem) = Ok h_initial →
      run_state problem heuristic_func (initial_search_state problem h_initial)
  | run_next st st' :
      run_state problem heuristic_func st →
      loop_body problem heuristic_func st = Ok (inr st') →
      run_state problem heuristic_func st'.

End frontier_invariant.


(** ** The order of the floats *)

(** The place of a float that is not NaN in the order that [<] gives the
    floats: the sign class first, then the exponent, then the mantissa. *)
Definition float_key (x : spec_float) : Z * Z * Z :=
  match x with
  | S754_zero _ | S754_nan => (0, 0, 0)
  | S754_infinity false => (2, 0, 0)
  | S754_infinity true => (-2, 0, 0)
  | S754_finite false m e => (1, e, Z.pos m)
  | S754_finite true m e => (-1, - e, Z.neg m)
  end.

Definition key_lt (a b : Z * Z * Z) : Prop :=
  a.1.1 < b.1.1
  ∨ (a.1.1 = b.1.1 ∧ (a.1.2 < b.1.2 ∨ (a.1.2 = b.1.2 ∧ a.2 < b.2))).

(** ** The heuristics, cell by cell *)

(** What [misplaced_tile] adds for a cell that holds [value] where the
    goal holds [goal_value]. *)
Definition tile_misplaced (value goal_value : Z) : Z :=
  if negb (value =? 0) && negb (value =? goal_value) then 1 else 0.

(** What [manhattan_distance] adds for the cell [(i, j)] that holds [value]. *)
Definition tile_distance (value i j : Z) : Z :=
  if negb (value =? 0)
  then Z.abs (i - (value - 1) `div` 3) + Z.abs (j - (value - 1) `mod` 3)
  else 0.

(** ** The solution that a node stands for *)

(** The node at which the walk [while node.parent: node = node.parent] of
    [print_solution] ends. *)
Fixpoint path_root {H : Type} (node : Node.t H) : Node.t H :=
  match Node.parent node with
  | Some p => path_root p
  | None => node
  end.

(** The [(operator, state)] pairs that playing [moves] from [s] gives, each
    move being one that [operators] lists where it is made. *)
Fixpoint replay (s : PuzzleState) (moves : list string)
  : option (list (option string * PuzzleState)) :=
  match moves with
  | [] => Some []
  | m :: moves' =>
      match Problem.operators s, Problem.result s m with
      | Ok ops, Ok s' =>
          if bool_decide (m ∈ ops)
          then path ← replay s' moves'; Some ((Some m, s') :: path)
          else None
      | _, _ => None
      end
  end.

(** A node whose parent links spell a legal play from [initial] to its
    state, of as many moves as its depth and its path cost say. *)
Definition node_ok {H : Type} (initial : PuzzleState) (node : Node.t H) : Prop :=
  ∃ moves,
    replay initial moves = Some (solution_path node)
    ∧ apply_moves initial moves = Some (Node.state node)
    ∧ Z.of_nat (length moves) = Node.depth node
    ∧ Node.path_cost node = Node.depth node
    ∧ Node.state (path_root node) = initial.

(** ** Consistent heuristics and shortest solutions *)

(** A heuristic with int values that a move lowers by at most one. *)
Definition consistent (heuristic_func : PuzzleState → exn Z) : Prop :=
  ∀ s ops m s',
    valid_state s → Problem.operators s = Ok ops → m ∈ ops →
    Problem.result s m = Ok s' →
    ∃ v v', heuristic_func s = Ok v ∧ heuristic_func s' = Ok v' ∧ v ≤ v' + 1.

(** What the loop variables of a search with such a heuristic satisfy: the
    nodes carry the heuristic value of their state; the goal is never in the
    explored set; the initial state is explored or in the frontier at depth
    0; and each explored state was expanded at a depth that no play from the
    initial state undercuts, its children being explored or in the frontier
    one level deeper at most. *)
Definition opt_inv (initial : PuzzleState) (heuristic_func : PuzzleState → exn Z)
    (st : search_state Z) : Prop :=
  (∀ e, e ∈ frontier st →
     heuristic_func (Node.state (entry_node e))
     = Ok (Node.heuristic_cost (entry_node e)))
  ∧ (goal ∉ explored st)
  ∧ (initial ∈ explored st
     ∨ ∃ e, e ∈ frontier st ∧ Node.state (entry_node e) = initial
            ∧ Node.depth (entry_node e) ≤ 0)
  ∧ ∀ x, x ∈ explored st →
      ∃ dx,
        (∀ moves, apply_moves initial moves = Some x → dx ≤ Z.of_nat (length moves))
        ∧ ∀ ops m y,
            Problem.operators x = Ok ops → m ∈ ops → Problem.result x m = Ok y →
            y ∈ explored st
            ∨ ∃ e, e ∈ frontier st ∧ Node.state (entry_node e) = y
                   ∧ Node.depth (entry_node e) ≤ dx + 1.

(** ** run_tests.py: the two walks of [run_required_trace] *)

(** [actions]: [while current.parent: actions.append(current.action)],
    reversed. *)
Fixpoint trace_actions {H : Type} (current : Node.t H) : list (option string) :=
  match Node.parent current with
  | Some p => trace_actions p ++ [Node.operator current]
  | None => []
  end.

(** [states]: [while current: states.append((current.action, current.state))],
    reversed; the root is included. *)
Fixpoint trace_states {H : Type} (current : Node.t H)
  : list (option string * PuzzleState) :=
  match Node.parent current with
  | Some p => trace_states p ++ [(Node.operator current, Node.state current)]
  | None => [(Node.operator current, Node.state current)]
  end.

(** ** eight_puzzle_v0.1.py: uniform-cost search before the heuristics *)

(** The first version of the program. Its class [Problem] is the one above
    without [is_solvable]; its nodes carry no heuristic cost, [f] is [g],
    and [__lt__] compares the path costs. *)
Module V01.

Module Node.
#[local] Set Warnings "-register-all".
Inductive t : Type := mk {
  state : PuzzleState;
  parent : option t;
  operator : option string;
  depth : Z;
  path_cost : Z
}.

Definition g (self : t) : Z := depth self.
Definition f (self : t) : Z := g self.

(** [__lt__] *)
Definition lt (self other : t) : bool := path_cost self <? path_cost other.
End Node.

(** The frontier entries [(f, counter, node)] and their tuple order. *)
Definition entry : Type := Z * Z * Node.t.

Definition entry_node (e : entry) : Node.t := e.2.

Definition entry_lt (a b : entry) : bool :=
  let '(f1, c1, n1) := a in
  let '(f2, c2, n2) := b in
  if negb (f1 =? f2) then f1 <? f2
  else if negb (c1 =? c2) then c1 <? c2
  else Node.lt n1 n2.

Record search_state : Type := mk_search_state {
  frontier : list entry;
  explored : gset PuzzleState;
  counter : Z;
  nodes_expanded : Z;
  max_queue_size : Z
}.

Definition search_result : Type := option Node.t * Z * Z.

Section search.
Variable problem : Problem.t.

Definition expand_operator (node : Node.t) (explored : gset PuzzleState)
    (operator : string) (acc : list entry * Z) : exn (list entry * Z) :=
  let '(frontier, counter) := acc in
  child_state ← Problem.result (Node.state node) operator;
  let child_state_tuple := state_tuple child_state in
  if bool_decide (child_state_tuple ∈ explored) then Ok (frontier, counter)
  else
    let child_node :=
      Node.mk child_state (Some node) (Some operator)
              (Node.depth node + 1) (Node.path_cost node + 1) in
    Ok (heapq.heappush entry_lt frontier (Node.f child_node, counter, child_node),
        counter + 1).

Definition loop_body (st : search_state) : exn (search_result + search_state) :=
  '(popped, frontier) ← heapq.heappop entry_lt (frontier st);
  let node := entry_node popped in
  if Problem.goal_test problem (Node.state node)
  then Ok (inl (Some node, nodes_expanded st, max_queue_size st))
  else
    let state_tuple := state_tuple (Node.state node) in
    if bool_decide (state_tuple ∈ explored st)
    then Ok (inr (mk_search_state frontier (explored st) (counter st)
                                  (nodes_expanded st) (max_queue_size st)))
    else
      let explored := {[state_tuple]} ∪ explored st in
      let nodes_expanded := nodes_expanded st + 1 in
      ops ← Problem.operators (Node.state node);
      '(frontier, counter) ←
        for_each ops (expand_operator node explored) (frontier, counter st);
      let max_queue_size :=
        Z.max (max_queue_size st) (Z.of_nat (length frontier)) in
      Ok (inr (mk_search_state frontier explored counter
                               nodes_expanded max_queue_size)).

Fixpoint search_loop (fuel : nat) (st : search_state) : option (exn search_result) :=
  match fuel with
  | O => None
  | S fuel' =>
      match frontier st with
      | [] => Some (Ok (None, nodes_expanded st, max_queue_size st))
      | _ :: _ =>
          match loop_body st with
          | Raise e => Some (Raise e)
          | Ok (inl r) => Some (Ok r)
          | Ok (inr st') => search_loop fuel' st'
          end
      end
  end.

(** [uniform_cost_search] *)
Definition uniform_cost_search (fuel : nat) : option (exn search_result) :=
  let initial_node := Node.mk (Problem.initial_state problem) None None 0 0 in
  search_loop fuel (mk_search_state [(Node.f initial_node, 0, initial_node)] ∅ 1 0 1).

End search.

(** The walk of [print_solution]. *)
Fixpoint solution_path (node : Node.t) : list (option string * PuzzleState) :=
  match Node.parent node with
  | Some p => solution_path p ++ [(Node.operator node, Node.state node)]
  | None => []
  end.

End V01.

(** A node of the final program without its heuristic cost. *)
Fixpoint forget_h (node : Node.t Z) : V01.Node.t :=
  V01.Node.mk (Node.state node)
    (match Node.parent node with Some p => Some (forget_h p) | None => None end)
    (Node.operator node) (Node.depth node) (Node.path_cost node).

Definition forget_entry (e : entry Z) : V01.entry :=
  (entry_f e, entry_counter e, forget_h (entry_node e)).

Definition forget_state (st : search_state Z) : V01.search_state :=
  V01.mk_search_state (forget_entry <$> frontier st) (explored st) (counter st)
    (nodes_expanded st) (max_queue_size st).

Definition forget_result (r : search_result Z) : V01.search_result :=
  (forget_h <$> r.1.1, r.1.2, r.2).

(** An entry of a uniform-cost run: no heuristic cost, path cost and [f]
    equal to the depth. *)
Definition plain_entry (e : entry Z) : Prop :=
  Node.heuristic_cost (entry_node e) = 0
  ∧ Node.path_cost (entry_node e) = Node.depth (entry_node e)
  ∧ entry_f e = Node.depth (entry_node e).

(** ** run_tests.py: test_solvability *)

Definition solvable_puzzles : list (string * PuzzleState) :=
  [("Trivial"%string, [[1; 2; 3]; [4; 5; 6]; [7; 8; 0]]);
   ("Easy"%string, [[1; 2; 0]; [4; 5; 3]; [7; 8; 6]]);
   ("Very Easy"%string, [[1; 2; 3]; [4; 5; 6]; [7; 0; 8]])].

Definition unsolvable_puzzles : list (string * PuzzleState) :=
  [("Impossible"%string, [[1; 2; 3]; [4; 5; 6]; [8; 7; 0]]);
   ("Swapped"%string, [[1; 2; 3]; [4; 5; 6]; [8; 0; 7]])].

(** The value of [all_correct] at the end of [test_solvability]. *)
Definition test_solvability : bool :=
  let all_correct := true in
  let all_correct :=
    foldl (fun all_correct '(name, state) =>
             let is_solvable := Problem.is_solvable state in
             if negb is_solvable then false else all_correct)
          all_correct solvable_puzzles in
  foldl (fun all_correct '(name, state) =>
           let is_solvable := Problem.is_solvable state in
           if is_solvable then false else all_correct)
        all_correct unsolvable_puzzles.

(** * Properties *)

(** * Properties *)

(** ** Lists *)

Lemma filter_ext_in {A} (P Q : A → Prop) `{!∀ x, Decision (P x), !∀ x, Decision (Q x)}
    (l : list A) :
  (∀ x, x ∈ l → P x ↔ Q x) → filter P l = filter Q l.
Proof.
  induction l as [|x l IH]; intros Hiff; [done|].
  rewrite !filter_cons, IH by (intros; apply Hiff; by right).
  pose proof (Hiff x (list_elem_of_here _ _)).
  repeat case_decide; tauto || done.
Qed.

Lemma filter_none {A} (P : A → Prop) `{!∀ x, Decision (P x)} (l : list A) :
  (∀ x, x ∈ l → ¬ P x) → filter P l = [].
Proof.
  induction l as [|x l IH]; intros Hno; [done|].
  rewrite filter_cons_False by (apply Hno; by left).
  apply IH. intros; apply Hno; by right.
Qed.

(** ** Inversions: the loops of [is_solvable] count the inversion pairs *)

Section inversions.
Variable tiles : list Z.

Let inner (x : Z) := fun (inversions : Z) (j : nat) =>
  if (tiles !!! j) <? x then inversions + 1 else inversions.

Lemma inner_loop_counts x js inv0 :
  foldl (inner x) inv0 js
  = inv0 + Z.of_nat (length (filter (fun j => tiles !!! j < x) js)).
Proof.
  revert inv0. induction js as [|j js IH]; intros inv0; simpl.
  - lia.
  - rewrite IH. unfold inner. rewrite filter_cons.
    destruct (Z.ltb_spec (tiles !!! j) x); case_decide; simpl; lia.
Qed.

Lemma filter_pairs_of_row i js :
  length (filter (fun p => is_inversion tiles p) ((fun j => (i, j)) <$> js))
  = length (filter (fun j => is_inversion tiles (i, j)) js).
Proof.
  induction js as [|j js IH]; [done|].
  rewrite fmap_cons, !filter_cons. repeat case_decide; simpl; congruence.
Qed.

Lemma row_inversions i :
  (i < length tiles)%nat →
  length (filter (fun j => is_inversion tiles (i, j)) (seq 0 (length tiles)))
  = length (filter (fun j => tiles !!! j < tiles !!! i)
                   (seq (i + 1) (length tiles - (i + 1)))).
Proof.
  intros Hi.
  replace (length tiles) with ((i + 1) + (length tiles - (i + 1)))%nat at 1 by lia.
  rewrite seq_app, filter_app, length_app.
  rewrite (filter_none _ (seq 0 (i + 1))); simpl.
  - apply (f_equal length), filter_ext_in.
    intros j Hj%elem_of_seq. unfold is_inversion; simpl.
    destruct (lookup_lt_is_Some_2 tiles i Hi) as [a Ha].
    destruct (lookup_lt_is_Some_2 tiles j ltac:(lia)) as [b Hb].
    rewrite Ha, Hb, (list_lookup_total_correct _ _ _ Ha),
      (list_lookup_total_correct _ _ _ Hb).
    destruct (Nat.ltb_spec i j); [|lia]. simpl.
    destruct (Z.ltb_spec b a); simpl; intuition (done || lia).
  - intros j Hj%elem_of_seq. unfold is_inversion; simpl.
    destruct (Nat.ltb_spec i j); [lia|]. simpl. tauto.
Qed.

Lemma outer_loop_counts idxs inv0 :
  Forall (fun i => (i < length tiles)%nat) idxs →
  foldl (fun inversions i =>
           foldl (inner (tiles !!! i)) inversions
                 (seq (i + 1) (length tiles - (i + 1)))) inv0 idxs
  = inv0 + Z.of_nat (length (filter (fun p => is_inversion tiles p)
                              (i ← idxs; j ← seq 0 (length tiles); [(i, j)]))).
Proof.
  revert inv0. induction idxs as [|i idxs IH]; intros inv0 Hall.
  - simpl. lia.
  - apply Forall_cons in Hall as [Hi Hall].
    cbn [foldl]. rewrite bind_cons.
    rewrite IH, inner_loop_counts by done.
    rewrite filter_app, length_app.
    replace (j ← seq 0 (length tiles); [(i, j)])
      with ((fun j => (i, j)) <$> seq 0 (length tiles)).
    + rewrite filter_pairs_of_row, row_inversions by done. lia.
    + generalize (seq 0 (length tiles)). intros l.
      induction l as [|j l IHl]; [done|].
      by rewrite fmap_cons, bind_cons, IHl.
Qed.

Lemma count_inversions_spec :
  Problem.count_inversions tiles = Z.of_nat (inversion_count tiles).
Proof.
  unfold Problem.count_inversions, inversion_count, index_pairs.
  rewrite <- (Z.add_0_l (Z.of_nat _)). rewrite <- outer_loop_counts; [done|].
  apply Forall_forall. intros i Hi%elem_of_seq. lia.
Qed.
(** The same count by recursion on the list. *)
Lemma smaller_after_indices x pre rest :
  tiles = pre ++ rest →
  Z.of_nat (length (filter (fun j => tiles !!! j < x)
                      (seq (length pre) (length rest))))
  = smaller_after x rest.
Proof.
  revert pre. induction rest as [|y rest IH]; intros pre Ht; [done|].
  cbn [length seq smaller_after]. rewrite filter_cons.
  assert (tiles !!! length pre = y) as Hy.
  { rewrite Ht. by apply list_lookup_total_middle. }
  specialize (IH (pre ++ [y])). rewrite length_app, Nat.add_1_r in IH.
  rewrite <- IH by (by rewrite <- app_assoc).
  rewrite Hy. destruct (Z.ltb_spec y x); case_decide; try lia.
  rewrite length_cons. lia.
Qed.

Lemma outer_loop_inversions pre rest inv0 :
  tiles = pre ++ rest →
  foldl (fun inversions i =>
           foldl (inner (tiles !!! i)) inversions
                 (seq (i + 1) (length tiles - (i + 1)))) inv0
        (seq (length pre) (length rest))
  = inv0 + inversions rest.
Proof.
  revert pre inv0. induction rest as [|x rest IH]; intros pre inv0 Ht.
  - simpl. lia.
  - cbn [length seq foldl inversions].
    assert (tiles !!! length pre = x) as Hx.
    { rewrite Ht. by apply list_lookup_total_middle. }
    specialize (IH (pre ++ [x])). rewrite length_app, Nat.add_1_r in IH.
    rewrite IH by (by rewrite <- app_assoc).
    rewrite inner_loop_counts, Hx.
    replace (length tiles - (length pre + 1))%nat with (length rest)
      by (rewrite Ht, length_app, length_cons; lia).
    pose proof (smaller_after_indices x (pre ++ [x]) rest) as Hs.
    rewrite length_app, Nat.add_1_r, <- Nat.add_1_r in Hs.
    rewrite Hs by (by rewrite <- app_assoc). lia.
Qed.

Lemma count_inversions_rec : Problem.count_inversions tiles = inversions tiles.
Proof.
  exact (outer_loop_inversions [] tiles 0 eq_refl).
Qed.
End inversions.

(** ** The state space, enumerated *)

Lemma valid_state_shape s : valid_state s → s = to_grid (concat s).
Proof.
  intros (Hlen & Hrows & Hperm).
  destruct s as [|r1 [|r2 [|r3 [|]]]]; try done.
  apply Forall_cons in Hrows as [H1 Hrows].
  apply Forall_cons in Hrows as [H2 Hrows].
  apply Forall_cons in Hrows as [H3 _].
  destruct r1 as [|? [|? [|? [|]]]]; try done.
  destruct r2 as [|? [|? [|? [|]]]]; try done.
  destruct r3 as [|? [|? [|? [|]]]]; done.
Qed.

Lemma valid_state_in_all s : valid_state s → s ∈ all_states.
Proof.
  intros Hv. rewrite (valid_state_shape s Hv).
  apply list_elem_of_fmap_2, permutations_Permutation.
  symmetry. apply Hv.
Qed.

(** A check that passes on the whole enumeration holds of every valid state. *)
Lemma forall_valid (P : PuzzleState → bool) :
  forallb P all_states = true → ∀ s, valid_state s → P s = true.
Proof.
  intros Hall s Hv. rewrite forallb_forall in Hall.
  apply Hall, list_elem_of_In, valid_state_in_all, Hv.
Qed.

(** Validity of a given grid, decided by computation. *)
Ltac valid_by_computation :=
  apply (bool_decide_unpack _); vm_compute; exact I.

Lemma valid_goal : valid_state goal.
Proof. valid_by_computation. Qed.

Lemma valid_very_easy : valid_state very_easy.
Proof. valid_by_computation. Qed.

Lemma valid_easy : valid_state easy.
Proof. valid_by_computation. Qed.

Lemma valid_impossible : valid_state impossible.
Proof. valid_by_computation. Qed.

(** ** Solvability: parity of the inversion count *)

Lemma even_of_nat_mod (n : nat) : (Z.of_nat n mod 2 =? 0) = Nat.even n.
Proof.
  destruct (Nat.even n) eqn:He.
  - apply Nat.even_spec in He as [k ->]. apply Z.eqb_eq.
    rewrite Nat2Z.inj_mul, Z.mul_comm. apply Z_mod_mult.
  - apply Z.eqb_neq. intros Hmod.
    assert (Nat.even n = true) as Heven; [|congruence].
    apply Nat.even_spec. exists (Z.to_nat (Z.of_nat n / 2)).
    pose proof (Z_div_mod_eq_full (Z.of_nat n) 2). lia.
Qed.

Lemma is_solvable_even_inversions s :
  Problem.is_solvable s = Nat.even (inversion_count (Problem.tiles_of s)).
Proof.
  unfold Problem.is_solvable. rewrite count_inversions_spec.
  apply even_of_nat_mod.
Qed.

Lemma valid_state_eight_tiles s :
  valid_state s → length (Problem.tiles_of s) = 8%nat.
Proof.
  intros (_ & _ & Hp). unfold Problem.tiles_of. by rewrite Hp.
Qed.

Lemma non_blank_values_eight s :
  valid_state s → non_blank_values s ≡ₚ [1; 2; 3; 4; 5; 6; 7; 8].
Proof.
  intros (_ & _ & Hp). unfold non_blank_values, row_major. by rewrite Hp.
Qed.

(** C4. On every valid state the non-blank values taken in row-major order
    are the eight values 1..8 in some order, and [is_solvable] returns true
    exactly when the number of pairs i < j with value[i] > value[j] among
    them is even; it returns true on the goal grid and false on
    [[1,2,3],[4,5,6],[8,7,0]]. *)
Theorem is_solvable_iff_even_inversions (s : PuzzleState) (Hvalid : valid_state s) :
  (∃ a b c d e f g h i,
     s = [[a; b; c]; [d; e; f]; [g; h; i]]
     ∧ row_major s = [a; b; c; d; e; f; g; h; i]
     ∧ non_blank_values s = filter (fun value => value ≠ 0) [a; b; c; d; e; f; g; h; i])
  ∧ length (non_blank_values s) = 8%nat
  ∧ non_blank_values s ≡ₚ [1; 2; 3; 4; 5; 6; 7; 8]
  ∧ (Problem.is_solvable s = true
     ↔ Nat.Even (inversion_count (non_blank_values s)))
  ∧ Problem.is_solvable [[1; 2; 3]; [4; 5; 6]; [7; 8; 0]] = true
  ∧ Problem.is_solvable [[1; 2; 3]; [4; 5; 6]; [8; 7; 0]] = false.
Proof.
  split_and!.
  - pose proof (valid_state_shape s Hvalid) as Hs.
    destruct Hvalid as (_ & _ & Hp). apply Permutation_length in Hp.
    unfold non_blank_values, row_major.
    destruct (concat s) as [|a [|b [|c [|d [|e [|f [|g [|h [|i [|]]]]]]]]]];
      try done.
    exists a, b, c, d, e, f, g, h, i. by rewrite Hs.
  - by rewrite (non_blank_values_eight s Hvalid).
  - by apply non_blank_values_eight.
  - change (non_blank_values s) with (Problem.tiles_of s).
    rewrite is_solvable_even_inversions. apply Nat.even_spec.
  - reflexivity.
  - reflexivity.
Qed.

Lemma is_solvable_iff_even_inversions_witness :
  valid_state impossible
  ∧ length (non_blank_values impossible) = 8%nat
  ∧ non_blank_values impossible ≡ₚ [1; 2; 3; 4; 5; 6; 7; 8]
  ∧ (Problem.is_solvable impossible = true
     ↔ Nat.Even (inversion_count (non_blank_values impossible))).
Proof.
  split; [exact valid_impossible|].
  pose proof (is_solvable_iff_even_inversions impossible valid_impossible)
    as (_ & H8 & Hperm & Hiff & _).
  split; [assumption|]. split; assumption.
Defined.

(** ** Loops in the error monad *)

Lemma for_each_invariant {A S : Type} (I : S → Prop) (body : A → S → exn S) xs s0 s1 :
  (∀ x s s', I s → body x s = Ok s' → I s') →
  I s0 → for_each xs body s0 = Ok s1 → I s1.
Proof.
  intros Hbody. revert s0. induction xs as [|x xs IH]; intros s0 H0 Hrun.
  - simpl in Hrun. by injection Hrun as <-.
  - simpl in Hrun. destruct (body x s0) as [s'|e] eqn:Hx; [|done].
    simpl in Hrun. eapply IH; [|exact Hrun]. eauto.
Qed.

Lemma for_each_returns {A S : Type} (body : A → S → exn S) xs s0 :
  Forall (fun x => ∀ s, ∃ s', body x s = Ok s') xs →
  ∃ s1, for_each xs body s0 = Ok s1.
Proof.
  intros Hall. revert s0. induction Hall as [|x xs Hx _ IH]; intros s0.
  - by exists s0.
  - destruct (Hx s0) as [s' Hs']. simpl. rewrite Hs'. simpl. apply IH.
Qed.

(** ** Heuristics *)

Lemma misplaced_tile_nonneg s v : Heuristic.misplaced_tile s = Ok v → 0 ≤ v.
Proof.
  apply (for_each_invariant (fun v => 0 ≤ v)); [|done].
  intros [i j] count count' Hc Hbody.
  destruct (getitem2 s i j) as [a|]; [|done]. simpl in Hbody.
  destruct (negb (a =? 0)); [|injection Hbody as <-; lia].
  destruct (getitem2 Heuristic.goal i j) as [g|]; [|done]. simpl in Hbody.
  destruct (negb (a =? g)); injection Hbody as <-; lia.
Qed.

Lemma manhattan_distance_nonneg s v : Heuristic.manhattan_distance s = Ok v → 0 ≤ v.
Proof.
  apply (for_each_invariant (fun v => 0 ≤ v)); [|done].
  intros [i j] d d' Hd Hbody.
  destruct (getitem2 s i j) as [a|]; [|done]. simpl in Hbody.
  destruct (negb (a =? 0)); injection Hbody as <-; lia.
Qed.

Lemma cells_eq :
  cells = [(0, 0); (0, 1); (0, 2); (1, 0); (1, 1); (1, 2); (2, 0); (2, 1); (2, 2)].
Proof. reflexivity. Qed.

(** Reads of given cells of a grid written out, by computation. *)
Ltac read_cells :=
  repeat match goal with
  | |- context [getitem2 ?g ?i ?j] =>
      let r := eval vm_compute in (getitem2 g i j) in
      change (getitem2 g i j) with r
  end.

(** On a 3 by 3 grid every cell of the loops can be read. *)
Lemma misplaced_tile_returns s : valid_state s → ∃ v, Heuristic.misplaced_tile s = Ok v.
Proof.
  intros Hv. rewrite (valid_state_shape s Hv).
  destruct Hv as (_ & _ & Hp). apply Permutation_length in Hp.
  destruct (concat s) as [|a [|b [|c [|d [|e [|f [|g [|h [|i [|]]]]]]]]]]; try done.
  apply for_each_returns. rewrite cells_eq.
  repeat (apply Forall_cons; split; [intros acc; read_cells; cbn; repeat case_match; eauto|]).
  apply Forall_nil_2.
Qed.

Lemma manhattan_distance_returns s :
  valid_state s → ∃ v, Heuristic.manhattan_distance s = Ok v.
Proof.
  intros Hv. rewrite (valid_state_shape s Hv).
  destruct Hv as (_ & _ & Hp). apply Permutation_length in Hp.
  destruct (concat s) as [|a [|b [|c [|d [|e [|f [|g [|h [|i [|]]]]]]]]]]; try done.
  apply for_each_returns. rewrite cells_eq.
  repeat (apply Forall_cons; split; [intros acc; read_cells; cbn; repeat case_match; eauto|]).
  apply Forall_nil_2.
Qed.

(** ** Floats: the sign of sums and square roots *)

Lemma float_nonneg_spec (x : float) :
  (0 <=? x)%float = true ↔ SF_nonneg (Prim2SF x).
Proof.
  rewrite leb_spec. change (Prim2SF 0%float) with (S754_zero false).
  unfold SFleb, SFcompare, SF_nonneg.
  destruct (Prim2SF x) as [[]|[]| |[] m e]; intuition congruence.
Qed.

Lemma shr_1_nonneg mrs : 0 ≤ shr_m mrs → 0 ≤ shr_m (shr_1 mrs).
Proof. destruct mrs as [[|[p|p|]|[p|p|]] r s]; simpl; lia. Qed.

Lemma iter_shr_1_nonneg p mrs :
  0 ≤ shr_m mrs → 0 ≤ shr_m (SpecFloat.iter_pos shr_1 p mrs).
Proof.
  revert mrs. induction p as [p IH|p IH|]; intros mrs Hm; simpl;
    auto using shr_1_nonneg.
Qed.

Lemma shr_fexp_nonneg m e l :
  0 ≤ m → 0 ≤ shr_m (shr_fexp prec emax m e l).1.
Proof.
  intros Hm. unfold shr_fexp, shr.
  assert (0 ≤ shr_m (shr_record_of_loc m l)) by (by destruct l as [|[]]).
  destruct (fexp prec emax (Zdigits2 m + e) - e); simpl;
    auto using iter_shr_1_nonneg.
Qed.

Lemma round_nearest_even_nonneg m l : 0 ≤ m → 0 ≤ round_nearest_even m l.
Proof.
  intros Hm. unfold round_nearest_even.
  destruct l as [|[]]; try destruct (Z.even m); lia.
Qed.

Lemma binary_round_aux_nonneg m e l :
  0 ≤ m → SF_nonneg (binary_round_aux prec emax false m e l).
Proof.
  intros Hm. unfold binary_round_aux.
  pose proof (shr_fexp_nonneg m e l Hm) as H1.
  destruct (shr_fexp prec emax m e l) as [mrs' e'].
  pose proof (shr_fexp_nonneg _ e' loc_Exact
                (round_nearest_even_nonneg _ (loc_of_shr_record mrs') H1)) as H2.
  destruct (shr_fexp prec emax _ e' loc_Exact) as [mrs'' e''].
  simpl in H2. destruct (shr_m mrs''); [done| |lia].
  by destruct (e'' <=? emax - prec).
Qed.

Lemma binary_round_nonneg m e : SF_nonneg (binary_round prec emax false m e).
Proof.
  unfold binary_round. destruct (shl_align _ _ _) as [mz ez].
  by apply binary_round_aux_nonneg.
Qed.

Lemma binary_normalize_nonneg m e :
  0 ≤ m → SF_nonneg (binary_normalize prec emax m e false).
Proof.
  intros Hm. destruct m; [done| |lia]. apply binary_round_nonneg.
Qed.

Lemma SFadd_nonneg x y :
  SF_nonneg x → SF_nonneg y → SF_nonneg (SF64add x y).
Proof.
  destruct x as [[]|[]| |[] mx ex], y as [[]|[]| |[] my ey]; try done.
  intros _ _. unfold SF64add, SFadd. by apply binary_normalize_nonneg.
Qed.

Lemma SFsqrt_nonneg x : SF_nonneg x → SF_nonneg (SF64sqrt x).
Proof.
  destruct x as [[]|[]| |[] m e]; try done.
  intros _. unfold SF64sqrt, SFsqrt, SFsqrt_core_binary.
  set (m' := match e - 2 * _ with Z0 => _ | Zpos _ => _ | Zneg _ => _ end).
  assert (0 ≤ m') as Hm'.
  { unfold m'. destruct (e - 2 * _); [lia| |lia]. by apply Z.shiftl_nonneg. }
  pose proof (Z.sqrtrem_spec m' Hm') as Hs.
  destruct (Z.sqrtrem m') as [q r].
  apply binary_round_aux_nonneg. lia.
Qed.

Lemma float_add_nonneg (x y : float) :
  (0 <=? x)%float = true → (0 <=? y)%float = true → (0 <=? x + y)%float = true.
Proof.
  rewrite !float_nonneg_spec, add_spec. apply SFadd_nonneg.
Qed.

Lemma float_sqrt_nonneg (x : float) :
  (0 <=? x)%float = true → (0 <=? PrimFloat.sqrt x)%float = true.
Proof.
  rewrite !float_nonneg_spec, sqrt_spec. apply SFsqrt_nonneg.
Qed.

Lemma of_uint63_nonneg n : (0 <=? PrimFloat.of_uint63 n)%float = true.
Proof.
  rewrite float_nonneg_spec, of_uint63_spec.
  apply binary_normalize_nonneg. apply Uint63.to_Z_bounded.
Qed.

Lemma SF2Prim_nonneg x : SF_nonneg x → (0 <=? SF2Prim x)%float = true.
Proof.
  destruct x as [[]|[]| |[] m e]; try done. intros _.
  unfold SF2Prim. rewrite float_nonneg_spec, Z_ldexp_spec.
  pose proof (of_uint63_nonneg (Uint63.of_Z (Z.pos m))) as Hm.
  rewrite float_nonneg_spec in Hm.
  destruct (Prim2SF (of_uint63 (Uint63.of_Z (Z.pos m)))) as [[]|[]| |[] m' e'];
    try done.
  apply binary_round_nonneg.
Qed.

Lemma float_of_Z_nonneg n : 0 ≤ n → (0 <=? float_of_Z n)%float = true.
Proof.
  intros Hn. unfold float_of_Z. case_match.
  - apply of_uint63_nonneg.
  - by apply SF2Prim_nonneg, binary_normalize_nonneg.
Qed.

Lemma float_of_int_nonneg n x :
  0 ≤ n → float_of_int n = Ok x → (0 <=? x)%float = true.
Proof.
  intros Hn. unfold float_of_int. case_match; [done|].
  intros [= <-]. by apply float_of_Z_nonneg.
Qed.

Lemma euclidean_distance_nonneg s d :
  Heuristic.euclidean_distance s = Ok d → (0 <=? d)%float = true.
Proof.
  apply (for_each_invariant (fun d => (0 <=? d)%float = true)); [|done].
  intros [i j] acc acc' Hacc Hbody.
  destruct (getitem2 s i j) as [value|]; [|done]. simpl in Hbody.
  destruct (negb (value =? 0)); [|by injection Hbody as <-].
  destruct (float_of_int _) as [x|] eqn:Hx; [|done]. simpl in Hbody.
  injection Hbody as <-.
  apply float_add_nonneg, float_sqrt_nonneg; [done|].
  eapply float_of_int_nonneg; [|exact Hx].
  assert (Z.Even 2) as H2 by (by exists 1).
  pose proof (Z.pow_even_nonneg (i - (value - 1) `div` 3) 2 H2).
  pose proof (Z.pow_even_nonneg (j - (value - 1) `mod` 3) 2 H2). lia.
Qed.

(** The values of a valid state are among 0..8, where the conversion of
    the squared distance to a float is in range. *)
Lemma euclidean_distance_returns s :
  valid_state s → ∃ d, Heuristic.euclidean_distance s = Ok d.
Proof.
  intros Hv. rewrite (valid_state_shape s Hv).
  destruct Hv as (_ & _ & Hp). pose proof (Permutation_length Hp) as Hlen.
  destruct (concat s) as [|a [|b [|c [|d [|e [|f [|g [|h [|i [|]]]]]]]]]]; try done.
  assert (Forall (fun v => v ∈ [0; 1; 2; 3; 4; 5; 6; 7; 8]) [a; b; c; d; e; f; g; h; i])
    as Hall by (rewrite Hp; by apply Forall_forall).
  repeat (let H := fresh "Hin" in apply Forall_cons in Hall as [H Hall]).
  apply for_each_returns. rewrite cells_eq.
  repeat (apply Forall_cons; split;
    [intros acc; read_cells; cbn [mbind exn_bind];
     repeat match goal with
     | H : ?v ∈ _ :: _ |- context [?v =? 0] =>
         apply elem_of_cons in H as [->|H]
     | H : ?v ∈ [] |- context [?v =? 0] => by apply elem_of_nil in H
     end; vm_compute; eauto|]).
  apply Forall_nil_2.
Qed.

(** C7. Each of the four heuristics returns exactly 0 on the goal grid
    (the float 0.0 for the Euclidean distance) and, on every valid state,
    returns a value that is not negative. *)
Theorem heuristics_zero_at_goal_and_nonneg (s : PuzzleState) (Hvalid : valid_state s) :
  (Heuristic.uniform_cost [[1; 2; 3]; [4; 5; 6]; [7; 8; 0]] = Ok 0
   ∧ Heuristic.misplaced_tile [[1; 2; 3]; [4; 5; 6]; [7; 8; 0]] = Ok 0
   ∧ Heuristic.manhattan_distance [[1; 2; 3]; [4; 5; 6]; [7; 8; 0]] = Ok 0
   ∧ Heuristic.euclidean_distance [[1; 2; 3]; [4; 5; 6]; [7; 8; 0]] = Ok 0%float)
  ∧ (∃ a, Heuristic.uniform_cost s = Ok a ∧ 0 ≤ a)
  ∧ (∃ b, Heuristic.misplaced_tile s = Ok b ∧ 0 ≤ b)
  ∧ (∃ c, Heuristic.manhattan_distance s = Ok c ∧ 0 ≤ c)
  ∧ (∃ d, Heuristic.euclidean_distance s = Ok d ∧ (0 <=? d)%float = true).
Proof.
  split; [by vm_compute|]. split_and!.
  - by exists 0.
  - destruct (misplaced_tile_returns s Hvalid) as [b Hb].
    exists b. eauto using misplaced_tile_nonneg.
  - destruct (manhattan_distance_returns s Hvalid) as [c Hc].
    exists c. eauto using manhattan_distance_nonneg.
  - destruct (euclidean_distance_returns s Hvalid) as [d Hd].
    exists d. eauto using euclidean_distance_nonneg.
Qed.

Lemma heuristics_zero_at_goal_and_nonneg_witness :
  valid_state very_easy
  ∧ (∃ d, Heuristic.euclidean_distance very_easy = Ok d ∧ (0 <=? d)%float = true).
Proof.
  split; [exact valid_very_easy|].
  apply (heuristics_zero_at_goal_and_nonneg very_easy valid_very_easy).
Defined.

(** ** Floats: the order of the values that are not NaN *)

Lemma is_nan_spec (x : float) :
  PrimFloat.is_nan x = false ↔ Prim2SF x ≠ S754_nan.
Proof.
  unfold PrimFloat.is_nan. rewrite FloatAxioms.eqb_spec. unfold SFeqb, SFcompare.
  destruct (Prim2SF x) as [[]|[]| |[] m e]; simpl;
    rewrite ?Z.compare_refl, ?Pos.compare_cont_refl; simpl; intuition congruence.
Qed.

Lemma SFltb_key x y :
  x ≠ S754_nan → y ≠ S754_nan →
  SFltb x y = true ↔ key_lt (float_key x) (float_key y).
Proof.
  intros Hx Hy. unfold SFltb, SFcompare, key_lt.
  destruct x as [[]|[]| |[] m1 e1], y as [[]|[]| |[] m2 e2]; simpl;
    try done; try (split; [intros; lia|intros; first [done|lia]]);
    change (Pos.compare_cont Eq m1 m2) with (Pos.compare m1 m2);
    destruct (Z.compare_spec e1 e2), (Pos.compare_spec m1 m2); simpl;
    split; intros; first [done|lia].
Qed.

Lemma SFeqb_key x y :
  x ≠ S754_nan → y ≠ S754_nan →
  SFeqb x y = true ↔ float_key x = float_key y.
Proof.
  intros Hx Hy. unfold SFeqb, SFcompare.
  destruct x as [[]|[]| |[] m1 e1], y as [[]|[]| |[] m2 e2]; simpl;
    try done;
    change (Pos.compare_cont Eq m1 m2) with (Pos.compare m1 m2);
    destruct (Z.compare_spec e1 e2), (Pos.compare_spec m1 m2); simpl;
    split; intros Heq; first [done|injection Heq; lia|f_equal; f_equal; lia|idtac].
Qed.

Lemma key_lt_cases a b : key_lt a b ∨ a = b ∨ key_lt b a.
Proof.
  destruct a as [[a1 a2] a3], b as [[b1 b2] b3]. unfold key_lt. simpl.
  destruct (Z.lt_total a1 b1) as [?|[->|?]]; [lia| |lia].
  destruct (Z.lt_total a2 b2) as [?|[->|?]]; [lia| |lia].
  destruct (Z.lt_total a3 b3) as [?|[->|?]]; [lia| |lia]. auto.
Qed.

Lemma float_ltb_key (a b : float) :
  PrimFloat.is_nan a = false → PrimFloat.is_nan b = false →
  (a <? b)%float = true ↔ key_lt (float_key (Prim2SF a)) (float_key (Prim2SF b)).
Proof.
  rewrite !is_nan_spec, FloatAxioms.ltb_spec. apply SFltb_key.
Qed.

#[global] Instance float_number_laws : PyNumberLaws float.
Proof.
  split; unfold is_number, num_lt, num_eq; simpl.
  - intros a b Ha%negb_true_iff Hb%negb_true_iff Hlt.
    apply float_ltb_key in Hlt; [|done..].
    apply not_true_is_false. rewrite float_ltb_key by done.
    unfold key_lt in *. lia.
  - intros a b c Ha%negb_true_iff Hb%negb_true_iff Hc%negb_true_iff Hba Hcb.
    apply not_true_iff_false in Hba, Hcb. rewrite float_ltb_key in Hba, Hcb by done.
    apply not_true_is_false. rewrite float_ltb_key by done.
    unfold key_lt in *. lia.
  - intros a b Ha%negb_true_iff Hb%negb_true_iff.
    apply eq_true_iff_eq. rewrite andb_true_iff, !negb_true_iff.
    rewrite <- !not_true_iff_false, !float_ltb_key by done.
    rewrite FloatAxioms.eqb_spec, SFeqb_key by by apply is_nan_spec.
    destruct (key_lt_cases (float_key (Prim2SF a)) (float_key (Prim2SF b)))
      as [Hlt|[Heq|Hgt]].
    + split; [|tauto]. intros Heq. rewrite Heq in Hlt. unfold key_lt in Hlt. lia.
    + split; [|done]. intros _. rewrite Heq. unfold key_lt. lia.
    + split; [|tauto]. intros Heq. rewrite Heq in Hgt. unfold key_lt in Hgt. lia.
Qed.

(** The values that [graph_search] compares are numbers. *)
Lemma float_nonneg_is_number (x : float) :
  (0 <=? x)%float = true → is_number x = true.
Proof.
  rewrite float_nonneg_spec. intros Hx. apply negb_true_iff, is_nan_spec.
  by destruct (Prim2SF x).
Qed.

Lemma euclidean_f_is_number d s v :
  0 ≤ d → Heuristic.euclidean_distance s = Ok v →
  is_number (int_add d v) = true.
Proof.
  intros Hd Hv. apply float_nonneg_is_number. simpl.
  apply float_add_nonneg; [by apply float_of_Z_nonneg|].
  by apply euclidean_distance_nonneg with s.
Qed.

(** ** Moves on a grid written out *)

Lemma valid_state_grid s :
  valid_state s →
  ∃ a b c d e f g h i,
    s = [[a; b; c]; [d; e; f]; [g; h; i]]
    ∧ [a; b; c; d; e; f; g; h; i] ≡ₚ [0; 1; 2; 3; 4; 5; 6; 7; 8].
Proof.
  intros Hv. pose proof (valid_state_shape s Hv) as Hs.
  destruct Hv as (_ & _ & Hp). pose proof (Permutation_length Hp) as Hlen.
  destruct (concat s) as [|a [|b [|c [|d [|e [|f [|g [|h [|i [|]]]]]]]]]]; try done.
  by exists a, b, c, d, e, f, g, h, i.
Qed.

(** [_find_blank] on a grid: the first cell, in row-major order, that holds 0. *)
Lemma find_blank_grid a b c d e f g h i :
  Problem._find_blank [[a; b; c]; [d; e; f]; [g; h; i]]
  = Ok (if a =? 0 then Some (0, 0) else if b =? 0 then Some (0, 1)
        else if c =? 0 then Some (0, 2) else if d =? 0 then Some (1, 0)
        else if e =? 0 then Some (1, 1) else if f =? 0 then Some (1, 2)
        else if g =? 0 then Some (2, 0) else if h =? 0 then Some (2, 1)
        else if i =? 0 then Some (2, 2) else None).
Proof.
  unfold Problem._find_blank. rewrite cells_eq.
  cbn [Problem.find_blank_from]. read_cells. cbn [mbind exn_bind].
  repeat case_match; reflexivity.
Qed.

(** [result] once the blank is found. *)
Lemma result_unfold s op r c :
  Problem._find_blank s = Ok (Some (r, c)) →
  Problem.result s op
  = (target ← Problem.new_position (Some (r, c)) op;
     match target with
     | None => Ok s
     | Some (new_row, new_col) =>
         tile ← getitem2 s new_row new_col;
         new_state ← setitem2 s r c tile;
         setitem2 new_state new_row new_col 0
     end).
Proof.
  intros Hb. unfold Problem.result. rewrite Hb. cbn [mbind exn_bind].
  destruct (Problem.new_position (Some (r, c)) op) as [[[nr nc]|]|]; reflexivity.
Qed.

Lemma operators_unfold s r c :
  Problem._find_blank s = Ok (Some (r, c)) →
  Problem.operators s = Ok (filter (fun op => legal r c op) four_operators).
Proof.
  intros Hb. unfold Problem.operators. rewrite Hb. cbn [mbind exn_bind].
  unfold four_operators, legal. rewrite !filter_cons, filter_nil. cbn.
  destruct (0 <? r), (r <? 2), (0 <? c), (c <? 2); reflexivity.
Qed.


(** [x :: l1 ≡ₚ l2], by finding [x] in [l2]. *)
Ltac find_in x l k :=
  lazymatch l with
  | x :: ?t => k (@nil Z) t
  | ?y :: ?t => find_in x t ltac:(fun pre post => k constr:(y :: pre) post)
  end.

Ltac solve_perm :=
  repeat lazymatch goal with
  | |- [] ≡ₚ [] => reflexivity
  | |- ?x :: ?l1 ≡ₚ ?l2 =>
      find_in x l2 ltac:(fun pre post =>
        change l2 with (pre ++ x :: post);
        apply (@Permutation_cons_app Z l1 pre post x); cbn [app])
  end.

Lemma same_parity (A B : Z) :
  A = B ∨ A = B + 2 ∨ A + 2 = B → (A mod 2 =? 0) = (B mod 2 =? 0).
Proof.
  intros [->|[->| <-]]; [done| |].
  - by rewrite <- (Z.mul_1_l 2) at 1; rewrite Z_mod_plus_full.
  - by rewrite <- (Z.mul_1_l 2) at 2; rewrite Z_mod_plus_full.
Qed.

Lemma is_solvable_inversions s :
  Problem.is_solvable s = (inversions (Problem.tiles_of s) mod 2 =? 0).
Proof. unfold Problem.is_solvable. by rewrite count_inversions_rec. Qed.

Lemma flip_lt (x y : Z) :
  x ≠ y → (if x <? y then 1 else 0) = 1 - (if y <? x then 1 else 0).
Proof. intros Hne. destruct (Z.ltb_spec x y), (Z.ltb_spec y x); lia. Qed.

(** The pairwise differences that [NoDup] gives, one hypothesis each. *)
Ltac all_distinct H :=
  repeat (let Hn := fresh "Hnin" in apply NoDup_cons in H as [Hn H]);
  clear H;
  repeat match goal with
  | Hn : _ ∉ _ :: _ |- _ =>
      let Hne := fresh "Hne" in apply not_elem_of_cons in Hn as [Hne Hn]
  | Hn : _ ∉ [] |- _ => clear Hn
  end.

Ltac distinct := first [ assumption | apply not_eq_sym; assumption ].

(** The non-blank tiles of a grid written out, the blank being known. *)
Ltac simpl_tiles :=
  unfold Problem.tiles_of; cbn [concat app];
  repeat first [ rewrite filter_cons_True by distinct
               | rewrite filter_cons_False by (cbv beta; congruence) ];
  rewrite ?filter_nil.

(** Two inversion counts that differ in the order of a few pairs. *)
Ltac flip_pairs :=
  repeat match goal with
  | |- context [if ?x <? ?y then 1 else 0] =>
      match goal with
      | |- context [if y <? x then 1 else 0] =>
          rewrite (flip_lt x y) by distinct; destruct (y <? x)
      end
  end.

Ltac solve_parity :=
  rewrite !is_solvable_inversions; simpl_tiles;
  cbn [inversions smaller_after]; apply same_parity; flip_pairs;
  repeat match goal with H : _ ≠ _ |- _ => clear H end; lia.

(** [_find_blank] on a grid whose blank is known. *)
Ltac find_blank :=
  rewrite find_blank_grid;
  repeat (rewrite (proj2 (Z.eqb_neq _ 0)) by distinct);
  reflexivity.

(** [result] on a grid whose blank is known, by computation. *)
Ltac run_result :=
  erewrite result_unfold by find_blank; cbv; reflexivity.

Ltac solve_valid Hp :=
  split_and!; [done|by repeat constructor|];
  rewrite <- Hp; cbn [concat app]; solve_perm.

(** One operator on a grid whose blank is known. *)
Ltac one_operator Hp r c op :=
  let raises := eval vm_compute in (result_raises r c op) in
  change (result_raises r c op) with raises; cbv iota;
  lazymatch raises with
  | true => run_result
  | false =>
      eexists; split; [run_result|];
      split; [solve_valid Hp|];
      let islegal := eval vm_compute in (legal r c op) in
      change (legal r c op) with islegal;
      lazymatch islegal with
      | false => intros; discriminate
      | true =>
          intros _; split;
          [ solve_parity
          | let inv := eval vm_compute in (inverse op) in
            change (inverse op) with inv; run_result ]
      end
  end.

Ltac four_operators_at Hp r c :=
  exists r, c; split; [find_blank|];
  intros op Hop;
  apply elem_of_cons in Hop as [->|Hop]; [one_operator Hp r c "up"%string|];
  apply elem_of_cons in Hop as [->|Hop]; [one_operator Hp r c "down"%string|];
  apply elem_of_cons in Hop as [->|Hop]; [one_operator Hp r c "left"%string|];
  apply elem_of_cons in Hop as [->|Hop]; [one_operator Hp r c "right"%string|];
  by apply elem_of_nil in Hop.

(** The four operators on a valid grid written out. *)
Lemma moves_grid a b c d e f g h i :
  [a; b; c; d; e; f; g; h; i] ≡ₚ [0; 1; 2; 3; 4; 5; 6; 7; 8] →
  ∃ blank_row blank_col,
    Problem._find_blank [[a; b; c]; [d; e; f]; [g; h; i]]
    = Ok (Some (blank_row, blank_col))
    ∧ ∀ op, op ∈ four_operators →
        if result_raises blank_row blank_col op
        then Problem.result [[a; b; c]; [d; e; f]; [g; h; i]] op = Raise IndexError
        else ∃ s',
          Problem.result [[a; b; c]; [d; e; f]; [g; h; i]] op = Ok s'
          ∧ valid_state s'
          ∧ (legal blank_row blank_col op = true →
             Problem.is_solvable s'
             = Problem.is_solvable [[a; b; c]; [d; e; f]; [g; h; i]]
             ∧ Problem.result s' (inverse op)
               = Ok [[a; b; c]; [d; e; f]; [g; h; i]]).
Proof.
  intros Hp.
  assert (NoDup [a; b; c; d; e; f; g; h; i]) as Hnd
    by (rewrite Hp; by apply (bool_decide_unpack _)).
  assert (0 ∈ [a; b; c; d; e; f; g; h; i]) as H0 by (rewrite Hp; set_solver).
  all_distinct Hnd.
  apply elem_of_cons in H0 as [<-|H0]; [four_operators_at Hp 0 0|].
  apply elem_of_cons in H0 as [<-|H0]; [four_operators_at Hp 0 1|].
  apply elem_of_cons in H0 as [<-|H0]; [four_operators_at Hp 0 2|].
  apply elem_of_cons in H0 as [<-|H0]; [four_operators_at Hp 1 0|].
  apply elem_of_cons in H0 as [<-|H0]; [four_operators_at Hp 1 1|].
  apply elem_of_cons in H0 as [<-|H0]; [four_operators_at Hp 1 2|].
  apply elem_of_cons in H0 as [<-|H0]; [four_operators_at Hp 2 0|].
  apply elem_of_cons in H0 as [<-|H0]; [four_operators_at Hp 2 1|].
  apply elem_of_cons in H0 as [<-|H0]; [four_operators_at Hp 2 2|].
  by apply elem_of_nil in H0.
Qed.

(** ** Moves on valid states *)

Lemma four_operators_valid s :
  valid_state s →
  ∃ blank_row blank_col,
    Problem._find_blank s = Ok (Some (blank_row, blank_col))
    ∧ ∀ op, op ∈ four_operators →
        if result_raises blank_row blank_col op
        then Problem.result s op = Raise IndexError
        else ∃ s',
          Problem.result s op = Ok s' ∧ valid_state s'
          ∧ (legal blank_row blank_col op = true →
             Problem.is_solvable s' = Problem.is_solvable s
             ∧ Problem.result s' (inverse op) = Ok s).
Proof.
  intros (a & b & c & d & e & f & g & h & i & -> & Hp)%valid_state_grid.
  by apply moves_grid.
Qed.

Lemma legal_not_raises r c op : legal r c op = true → result_raises r c op = false.
Proof.
  unfold legal, result_raises.
  destruct (String.eqb_spec op "up") as [->|_];
    [|destruct (String.eqb_spec op "down") as [->|_];
      [|destruct (String.eqb_spec op "left") as [->|_];
        [|destruct (String.eqb_spec op "right") as [->|_]]]];
    cbn; try done;
    destruct (Z.ltb_spec r 2), (Z.eqb_spec r 2),
      (Z.ltb_spec c 2), (Z.eqb_spec c 2); cbn; try done; lia.
Qed.

(** Every operator that [operators] lists leads to a valid state with the
    same inversion parity, and its inverse leads back. *)
Lemma legal_moves s :
  valid_state s →
  ∃ ops, Problem.operators s = Ok ops
    ∧ (length ops ≤ 4)%nat
    ∧ ∀ m, m ∈ ops →
        ∃ s', Problem.result s m = Ok s'
          ∧ valid_state s'
          ∧ Problem.is_solvable s' = Problem.is_solvable s
          ∧ Problem.result s' (inverse m) = Ok s.
Proof.
  intros Hvalid.
  destruct (four_operators_valid s Hvalid) as (r & c & Hb & Hops).
  exists (filter (fun op => legal r c op) four_operators).
  split; [by apply operators_unfold|].
  split; [apply (length_filter _ four_operators)|].
  intros m [Hlegal Hm]%list_elem_of_filter.
  specialize (Hops m Hm). apply Is_true_true in Hlegal.
  rewrite (legal_not_raises _ _ _ Hlegal) in Hops.
  destruct Hops as (s' & Hres & Hv & Hrest).
  destruct (Hrest Hlegal) as [Hpar Hback]. by exists s'.
Qed.

(** C8. On every valid state, a move that [operators] lists followed by its
    inverse gives back the state: [result(result(s, m), inverse(m)) == s]. *)
Theorem move_then_inverse (s : PuzzleState) (Hvalid : valid_state s) :
  ∃ ops, Problem.operators s = Ok ops
    ∧ ∀ m, m ∈ ops →
        ∃ s', Problem.result s m = Ok s' ∧ Problem.result s' (inverse m) = Ok s.
Proof.
  destruct (legal_moves s Hvalid) as (ops & Hops & _ & Hmoves).
  exists ops. split; [done|]. intros m Hm.
  destruct (Hmoves m Hm) as (s' & Hres & _ & _ & Hback). eauto.
Qed.

Lemma move_then_inverse_witness :
  valid_state very_easy
  ∧ ∃ ops, Problem.operators very_easy = Ok ops
      ∧ ∀ m, m ∈ ops →
          ∃ s', Problem.result very_easy m = Ok s'
                ∧ Problem.result s' (inverse m) = Ok very_easy.
Proof.
  split; [exact valid_very_easy|].
  exact (move_then_inverse very_easy valid_very_easy).
Defined.

(** C9, as the code has it. On every valid grid and for each of the four
    operators, [result] either returns a grid that again holds each of 0..8
    exactly once, or raises [IndexError]; it raises exactly for "down" with
    the blank in the bottom row and for "right" with the blank in the right
    column ("up" from the top row and "left" from the left column reach
    the opposite edge through the index -1 and still return a valid grid);
    and for an operator that [operators] lists for the grid it always
    returns such a grid. *)
Theorem result_preserves_permutation_or_raises
    (s : PuzzleState) (op : string)
    (Hvalid : valid_state s) (Hop : op ∈ four_operators) :
  ∃ blank_row blank_col ops,
    Problem._find_blank s = Ok (Some (blank_row, blank_col))
    ∧ (if result_raises blank_row blank_col op
       then Problem.result s op = Raise IndexError
       else ∃ s', Problem.result s op = Ok s' ∧ valid_state s')
    ∧ Problem.operators s = Ok ops
    ∧ (op ∈ ops → ∃ s', Problem.result s op = Ok s' ∧ valid_state s').
Proof.
  destruct (four_operators_valid s Hvalid) as (r & c & Hb & Hops).
  destruct (legal_moves s Hvalid) as (ops & Hlist & _ & Hmoves).
  exists r, c, ops. split; [done|]. split.
  - specialize (Hops op Hop). destruct (result_raises r c op); [done|].
    destruct Hops as (s' & Hres & Hv & _). eauto.
  - split; [done|]. intros Hin.
    destruct (Hmoves op Hin) as (s' & Hres & Hv & _). eauto.
Qed.

Lemma result_preserves_permutation_or_raises_witness :
  valid_state very_easy ∧ "up"%string ∈ four_operators
  ∧ ∃ ops,
      Problem.operators very_easy = Ok ops
      ∧ ("up"%string ∈ ops →
         ∃ s', Problem.result very_easy "up" = Ok s' ∧ valid_state s').
Proof.
  split; [exact valid_very_easy|].
  assert ("up"%string ∈ four_operators) as Hop by (by apply (bool_decide_unpack _)).
  split; [exact Hop|].
  destruct (result_preserves_permutation_or_raises very_easy "up" valid_very_easy Hop)
    as (r & c & ops & _ & _ & Hops & Hres).
  exists ops. split; assumption.
Defined.

(** C9 as stated fails: the goal grid is valid and "down" is one of the
    four operators, yet [result] returns no grid: [new_state[3]] raises. *)
Lemma result_down_from_bottom_row_raises :
  valid_state [[1; 2; 3]; [4; 5; 6]; [7; 8; 0]]
  ∧ "down"%string ∈ four_operators
  ∧ Problem.result [[1; 2; 3]; [4; 5; 6]; [7; 8; 0]] "down" = Raise IndexError
  ∧ ¬ ∃ s', Problem.result [[1; 2; 3]; [4; 5; 6]; [7; 8; 0]] "down" = Ok s'
            ∧ valid_state s'.
Proof.
  split_and!.
  - exact valid_goal.
  - by apply (bool_decide_unpack _).
  - reflexivity.
  - intros (s' & Hres & _). discriminate Hres.
Qed.

(** ** Reachable states *)

Lemma reachable_valid s0 s :
  valid_state s0 → reachable s0 s →
  valid_state s ∧ Problem.is_solvable s = Problem.is_solvable s0.
Proof.
  intros Hv0. induction 1 as [|s ops m s' _ [Hv Hpar] Hops Hm Hres]; [done|].
  destruct (legal_moves s Hv) as (ops' & Hops' & _ & Hmoves).
  rewrite Hops in Hops'. injection Hops' as <-.
  destruct (Hmoves m Hm) as (s'' & Hres' & Hv' & Hpar' & _).
  rewrite Hres in Hres'. injection Hres' as <-. split; [done|congruence].
Qed.

Lemma NoDup_subset_length {A} (l k : list A) :
  NoDup l → (∀ x, x ∈ l → x ∈ k) → (length l ≤ length k)%nat.
Proof. intros Hnd Hsub. by apply submseteq_length, NoDup_submseteq. Qed.

Lemma size_reachable_le (s0 : PuzzleState) (X : gset PuzzleState)
    (k : list PuzzleState) :
  (∀ s, s ∈ X → reachable s0 s) →
  (∀ s, reachable s0 s → s ∈ k) →
  (size X ≤ length k)%nat.
Proof.
  intros HX Hk. unfold size, set_size. simpl.
  apply NoDup_subset_length; [apply NoDup_elements|].
  intros s Hs%elem_of_elements. auto.
Qed.

Lemma size_explored_le (s0 : PuzzleState) (X : gset PuzzleState) :
  valid_state s0 → (∀ s, s ∈ X → reachable s0 s) →
  (size X ≤ length all_states)%nat.
Proof.
  intros Hv0 HX. apply (size_reachable_le s0); [done|].
  intros s Hs. by apply valid_state_in_all, (reachable_valid s0).
Qed.

(** ** heapq: the heap keeps its items *)

Lemma div2_pred_spec (j : nat) :
  (0 < j)%nat →
  (j = 2 * Nat.div2 (j - 1) + 1 ∨ j = 2 * Nat.div2 (j - 1) + 2)%nat.
Proof.
  intros Hj. pose proof (Nat.div2_odd (j - 1)) as Hd.
  destruct (Nat.odd (j - 1)); simpl in Hd; lia.
Qed.

Lemma last_removelast {A} (l : list A) x :
  last l = Some x → l = removelast l ++ [x].
Proof.
  induction l as [|y [|z l] IH]; intros Hl; [done| |].
  - by injection Hl as ->.
  - rewrite last_cons_cons in Hl.
    change (removelast (y :: z :: l)) with (y :: removelast (z :: l)).
    simpl. f_equal. by apply IH.
Qed.

Section heap_items.
Context {E : Type} (lt : E → E → bool).

Lemma at_pos_lookup (heap : list E) i d x :
  heap !! i = Some x → heapq.at_pos heap i d = x.
Proof. unfold heapq.at_pos. by intros ->. Qed.

(** Moving the hole from [i] to [j], the item at [j] taking the place at [i]. *)
Lemma move_hole (heap : list E) i j x y :
  (i < length heap)%nat → heap !! j = Some y → i ≠ j →
  <[j := x]> (<[i := y]> heap) ≡ₚ <[i := x]> heap.
Proof.
  intros Hi Hj Hne.
  rewrite <- (list_insert_insert_eq heap i y x).
  apply Permutation_insert_swap.
  - by apply list_lookup_insert_eq.
  - by rewrite list_lookup_insert_ne.
Qed.

Lemma siftdown_loop_length fuel (heap : list E) startpos pos newitem :
  length (heapq.siftdown_loop lt fuel heap startpos pos newitem) = length heap.
Proof.
  revert heap pos. induction fuel as [|fuel IH]; intros heap pos; simpl.
  - by rewrite length_insert.
  - repeat case_match; rewrite ?IH, ?length_insert; done.
Qed.

Lemma siftdown_loop_perm fuel (heap : list E) startpos pos newitem :
  (pos < length heap)%nat →
  heapq.siftdown_loop lt fuel heap startpos pos newitem ≡ₚ <[pos := newitem]> heap.
Proof.
  revert heap pos. induction fuel as [|fuel IH]; intros heap pos Hpos; [done|].
  cbn [heapq.siftdown_loop]. destruct (Nat.ltb_spec startpos pos) as [Hlt|]; [|done].
  pose proof (div2_pred_spec pos ltac:(lia)) as Hparent.
  destruct (lookup_lt_is_Some_2 heap (Nat.div2 (pos - 1)) ltac:(lia)) as [parent Hp].
  rewrite (at_pos_lookup _ _ _ _ Hp).
  destruct (lt newitem parent); [|done].
  rewrite IH by (rewrite length_insert; lia).
  apply move_hole; [done|done|lia].
Qed.

Lemma siftdown_perm (heap : list E) startpos pos :
  heapq._siftdown lt heap startpos pos ≡ₚ heap.
Proof.
  unfold heapq._siftdown. destruct (heap !! pos) as [newitem|] eqn:Hpos; [|done].
  rewrite siftdown_loop_perm by eauto using lookup_lt_Some.
  by rewrite list_insert_id.
Qed.

Lemma siftup_loop_perm fuel (heap : list E) pos newitem heap' pos' :
  (pos < length heap)%nat →
  heapq.siftup_loop lt fuel heap (length heap) pos newitem = (heap', pos') →
  (pos' < length heap')%nat ∧ length heap' = length heap
  ∧ <[pos' := newitem]> heap' ≡ₚ <[pos := newitem]> heap.
Proof.
  revert heap pos. induction fuel as [|fuel IH]; intros heap pos Hpos Hrun.
  { injection Hrun as <- <-. done. }
  cbn [heapq.siftup_loop] in Hrun.
  destruct (Nat.ltb_spec (2 * pos + 1) (length heap)) as [Hchild|];
    [|by injection Hrun as <- <-].
  set (childpos := if _ && _ then _ else _) in Hrun.
  assert (childpos < length heap ∧ pos < childpos)%nat as [Hc Hpc].
  { unfold childpos. destruct (Nat.ltb_spec (2 * pos + 1 + 1) (length heap));
      simpl; [destruct (negb _)|]; lia. }
  destruct (lookup_lt_is_Some_2 heap childpos Hc) as [c Hcl].
  rewrite (at_pos_lookup _ _ _ _ Hcl) in Hrun.
  rewrite <- (length_insert heap pos c) in Hrun.
  apply IH in Hrun as (Hpos' & Hlen & Hperm); [|rewrite length_insert; lia].
  rewrite length_insert in Hlen. split_and!; [done|done|].
  rewrite Hperm. apply move_hole; [done|done|lia].
Qed.

Lemma siftup_perm (heap : list E) pos : heapq._siftup lt heap pos ≡ₚ heap.
Proof.
  unfold heapq._siftup. destruct (heap !! pos) as [newitem|] eqn:Hpos; [|done].
  destruct (heapq.siftup_loop _ _ _ _ _ _) as [heap' pos'] eqn:Hloop.
  apply siftup_loop_perm in Hloop as (_ & _ & Hperm); [|eauto using lookup_lt_Some].
  by rewrite siftdown_perm, Hperm, list_insert_id.
Qed.

Lemma heappush_perm (heap : list E) item :
  heapq.heappush lt heap item ≡ₚ item :: heap.
Proof.
  unfold heapq.heappush. rewrite siftdown_perm.
  by rewrite Permutation_app_comm.
Qed.

Lemma heappop_perm (heap : list E) item heap' :
  heapq.heappop lt heap = Ok (item, heap') → heap ≡ₚ item :: heap'.
Proof.
  unfold heapq.heappop. destruct (last heap) as [lastelt|] eqn:Hlast; [|done].
  pose proof (last_removelast heap lastelt Hlast) as Hheap.
  destruct (removelast heap) as [|returnitem rest]; intros [= <- <-];
    rewrite Hheap; [done|].
  rewrite siftup_perm. simpl. apply perm_skip.
  by rewrite Permutation_app_comm.
Qed.

Lemma heappop_nonempty (heap : list E) :
  heap ≠ [] → ∃ item heap', heapq.heappop lt heap = Ok (item, heap').
Proof.
  intros Hne. unfold heapq.heappop.
  destruct (last heap) as [lastelt|] eqn:Hlast.
  - destruct (removelast heap); eauto.
  - by apply last_None in Hlast.
Qed.

End heap_items.

(** ** Counting the state space *)

Lemma zlength_spec {A} (l : list A) : zlength l = Z.of_nat (length l).
Proof.
  unfold zlength. rewrite <- (Z.add_0_l (Z.of_nat _)). generalize 0.
  induction l as [|x l IH]; intros n; simpl; [lia|]. rewrite IH. lia.
Qed.

Lemma filter_fmap {A B} (f : A → B) (P : B → Prop) `{!∀ y, Decision (P y)}
    (l : list A) :
  filter P (f <$> l) = f <$> filter (fun x => P (f x)) l.
Proof.
  induction l as [|x l IH]; [done|].
  rewrite fmap_cons, !filter_cons, IH. by case_decide.
Qed.

Lemma is_solvable_to_grid p :
  length p = 9%nat → Problem.is_solvable (to_grid p) = solvable_perm p.
Proof.
  intros Hlen.
  destruct p as [|a [|b [|c [|d [|e [|f [|g [|h [|i [|]]]]]]]]]]; try done.
  apply is_solvable_inversions.
Qed.

Lemma permutations_count :
  zlength (permutations [0; 1; 2; 3; 4; 5; 6; 7; 8]) = 362880.
Proof. vm_cast_no_check (eq_refl 362880). Qed.

Lemma solvable_permutations_count :
  zlength (filter (fun p => solvable_perm p = true)
                  (permutations [0; 1; 2; 3; 4; 5; 6; 7; 8])) = 181440.
Proof. vm_cast_no_check (eq_refl 181440). Qed.

Lemma all_states_count : Z.of_nat (length all_states) = 362880.
Proof.
  unfold all_states. rewrite length_fmap, <- zlength_spec.
  exact permutations_count.
Qed.

Lemma solvable_states_eq :
  filter (fun s => Problem.is_solvable s = true) all_states
  = to_grid <$> filter (fun p => solvable_perm p = true)
                       (permutations [0; 1; 2; 3; 4; 5; 6; 7; 8]).
Proof.
  unfold all_states.
  remember (permutations [0; 1; 2; 3; 4; 5; 6; 7; 8]) as perms eqn:Hperms.
  rewrite filter_fmap. f_equal.
  apply filter_ext_in. intros p Hp. rewrite Hperms in Hp.
  apply permutations_Permutation, Permutation_length in Hp.
  by rewrite is_solvable_to_grid.
Qed.

Lemma filter_bool_split {A} (f : A → bool) (l : list A) :
  (length (filter (fun x => f x = true) l)
   + length (filter (fun x => f x = false) l) = length l)%nat.
Proof.
  induction l as [|x l IH]; [done|].
  rewrite !filter_cons. destruct (f x); repeat case_decide; try done; simpl; lia.
Qed.

Lemma parity_class_of (l : list PuzzleState) (n m : Z) (parity : bool) :
  Z.of_nat (length l) = n →
  Z.of_nat (length (filter (fun s => Problem.is_solvable s = true) l)) = m →
  Z.of_nat (length (filter (fun s => Problem.is_solvable s = parity) l))
  = if parity then m else n - m.
Proof.
  intros Hn Hm. pose proof (filter_bool_split Problem.is_solvable l) as Hsplit.
  destruct parity; [exact Hm|]. lia.
Qed.

Lemma solvable_states_count :
  Z.of_nat (length (filter (fun s => Problem.is_solvable s = true) all_states))
  = 181440.
Proof.
  rewrite solvable_states_eq, length_fmap, <- zlength_spec.
  exact solvable_permutations_count.
Qed.

(** Half of the 9! states have an even inversion count, half an odd one. *)
Lemma parity_class_count (parity : bool) :
  Z.of_nat (length (filter (fun s => Problem.is_solvable s = parity) all_states))
  = 181440.
Proof.
  rewrite (parity_class_of all_states 362880 181440 parity
             all_states_count solvable_states_count).
  by destruct parity.
Qed.

(** At most 181440 distinct states are reachable from a valid state. *)
Lemma reachable_count s0 (l : list PuzzleState) :
  valid_state s0 → NoDup l → (∀ s, s ∈ l → reachable s0 s) →
  Z.of_nat (length l) ≤ 181440.
Proof.
  intros Hv0 Hnd Hl.
  rewrite <- (parity_class_count (Problem.is_solvable s0)).
  apply Nat2Z.inj_le, submseteq_length, NoDup_submseteq; [done|].
  intros s Hs. destruct (reachable_valid s0 s Hv0 (Hl s Hs)) as [Hv Hpar].
  apply list_elem_of_filter. split; [done|]. by apply valid_state_in_all.
Qed.

(** ** The loop of graph_search *)

Section search_loop.
Context {H : Type} `{PyNumber H}.
Variable initial : PuzzleState.
Variable heuristic_func : PuzzleState → exn H.
Hypothesis Hvalid : valid_state initial.

Let problem := Problem.init initial.

(** A larger budget of iterations changes no result. *)
Lemma search_loop_mono fuel fuel' st r :
  search_loop problem heuristic_func fuel st = Some r →
  (fuel ≤ fuel')%nat →
  search_loop problem heuristic_func fuel' st = Some r.
Proof.
  revert fuel' st. induction fuel as [|fuel IH]; intros fuel' st Hrun Hle; [done|].
  destruct fuel' as [|fuel']; [lia|]. simpl in *.
  destruct (frontier st); [done|].
  destruct (loop_body problem heuristic_func st) as [[res|st']|err]; [done| |done].
  apply IH; [done|lia].
Qed.

Lemma expand_operator_spec node explored op frontier counter frontier' counter' :
  expand_operator heuristic_func node explored op (frontier, counter)
  = Ok (frontier', counter') →
  (frontier' = frontier ∧ counter' = counter)
  ∨ (∃ child h_cost,
      Problem.result (Node.state node) op = Ok child
      ∧ (child ∉ explored)
      ∧ heuristic_func child = Ok h_cost
      ∧ counter' = counter + 1
      ∧ frontier' = heapq.heappush entry_lt frontier
                      (child_entry node op child h_cost counter)).
Proof.
  unfold expand_operator.
  destruct (Problem.result (Node.state node) op) as [child|] eqn:Hres; [|done].
  cbn [mbind exn_bind]. unfold state_tuple. case_bool_decide as Hin.
  - intros [= <- <-]. by left.
  - destruct (heuristic_func child) as [h_cost|] eqn:Hh; [|done].
    cbn [mbind exn_bind]. intros [= <- <-]. right. by exists child, h_cost.
Qed.

Lemma expand_all_counter_mono node explored ops frontier counter frontier' counter' :
  for_each ops (expand_operator heuristic_func node explored) (frontier, counter)
  = Ok (frontier', counter') →
  counter ≤ counter'.
Proof.
  revert frontier counter. induction ops as [|op ops IH]; intros fr c0 Hrun.
  - injection Hrun as <- <-. lia.
  - cbn [for_each] in Hrun.
    destruct (expand_operator _ _ _ op _) as [[fr1 c1]|] eqn:Hop; [|done].
    cbn [mbind exn_bind] in Hrun. apply IH in Hrun.
    apply expand_operator_spec in Hop as [[-> ->]|(?&?&?&?&?&->&?)]; lia.
Qed.

(** The [for] loop over the operators keeps every property of the frontier
    entries that the new entries have, and pushes at most one per operator. *)
Lemma expand_all_spec (Q : entry H → Prop) node explored ops
    frontier counter frontier' counter' :
  for_each ops (expand_operator heuristic_func node explored) (frontier, counter)
  = Ok (frontier', counter') →
  (∀ op child h_cost c,
     op ∈ ops → Problem.result (Node.state node) op = Ok child →
     (child ∉ explored) → heuristic_func child = Ok h_cost →
     counter ≤ c < counter' →
     Q (child_entry node op child h_cost c)) →
  Forall Q frontier →
  Forall Q frontier'
  ∧ (length frontier' ≤ length frontier + length ops)%nat
  ∧ counter ≤ counter'
  ∧ counter' - counter = Z.of_nat (length frontier') - Z.of_nat (length frontier).
Proof.
  revert frontier counter.
  induction ops as [|op ops IH]; intros frontier counter Hrun HQ Hfr.
  - injection Hrun as <- <-. split_and!; [done|simpl; lia|lia|lia].
  - cbn [for_each] in Hrun.
    destruct (expand_operator _ _ _ op _) as [[fr1 c1]|] eqn:Hop; [|done].
    cbn [mbind exn_bind] in Hrun.
    assert (counter ≤ c1 ∧ c1 ≤ counter'
            → ∀ op' child h_cost c, op' ∈ ops →
              Problem.result (Node.state node) op' = Ok child →
              (child ∉ explored) → heuristic_func child = Ok h_cost →
              c1 ≤ c < counter' → Q (child_entry node op' child h_cost c)) as HQ'.
    { intros ? op' child h_cost c ?????. apply HQ; try done; [by right|lia]. }
    apply expand_operator_spec in Hop
      as [[-> ->]|(child & h_cost & Hres & Hnew & Hh & -> & ->)].
    + destruct (IH _ _ Hrun) as (HF & Hlen & Hc & Hd); [|done|].
      { intros; apply HQ; try done. by right. }
      split_and!; [done|simpl; lia|done|done].
    + pose proof (expand_all_counter_mono _ _ _ _ _ _ _ Hrun) as Hle.
      destruct (IH _ _ Hrun) as (HF & Hlen & Hc & Hd).
      { intros; apply HQ; try done; [by right|lia]. }
      { rewrite heappush_perm. apply Forall_cons. split; [|done].
        apply HQ; try done; [by left|lia]. }
      pose proof (Permutation_length
        (heappush_perm entry_lt frontier (child_entry node op child h_cost counter)))
        as Hpush.
      rewrite Hpush in Hlen, Hd. simpl in *. split_and!; [done|lia|lia|lia].
Qed.

(** The two ways in which an iteration goes on to the next one. *)
Lemma loop_body_continue st st' :
  loop_body problem heuristic_func st = Ok (inr st') →
  ∃ popped rest,
    heapq.heappop entry_lt (frontier st) = Ok (popped, rest)
    ∧ Problem.goal_test problem (Node.state (entry_node popped)) = false
    ∧ ((Node.state (entry_node popped) ∈ explored st
        ∧ st' = mk_search_state rest (explored st) (counter st)
                                (nodes_expanded st) (max_queue_size st))
       ∨ ((Node.state (entry_node popped) ∉ explored st)
          ∧ ∃ ops frontier' counter',
              Problem.operators (Node.state (entry_node popped)) = Ok ops
              ∧ for_each ops
                  (expand_operator heuristic_func (entry_node popped)
                     ({[Node.state (entry_node popped)]} ∪ explored st))
                  (rest, counter st) = Ok (frontier', counter')
              ∧ st' = mk_search_state frontier'
                        ({[Node.state (entry_node popped)]} ∪ explored st)
                        counter' (nodes_expanded st + 1)
                        (Z.max (max_queue_size st) (Z.of_nat (length frontier'))))).
Proof.
  unfold loop_body.
  destruct (heapq.heappop entry_lt (frontier st)) as [[popped rest]|] eqn:Hpop; [|done].
  cbn [mbind exn_bind]. intros Hrun. exists popped, rest. split; [done|].
  destruct (Problem.goal_test problem _) eqn:Hgoal; [done|]. split; [done|].
  unfold state_tuple in Hrun. case_bool_decide as Hin.
  - left. by injection Hrun as <-.
  - right. split; [done|].
    destruct (Problem.operators _) as [ops|] eqn:Hops; [|done].
    cbn [mbind exn_bind] in Hrun.
    destruct (for_each ops _ _) as [[frontier' counter']|] eqn:Hexp; [|done].
    cbn [mbind exn_bind] in Hrun. injection Hrun as <-.
    by exists ops, frontier', counter'.
Qed.

Lemma loop_body_return st r :
  loop_body problem heuristic_func st = Ok (inl r) →
  ∃ popped rest,
    heapq.heappop entry_lt (frontier st) = Ok (popped, rest)
    ∧ Problem.goal_test problem (Node.state (entry_node popped)) = true
    ∧ r = (Some (entry_node popped), nodes_expanded st, max_queue_size st).
Proof.
  unfold loop_body.
  destruct (heapq.heappop entry_lt (frontier st)) as [[popped rest]|] eqn:Hpop; [|done].
  cbn [mbind exn_bind]. intros Hrun. exists popped, rest. split; [done|].
  destruct (Problem.goal_test problem _) eqn:Hgoal.
  - by injection Hrun as <-.
  - unfold state_tuple in Hrun. case_bool_decide; [done|].
    destruct (Problem.operators _); [|done]. cbn [mbind exn_bind] in Hrun.
    destruct (for_each _ _ _) as [[??]|]; done.
Qed.

(** ** The invariant and the measure of the loop *)

Lemma search_inv_initial h_initial :
  search_inv initial (initial_search_state problem h_initial).
Proof.
  split_and!.
  - intros e ->%list_elem_of_singleton. apply reachable_refl.
  - intros s Hs. by apply not_elem_of_empty in Hs.
  - done.
Qed.

Lemma search_inv_step st st' :
  search_inv initial st →
  loop_body problem heuristic_func st = Ok (inr st') →
  search_inv initial st' ∧ (potential st' < potential st)%nat.
Proof.
  intros (Hfr & Hex & Hne) (popped & rest & Hpop & _ & Hcase)%loop_body_continue.
  apply heappop_perm in Hpop.
  assert (reachable initial (Node.state (entry_node popped))) as Hreach.
  { apply Hfr. rewrite Hpop. by left. }
  assert (∀ e, e ∈ rest → reachable initial (Node.state (entry_node e))) as Hrest.
  { intros e He. apply Hfr. rewrite Hpop. by right. }
  pose proof (Permutation_length Hpop) as Hlen. simpl in Hlen.
  destruct Hcase as [[Hin ->]|(Hnew & ops & frontier' & counter' & Hops & Hexp & ->)].
  - split; [done|]. unfold potential. cbn [frontier explored]. lia.
  - destruct (reachable_valid _ _ Hvalid Hreach) as [Hv _].
    destruct (legal_moves _ Hv) as (ops' & Hops' & Hfour & _).
    rewrite Hops in Hops'. injection Hops' as <-.
    apply (expand_all_spec
             (fun e => reachable initial (Node.state (entry_node e)))) in Hexp
      as (Hfr' & Hlen' & _); cycle 1.
    { intros op child h_cost c Hop Hres _ _ _. simpl.
      by apply (reachable_step initial (Node.state (entry_node popped)) ops op). }
    { by apply Forall_forall. }
    assert (∀ s, s ∈ ({[Node.state (entry_node popped)]} ∪ explored st
                      : gset PuzzleState) → reachable initial s) as Hex'.
    { intros s [->%elem_of_singleton|Hs]%elem_of_union; auto. }
    assert (size ({[Node.state (entry_node popped)]} ∪ explored st
                  : gset PuzzleState) = S (size (explored st))) as Hsize.
    { rewrite size_union by set_solver. by rewrite size_singleton. }
    pose proof (size_explored_le initial _ Hvalid Hex') as Hbound.
    split.
    + split_and!; [by apply Forall_forall|done|].
      cbn [nodes_expanded explored]. rewrite Hsize. lia.
    + unfold potential. cbn [frontier explored]. rewrite Hsize in *. lia.
Qed.

(** The loop ends within [potential st] iterations, one more to see the
    empty frontier. *)
Lemma search_loop_terminates st :
  search_inv initial st →
  ∃ r, search_loop problem heuristic_func (S (potential st)) st = Some r.
Proof.
  remember (potential st) as n eqn:Hn.
  assert (potential st ≤ n)%nat as Hle by lia. clear Hn.
  revert st Hle. induction n as [|n IH]; intros st Hle Hinv.
  - cbn [search_loop]. destruct (frontier st) eqn:Hfr; [eauto|].
    unfold potential in Hle. rewrite Hfr in Hle. cbn [length] in Hle. lia.
  - cbn [search_loop]. destruct (frontier st); [eauto|].
    destruct (loop_body problem heuristic_func st) as [[r|st']|err] eqn:Hbody;
      [eauto| |eauto].
    destruct (search_inv_step _ _ Hinv Hbody) as [Hinv' Hpot].
    apply IH; [lia|done].
Qed.

(** What a returned result says about the run. *)
Lemma search_loop_result fuel st goal_node ne mq :
  search_inv initial st →
  search_loop problem heuristic_func fuel st = Some (Ok (goal_node, ne, mq)) →
  (∃ X : gset PuzzleState,
     (∀ s, s ∈ X → reachable initial s) ∧ ne = Z.of_nat (size X))
  ∧ match goal_node with
    | Some node =>
        Problem.goal_test problem (Node.state node) = true
        ∧ reachable initial (Node.state node)
    | None => True
    end.
Proof.
  revert st. induction fuel as [|fuel IH]; intros st Hinv Hrun; [done|].
  cbn [search_loop] in Hrun. destruct (frontier st) eqn:Hfr.
  { injection Hrun as <- <- <-. destruct Hinv as (_ & Hex & Hne). eauto. }
  destruct (loop_body problem heuristic_func st) as [[r|st']|err] eqn:Hbody;
    [|by eapply IH; [eapply search_inv_step|]|done].
  injection Hrun as ->.
  apply loop_body_return in Hbody as (popped & rest & Hpop & Hgoal & [= -> -> ->]).
  destruct Hinv as (Hreach & Hex & Hne). split; [eauto|]. split; [done|].
  apply Hreach. apply heappop_perm in Hpop. rewrite Hpop. by left.
Qed.

(** ** Searching an instance that has no solution *)

Lemma goal_test_reachable s :
  Problem.is_solvable initial = false → reachable initial s →
  Problem.goal_test problem s = false.
Proof.
  intros Hodd Hs. destruct (reachable_valid _ _ Hvalid Hs) as [_ Hpar].
  apply bool_decide_eq_false. intros ->.
  change (Problem.goal_state problem) with goal in Hpar.
  change (Problem.is_solvable goal) with true in Hpar. congruence.
Qed.

Lemma expand_all_returns node explored ops frontier counter :
  (∀ op, op ∈ ops →
     ∃ child, Problem.result (Node.state node) op = Ok child ∧ valid_state child) →
  (∀ s, valid_state s → ∃ v, heuristic_func s = Ok v) →
  ∃ frontier' counter',
    for_each ops (expand_operator heuristic_func node explored) (frontier, counter)
    = Ok (frontier', counter').
Proof.
  intros Hops Hh. revert frontier counter.
  induction ops as [|op ops IH]; intros frontier counter; [by eexists _, _|].
  cbn [for_each].
  destruct (Hops op ltac:(by left)) as (child & Hres & Hv).
  destruct (Hh child Hv) as [v Hhv].
  assert (∃ fr1 c1, expand_operator heuristic_func node explored op
                      (frontier, counter) = Ok (fr1, c1)) as (fr1 & c1 & ->).
  { unfold expand_operator. rewrite Hres. cbn [mbind exn_bind].
    case_bool_decide; [by eexists _, _|]. rewrite Hhv. by eexists _, _. }
  cbn [mbind exn_bind]. apply IH. intros op' Hop'. apply Hops. by right.
Qed.

Lemma search_loop_unsolvable fuel st r :
  Problem.is_solvable initial = false →
  (∀ s, valid_state s → ∃ v, heuristic_func s = Ok v) →
  search_inv initial st →
  search_loop problem heuristic_func fuel st = Some r →
  ∃ ne mq, r = Ok (None, ne, mq).
Proof.
  intros Hodd Hh. revert st.
  induction fuel as [|fuel IH]; intros st Hinv Hrun; [done|].
  cbn [search_loop] in Hrun. destruct (frontier st) as [|e0 fr0] eqn:Hfr.
  { injection Hrun as <-. by eexists _, _. }
  destruct (heappop_nonempty entry_lt (frontier st)) as (popped & rest & Hpop);
    [by rewrite Hfr|].
  assert (reachable initial (Node.state (entry_node popped))) as Hreach.
  { destruct Hinv as (Hf & _). apply Hf.
    rewrite (heappop_perm _ _ _ _ Hpop). by left. }
  destruct (reachable_valid _ _ Hvalid Hreach) as [Hv _].
  assert (∃ st', loop_body problem heuristic_func st = Ok (inr st')) as [st' Hbody].
  { unfold loop_body. rewrite Hpop. cbn [mbind exn_bind].
    rewrite (goal_test_reachable _ Hodd Hreach). unfold state_tuple.
    case_bool_decide; [by eexists|].
    destruct (legal_moves _ Hv) as (ops & -> & _ & Hmoves).
    cbn [mbind exn_bind].
    destruct (expand_all_returns (entry_node popped)
                ({[Node.state (entry_node popped)]} ∪ explored st) ops rest
                (counter st)) as (fr' & c' & ->); [|done|by eexists].
    intros op Hop. destruct (Hmoves op Hop) as (child & ? & ? & _). eauto. }
  rewrite Hbody in Hrun. eapply IH; [|exact Hrun].
  by eapply search_inv_step.
Qed.

End search_loop.

(** ** graph_search *)

Lemma graph_search_mono {H : Type} `{PyNumber H} (initial : PuzzleState)
    (heuristic_func : PuzzleState → exn H) fuel fuel' r :
  graph_search (Problem.init initial) heuristic_func fuel = Some r →
  (fuel ≤ fuel')%nat →
  graph_search (Problem.init initial) heuristic_func fuel' = Some r.
Proof.
  unfold graph_search. destruct (heuristic_func _); [|done].
  apply search_loop_mono.
Qed.

(** ** heapq: the heap order *)

Section heap_order_props.
Context {E : Type} (lt : E → E → bool) (P : E → Prop).
Hypothesis lt_asym : ∀ x y, P x → P y → lt x y = true → lt y x = false.
Hypothesis le_trans : ∀ x y z, P x → P y → P z →
  lt y x = false → lt z y = false → lt z x = false.

Lemma lt_irrefl x : P x → lt x x = false.
Proof. intros Hx. destruct (lt x x) eqn:Hlt; [|done]. by rewrite lt_asym in Hlt. Qed.

(** [_siftdown] from a hole that fits: the result is a heap. *)
Lemma siftdown_loop_ordered fuel (heap : list E) pos newitem :
  hole_ok lt heap pos → fits_above lt heap pos newitem →
  all_but P heap pos → P newitem → (pos ≤ fuel)%nat →
  heap_ordered lt (heapq.siftdown_loop lt fuel heap 0 pos newitem).
Proof.
  revert heap pos. induction fuel as [|fuel IH];
    intros heap pos (Hpos & Hedges & Hgrand) Hfits HP Hnew Hfuel.
  - assert (pos = 0)%nat as -> by lia. cbn [heapq.siftdown_loop].
    intros j x y Hj Hy Hx. pose proof (div2_pred_spec j Hj).
    rewrite list_lookup_insert_ne in Hy by lia.
    destruct (decide (Nat.div2 (j - 1) = 0%nat)) as [Hp|Hp].
    + rewrite Hp, list_lookup_insert_eq in Hx by done. injection Hx as <-.
      apply (Hfits j); first [done|lia].
    + rewrite list_lookup_insert_ne in Hx by lia. apply (Hedges j); first [done|lia].
  - cbn [heapq.siftdown_loop].
    destruct (Nat.ltb_spec 0 pos) as [Hlt|Hzero].
    + pose proof (div2_pred_spec pos Hlt) as Hpp.
      set (pp := Nat.div2 (pos - 1)) in *.
      destruct (lookup_lt_is_Some_2 heap pp ltac:(lia)) as [parent Hparent].
      rewrite (at_pos_lookup _ _ _ _ Hparent).
      assert (P parent) as HPp by (apply (HP pp); [lia|done]).
      destruct (lt newitem parent) eqn:Hcmp.
      * apply IH; [| | |done|lia].
        -- split_and!; [rewrite length_insert; lia| |].
           ++ intros j x y Hj Hjpp Hpj Hy Hx.
              pose proof (div2_pred_spec j Hj).
              assert (j ≠ pos) by (intros ->; by apply Hpj).
              rewrite list_lookup_insert_ne in Hy by lia.
              destruct (decide (Nat.div2 (j - 1) = pos)) as [Hjp|Hjp].
              ** rewrite Hjp, list_lookup_insert_eq in Hx by done.
                 injection Hx as <-. apply (Hgrand j); first [done|lia].
              ** rewrite list_lookup_insert_ne in Hx by lia. apply (Hedges j); first [done|lia].
           ++ intros c x y Hpp0 Hc Hcp Hy Hx.
              pose proof (div2_pred_spec pp Hpp0).
              rewrite list_lookup_insert_ne in Hx by lia.
              assert (lt parent x = false) as Hxp.
              { apply (Hedges pp); [done|lia|lia|done|done]. }
              destruct (decide (c = pos)) as [->|Hcpos].
              ** rewrite list_lookup_insert_eq in Hy by done. by injection Hy as <-.
              ** rewrite list_lookup_insert_ne in Hy by lia.
                 apply (le_trans x parent y); [| | |done|].
                 --- apply (HP (Nat.div2 (pp - 1))); [lia|done].
                 --- done.
                 --- by apply (HP c).
                 --- apply (Hedges c); [done|done|lia|done|by rewrite Hcp].
        -- intros c y Hc Hcp Hy.
           destruct (decide (c = pos)) as [->|Hcpos].
           ++ rewrite list_lookup_insert_eq in Hy by done. injection Hy as <-.
              by apply lt_asym.
           ++ rewrite list_lookup_insert_ne in Hy by lia.
              apply (le_trans newitem parent y); [done|done|by apply (HP c)| |].
              ** by apply lt_asym.
              ** apply (Hedges c); [done|done|lia|done|by rewrite Hcp].
        -- intros j y Hj Hy.
           destruct (decide (j = pos)) as [->|Hjpos].
           ++ rewrite list_lookup_insert_eq in Hy by done. by injection Hy as <-.
           ++ rewrite list_lookup_insert_ne in Hy by lia. by apply (HP j).
      * intros j x y Hj Hy Hx. pose proof (div2_pred_spec j Hj).
        destruct (decide (j = pos)) as [->|Hjpos].
        -- rewrite list_lookup_insert_eq in Hy by done. injection Hy as <-.
           rewrite list_lookup_insert_ne in Hx by lia.
           fold pp in Hx. rewrite Hparent in Hx. by injection Hx as <-.
        -- rewrite list_lookup_insert_ne in Hy by lia.
           destruct (decide (Nat.div2 (j - 1) = pos)) as [Hjp|Hjp].
           ++ rewrite Hjp, list_lookup_insert_eq in Hx by done.
              injection Hx as <-. apply (Hfits j); first [done|lia].
           ++ rewrite list_lookup_insert_ne in Hx by lia. apply (Hedges j); first [done|lia].
    + assert (pos = 0)%nat as -> by lia.
      intros j x y Hj Hy Hx. pose proof (div2_pred_spec j Hj).
      rewrite list_lookup_insert_ne in Hy by lia.
      destruct (decide (Nat.div2 (j - 1) = 0%nat)) as [Hp|Hp].
      * rewrite Hp, list_lookup_insert_eq in Hx by done. injection Hx as <-.
        apply (Hfits j); first [done|lia].
      * rewrite list_lookup_insert_ne in Hx by lia. apply (Hedges j); first [done|lia].
Qed.

(** The loop of [_siftup] takes the hole down to a leaf. *)
Lemma siftup_loop_hole fuel (heap : list E) pos newitem heap' pos' :
  hole_ok lt heap pos → all_but P heap pos →
  (length heap ≤ fuel + pos)%nat →
  heapq.siftup_loop lt fuel heap (length heap) pos newitem = (heap', pos') →
  hole_ok lt heap' pos' ∧ all_but P heap' pos'
  ∧ (length heap' ≤ 2 * pos' + 1)%nat.
Proof.
  revert heap pos. induction fuel as [|fuel IH];
    intros heap pos (Hpos & Hedges & Hgrand) HP Hfuel Hrun; [lia|].
  cbn [heapq.siftup_loop] in Hrun.
  destruct (Nat.ltb_spec (2 * pos + 1) (length heap)) as [Hchild|Hleaf];
    [|injection Hrun as <- <-; by split_and!].
  destruct (lookup_lt_is_Some_2 heap (2 * pos + 1) Hchild) as [left Hleft].
  rewrite (at_pos_lookup _ _ _ _ Hleft) in Hrun.
  assert (Nat.div2 (2 * pos + 1 - 1) = pos) as Hpl.
  { replace (2 * pos + 1 - 1)%nat with (2 * pos)%nat by lia. apply Nat.div2_double. }
  assert (Nat.div2 (2 * pos + 1 + 1 - 1) = pos) as Hpr.
  { replace (2 * pos + 1 + 1 - 1)%nat with (S (2 * pos)) by lia.
    apply Nat.div2_succ_double. }
  assert (P left) as HPl by (apply (HP (2 * pos + 1)%nat); [lia|done]).
  (* the child that moves up, and what is known of the other child *)
  set (childpos := if _ && _ then _ else _) in Hrun.
  assert (∃ v, heap !! childpos = Some v ∧ P v
               ∧ (childpos = 2 * pos + 1 ∨ childpos = 2 * pos + 1 + 1)%nat
               ∧ ∀ c y, (0 < c)%nat → Nat.div2 (c - 1) = pos → c ≠ childpos →
                   heap !! c = Some y → lt y v = false)
    as (v & Hv & HPv & Hwhich & Hother).
  { unfold childpos.
    destruct (Nat.ltb_spec (2 * pos + 1 + 1) (length heap)) as [Hr|Hr]; simpl.
    - destruct (lookup_lt_is_Some_2 heap (2 * pos + 1 + 1) Hr) as [right Hright].
      rewrite (at_pos_lookup _ _ _ _ Hright).
      assert (P right) as HPr by (apply (HP (2 * pos + 1 + 1)%nat); [lia|done]).
      destruct (lt left right) eqn:Hcmp; simpl.
      + exists left. split_and!; [done|done|lia|].
        intros c y Hc Hcp Hne Hy. pose proof (div2_pred_spec c Hc).
        assert (c = 2 * pos + 1 + 1)%nat as -> by lia.
        rewrite Hright in Hy. injection Hy as <-. by apply lt_asym.
      + exists right. split_and!; [done|done|lia|].
        intros c y Hc Hcp Hne Hy. pose proof (div2_pred_spec c Hc).
        assert (c = 2 * pos + 1)%nat as -> by lia.
        rewrite Hleft in Hy. by injection Hy as <-.
    - exists left. split_and!; [done|done|lia|].
      intros c y Hc Hcp Hne Hy. pose proof (div2_pred_spec c Hc).
      apply lookup_lt_Some in Hy. lia. }
  clearbody childpos. rewrite (at_pos_lookup _ _ _ _ Hv) in Hrun.
  assert (Nat.div2 (childpos - 1) = pos) as Hpc by (by destruct Hwhich as [-> | ->]).
  pose proof (lookup_lt_Some _ _ _ Hv) as Hclen.
  rewrite <- (length_insert heap pos v) in Hrun.
  eapply IH; [| | |exact Hrun];
    [| |rewrite length_insert; clear -Hfuel Hwhich; lia].
  - split_and!; [rewrite length_insert; lia| |].
    + intros j x y Hj Hjc Hpj Hy Hx. pose proof (div2_pred_spec j Hj).
      destruct (decide (j = pos)) as [->|Hjpos].
      * rewrite list_lookup_insert_eq in Hy by done. injection Hy as <-.
        rewrite list_lookup_insert_ne in Hx by lia.
        apply (Hgrand childpos); first [done|lia].
      * rewrite list_lookup_insert_ne in Hy by lia.
        destruct (decide (Nat.div2 (j - 1) = pos)) as [Hjp|Hjp].
        -- rewrite Hjp, list_lookup_insert_eq in Hx by done. injection Hx as <-.
           by apply (Hother j).
        -- rewrite list_lookup_insert_ne in Hx by lia.
           apply (Hedges j); first [done|lia].
    + intros c x y _ Hc Hcp Hy Hx. pose proof (div2_pred_spec c Hc).
      rewrite Hpc, list_lookup_insert_eq in Hx by done. injection Hx as <-.
      rewrite list_lookup_insert_ne in Hy by lia.
      apply (Hedges c); [done|lia|lia|done|by rewrite Hcp].
  - intros j y Hj Hy. destruct (decide (j = pos)) as [->|Hjpos].
    + rewrite list_lookup_insert_eq in Hy by done. by injection Hy as <-.
    + rewrite list_lookup_insert_ne in Hy by lia. by apply (HP j).
Qed.

Lemma hole_ok_insert (heap : list E) pos x :
  hole_ok lt heap pos → hole_ok lt (<[pos := x]> heap) pos.
Proof.
  intros (Hpos & Hedges & Hgrand). split_and!; [by rewrite length_insert| |].
  - intros j a b Hj Hjp Hpj Hb Ha.
    rewrite list_lookup_insert_ne in Hb, Ha by done. by apply (Hedges j).
  - intros c a b Hp Hc Hcp Hb Ha. pose proof (div2_pred_spec c Hc).
    pose proof (div2_pred_spec pos Hp).
    rewrite list_lookup_insert_ne in Hb, Ha by lia. by apply (Hgrand c).
Qed.

Lemma all_but_insert (heap : list E) pos x :
  all_but P heap pos → all_but P (<[pos := x]> heap) pos.
Proof.
  intros HP j y Hj Hy. rewrite list_lookup_insert_ne in Hy by done. by apply (HP j).
Qed.

Lemma siftdown_ordered (heap : list E) pos newitem :
  heap !! pos = Some newitem →
  hole_ok lt heap pos → fits_above lt heap pos newitem →
  all_but P heap pos → P newitem →
  heap_ordered lt (heapq._siftdown lt heap 0 pos).
Proof.
  intros Hnew **. unfold heapq._siftdown. rewrite Hnew.
  by apply siftdown_loop_ordered.
Qed.

Lemma heappush_ordered (heap : list E) item :
  heap_ordered lt heap → Forall P heap → P item →
  heap_ordered lt (heapq.heappush lt heap item).
Proof.
  intros Hord HP Hitem. unfold heapq.heappush.
  rewrite length_app, Nat.add_sub. cbn [length].
  apply (siftdown_ordered _ _ item).
  - by apply list_lookup_middle.
  - split_and!; [rewrite length_app; simpl; lia| |].
    + intros j x y Hj Hjp Hpj Hy Hx. pose proof (div2_pred_spec j Hj).
      pose proof (lookup_lt_Some _ _ _ Hy) as Hlen.
      rewrite length_app in Hlen. simpl in Hlen.
      rewrite lookup_app_l in Hy, Hx by lia. by apply (Hord j).
    + intros c x y Hp Hc Hcp Hy _. pose proof (div2_pred_spec c Hc).
      apply lookup_lt_Some in Hy. rewrite length_app in Hy. simpl in Hy. lia.
  - intros c y Hc Hcp Hy. pose proof (div2_pred_spec c Hc).
    apply lookup_lt_Some in Hy. rewrite length_app in Hy. simpl in Hy. lia.
  - intros j y Hj Hy. pose proof (lookup_lt_Some _ _ _ Hy) as Hlen.
    rewrite length_app in Hlen. simpl in Hlen.
    rewrite lookup_app_l in Hy by lia.
    rewrite Forall_forall in HP. apply HP. by eapply list_elem_of_lookup_2.
  - done.
Qed.

Lemma siftup_ordered (heap : list E) newitem :
  heap !! 0%nat = Some newitem →
  hole_ok lt heap 0 → all_but P heap 0 → P newitem →
  heap_ordered lt (heapq._siftup lt heap 0).
Proof.
  intros Hnew Hhole HP HPnew. unfold heapq._siftup. rewrite Hnew.
  destruct (heapq.siftup_loop _ _ _ _ _ _) as [heap' pos'] eqn:Hloop.
  apply siftup_loop_hole in Hloop as (Hhole' & HP' & Hleaf); [|done|done|lia].
  pose proof Hhole' as (Hpos' & _).
  apply (siftdown_ordered _ _ newitem).
  - by apply list_lookup_insert_eq.
  - by apply hole_ok_insert.
  - intros c y Hc Hcp Hy. pose proof (div2_pred_spec c Hc).
    apply lookup_lt_Some in Hy. rewrite length_insert in Hy. lia.
  - by apply all_but_insert.
  - done.
Qed.

(** The item at the root is not above any other. *)
Lemma heap_root_min (heap : list E) x :
  heap_ordered lt heap → Forall P heap → heap !! 0%nat = Some x →
  ∀ j y, heap !! j = Some y → lt y x = false.
Proof.
  intros Hord HP Hroot j. rewrite Forall_forall in HP.
  assert (P x) as HPx by (by eapply HP, list_elem_of_lookup_2).
  induction (lt_wf j) as [j _ IH]. intros y Hy.
  destruct (decide (j = 0%nat)) as [->|Hj].
  - rewrite Hroot in Hy. injection Hy as <-. by apply lt_irrefl.
  - pose proof (div2_pred_spec j ltac:(lia)) as Hp.
    destruct (lookup_lt_is_Some_2 heap (Nat.div2 (j - 1))) as [z Hz].
    { apply lookup_lt_Some in Hy. lia. }
    apply (le_trans x z y); [done| | | |].
    + by eapply HP, list_elem_of_lookup_2.
    + by eapply HP, list_elem_of_lookup_2.
    + apply (IH (Nat.div2 (j - 1))); [lia|done].
    + apply (Hord j); [lia|done|done].
Qed.

(** [heappop] returns the root and leaves a heap. *)
Lemma heappop_ordered (heap : list E) item heap' :
  heap_ordered lt heap → Forall P heap →
  heapq.heappop lt heap = Ok (item, heap') →
  heap !! 0%nat = Some item ∧ heap_ordered lt heap'.
Proof.
  intros Hord HP. unfold heapq.heappop.
  destruct (last heap) as [lastelt|] eqn:Hlast; [|done].
  pose proof (last_removelast heap lastelt Hlast) as Hheap.
  destruct (removelast heap) as [|returnitem rest] eqn:Hrm; intros [= <- <-].
  - rewrite Hheap. split; [done|]. intros j x y Hj Hy. by destruct j.
  - split; [by rewrite Hheap|].
    assert (∀ j y, j ≠ 0%nat → (lastelt :: rest) !! j = Some y →
                   heap !! j = Some y) as Hsub.
    { intros [|j] y Hj Hy; [done|]. rewrite Hheap.
      by apply (lookup_app_l_Some (returnitem :: rest) [lastelt] (S j)). }
    rewrite Forall_forall in HP.
    change (<[0%nat:=lastelt]> (returnitem :: rest)) with (lastelt :: rest).
    apply (siftup_ordered _ lastelt).
    + done.
    + split_and!; [simpl; lia| |].
      * intros j x y Hj Hj0 Hp0 Hy Hx. apply (Hord j); auto.
      * intros c x y Hp. lia.
    + intros j y Hj Hy. eapply HP, list_elem_of_lookup_2. by apply Hsub.
    + apply HP. rewrite Hheap. apply elem_of_app. right. by left.
Qed.

Lemma heap_ordered_nil : heap_ordered lt [].
Proof. intros j x y _ Hy. by rewrite lookup_nil in Hy. Qed.

Lemma heap_ordered_singleton x : heap_ordered lt [x].
Proof.
  intros j a b Hj Hb. apply lookup_lt_Some in Hb. simpl in Hb. lia.
Qed.

End heap_order_props.

(** ** The order of the frontier entries *)

#[global] Instance int_number_laws : PyNumberLaws Z.
Proof.
  split; simpl; intros.
  - lia.
  - lia.
  - destruct (Z.eqb_spec a b), (Z.ltb_spec a b), (Z.ltb_spec b a); simpl; lia.
Qed.

Section entry_order.
Context {H : Type} `{PyNumberLaws H}.

Lemma entry_lt_unfold (a b : entry H) :
  entry_ok a → entry_ok b →
  entry_lt a b
  = if num_lt (entry_f a) (entry_f b) || num_lt (entry_f b) (entry_f a)
    then num_lt (entry_f a) (entry_f b)
    else if negb (entry_counter a =? entry_counter b)
         then entry_counter a <? entry_counter b
         else false.
Proof.
  destruct a as [[fa ca] na], b as [[fb cb] nb].
  unfold entry_ok, entry_f, entry_counter, entry_node. simpl.
  intros (Hfa & Hna & _) (Hfb & Hnb & _).
  rewrite (num_eq_le fa fb Hna Hnb). unfold Node.lt. rewrite <- Hfa, <- Hfb.
  by destruct (num_lt fa fb) eqn:Hab, (num_lt fb fa) eqn:Hba.
Qed.

Ltac use_refl :=
  repeat match goal with
  | Hi : ?x = ?x → _ |- _ => specialize (Hi eq_refl)
  end.

Lemma entry_lt_asym (a b : entry H) :
  entry_ok a → entry_ok b → entry_lt a b = true → entry_lt b a = false.
Proof.
  intros Ha Hb. rewrite !entry_lt_unfold by done.
  destruct Ha as (_ & Hna & _), Hb as (_ & Hnb & _).
  pose proof (num_lt_asym _ _ Hna Hnb). pose proof (num_lt_asym _ _ Hnb Hna).
  destruct (num_lt (entry_f a) (entry_f b)), (num_lt (entry_f b) (entry_f a));
    simpl; use_refl; try done.
  destruct (Z.eqb_spec (entry_counter a) (entry_counter b)),
    (Z.eqb_spec (entry_counter b) (entry_counter a)); simpl; try done; lia.
Qed.

Lemma entry_le_trans (a b c : entry H) :
  entry_ok a → entry_ok b → entry_ok c →
  entry_lt b a = false → entry_lt c b = false → entry_lt c a = false.
Proof.
  intros Ha Hb Hc. rewrite !entry_lt_unfold by done.
  destruct Ha as (_ & Hna & _), Hb as (_ & Hnb & _), Hc as (_ & Hnc & _).
  pose proof (num_lt_asym _ _ Hna Hnb). pose proof (num_lt_asym _ _ Hnb Hna).
  pose proof (num_lt_asym _ _ Hnb Hnc). pose proof (num_lt_asym _ _ Hnc Hnb).
  pose proof (num_lt_asym _ _ Hna Hnc). pose proof (num_lt_asym _ _ Hnc Hna).
  pose proof (num_le_trans _ _ _ Hna Hnb Hnc).
  pose proof (num_le_trans _ _ _ Hna Hnc Hnb).
  pose proof (num_le_trans _ _ _ Hnb Hna Hnc).
  pose proof (num_le_trans _ _ _ Hnb Hnc Hna).
  pose proof (num_le_trans _ _ _ Hnc Hna Hnb).
  pose proof (num_le_trans _ _ _ Hnc Hnb Hna).
  destruct (num_lt (entry_f a) (entry_f b)), (num_lt (entry_f b) (entry_f a)),
    (num_lt (entry_f b) (entry_f c)), (num_lt (entry_f c) (entry_f b)),
    (num_lt (entry_f a) (entry_f c)), (num_lt (entry_f c) (entry_f a));
    simpl; use_refl; try done;
    destruct (Z.eqb_spec (entry_counter b) (entry_counter a)),
      (Z.eqb_spec (entry_counter c) (entry_counter b)),
      (Z.eqb_spec (entry_counter c) (entry_counter a)); simpl; try done; lia.
Qed.

End entry_order.

(** ** The frontier of a run is a heap with distinct counters *)

Section frontier.
Context {H : Type} `{PyNumberLaws H}.
Variable initial : PuzzleState.
Variable heuristic_func : PuzzleState → exn H.
Hypothesis Hnum : ∀ d s v,
  0 ≤ d → heuristic_func s = Ok v → is_number (int_add d v) = true.

Let problem := Problem.init initial.

Lemma frontier_ok_push frontier counter f node :
  frontier_ok frontier counter → entry_ok (f, counter, node) →
  frontier_ok (heapq.heappush entry_lt frontier (f, counter, node)) (counter + 1).
Proof.
  intros (Hord & Hok & Hlt & Hnd) He. split_and!.
  - by apply (heappush_ordered entry_lt entry_ok entry_lt_asym entry_le_trans).
  - rewrite heappush_perm. by apply Forall_cons.
  - rewrite heappush_perm. apply Forall_cons. split; [unfold entry_counter; simpl; lia|].
    eapply Forall_impl; [exact Hlt|]. simpl. intros; lia.
  - rewrite heappush_perm. rewrite fmap_cons. apply NoDup_cons. split; [|done].
    intros (e & Hc & He')%list_elem_of_fmap. rewrite Forall_forall in Hlt.
    specialize (Hlt e He'). unfold entry_counter in *. simpl in *. lia.
Qed.

Lemma frontier_ok_pop frontier counter popped rest :
  frontier_ok frontier counter →
  heapq.heappop entry_lt frontier = Ok (popped, rest) →
  frontier_ok rest counter ∧ entry_ok popped
  ∧ ∀ e, e ∈ rest →
      num_lt (entry_f popped) (entry_f e) = true
      ∨ (num_eq (entry_f popped) (entry_f e) = true
         ∧ entry_counter popped < entry_counter e).
Proof.
  intros (Hord & Hok & Hlt & Hnd) Hpop.
  pose proof (heappop_perm _ _ _ _ Hpop) as Hperm.
  destruct (heappop_ordered entry_lt entry_ok entry_lt_asym entry_le_trans
              _ _ _ Hord Hok Hpop) as [Hroot Hord'].
  rewrite Hperm in Hok, Hlt, Hnd.
  apply Forall_cons in Hok as [Hpopped Hok], Hlt as [_ Hlt].
  rewrite fmap_cons in Hnd. apply NoDup_cons in Hnd as [Hfresh Hnd].
  split_and!; [done..|].
  intros e He.
  assert (e ∈ frontier) as [j Hj]%list_elem_of_lookup by (rewrite Hperm; by right).
  assert (Forall entry_ok frontier) as Hall by (rewrite Hperm; by apply Forall_cons).
  pose proof (heap_root_min entry_lt entry_ok entry_lt_asym entry_le_trans
                _ _ Hord Hall Hroot j e Hj) as Hle.
  rewrite Forall_forall in Hok. pose proof (Hok e He) as Heok.
  rewrite entry_lt_unfold in Hle by done.
  destruct Hpopped as (_ & Hnp & _), Heok as (_ & Hne & _).
  rewrite (num_eq_le _ _ Hnp Hne).
  pose proof (num_lt_asym _ _ Hnp Hne) as Hasym.
  assert (entry_counter e ≠ entry_counter popped) as Hcne.
  { intros Heq. apply Hfresh. rewrite <- Heq. by apply list_elem_of_fmap_2. }
  destruct (num_lt (entry_f popped) (entry_f e)),
    (num_lt (entry_f e) (entry_f popped)); simpl in *; auto.
  right. split; [done|].
  destruct (Z.eqb_spec (entry_counter e) (entry_counter popped)); [done|].
  simpl in Hle. lia.
Qed.

Lemma frontier_ok_expand node explored ops frontier counter frontier' counter' :
  0 ≤ Node.depth node →
  frontier_ok frontier counter →
  for_each ops (expand_operator heuristic_func node explored) (frontier, counter)
  = Ok (frontier', counter') →
  frontier_ok frontier' counter'.
Proof.
  intros Hdepth. revert frontier counter.
  induction ops as [|op ops IH]; intros frontier counter Hok Hrun.
  - by injection Hrun as <- <-.
  - cbn [for_each] in Hrun.
    destruct (expand_operator _ _ _ op _) as [[fr1 c1]|] eqn:Hop; [|done].
    cbn [mbind exn_bind] in Hrun. apply (IH fr1 c1); [|done].
    apply expand_operator_spec in Hop
      as [[-> ->]|(child & h_cost & _ & _ & Hh & -> & ->)]; [done|].
    apply frontier_ok_push; [done|].
    split_and!; [done| |simpl; lia].
    apply Hnum with child; [simpl; lia|done].
Qed.

Lemma run_state_frontier_ok st :
  run_state problem heuristic_func st → frontier_ok (frontier st) (counter st).
Proof.
  induction 1 as [h_initial Hh|st st' _ IH Hbody].
  - split_and!.
    + apply heap_ordered_singleton.
    + apply Forall_singleton. split_and!; [done| |done].
      by apply Hnum with (Problem.initial_state problem).
    + by apply Forall_singleton.
    + apply NoDup_singleton.
  - apply loop_body_continue in Hbody
      as (popped & rest & Hpop & _ & [[_ ->]|(_ & ops & fr' & c' & _ & Hexp & ->)]).
    + by destruct (frontier_ok_pop _ _ _ _ IH Hpop) as [Hrest _].
    + destruct (frontier_ok_pop _ _ _ _ IH Hpop) as (Hrest & (_ & _ & Hd) & _).
      by apply (frontier_ok_expand _ _ _ _ _ _ _ Hd Hrest Hexp).
Qed.

End frontier.

(** ** Determinism and ties *)

(** C5. [graph_search] is deterministic: two runs on the same initial state
    with the same heuristic return the same result, whatever budget of
    iterations each is given, hence the same nodes_expanded, the same
    max_queue_size and the same solution path. When the values [depth + h]
    are numbers, at every iteration of a run the counters of the frontier
    entries lie below the next counter, so that an entry inserted later has
    the larger counter, and the popped entry has an [f] below that of every
    entry left in the frontier, or an equal [f] and a smaller counter: ties
    on [f] go to the entry inserted first. *)
Theorem graph_search_deterministic
    (H : Type) (HN : PyNumber H) (HL : PyNumberLaws H)
    (heuristic_func : PuzzleState → exn H) (initial : PuzzleState)
    (Hnum : ∀ d s v, 0 ≤ d → heuristic_func s = Ok v →
                     is_number (int_add d v) = true) :
  (∀ fuel1 fuel2 r1 r2,
     graph_search (Problem.init initial) heuristic_func fuel1 = Some r1 →
     graph_search (Problem.init initial) heuristic_func fuel2 = Some r2 →
     r1 = r2)
  ∧ (∀ fuel1 fuel2 node1 ne1 mq1 node2 ne2 mq2,
       graph_search (Problem.init initial) heuristic_func fuel1
       = Some (Ok (Some node1, ne1, mq1)) →
       graph_search (Problem.init initial) heuristic_func fuel2
       = Some (Ok (Some node2, ne2, mq2)) →
       ne1 = ne2 ∧ mq1 = mq2 ∧ solution_path node1 = solution_path node2)
  ∧ ∀ st popped rest,
      run_state (Problem.init initial) heuristic_func st →
      heapq.heappop entry_lt (frontier st) = Ok (popped, rest) →
      (∀ e, e ∈ frontier st → entry_counter e < counter st)
      ∧ ∀ e, e ∈ rest →
          num_lt (entry_f popped) (entry_f e) = true
          ∨ (num_eq (entry_f popped) (entry_f e) = true
             ∧ entry_counter popped < entry_counter e).
Proof.
  assert (∀ fuel1 fuel2 r1 r2,
     graph_search (Problem.init initial) heuristic_func fuel1 = Some r1 →
     graph_search (Problem.init initial) heuristic_func fuel2 = Some r2 →
     r1 = r2) as Hdet.
  { intros fuel1 fuel2 r1 r2 H1 H2.
    apply (graph_search_mono _ _ _ (fuel1 `max` fuel2)%nat) in H1; [|lia].
    apply (graph_search_mono _ _ _ (fuel1 `max` fuel2)%nat) in H2; [|lia].
    congruence. }
  split_and!; [exact Hdet| |].
  - intros fuel1 fuel2 node1 ne1 mq1 node2 ne2 mq2 H1 H2.
    by injection (Hdet _ _ _ _ H1 H2) as -> -> ->.
  - intros st popped rest Hst Hpop.
    pose proof (run_state_frontier_ok initial heuristic_func Hnum st Hst) as Hok.
    split.
    + destruct Hok as (_ & _ & Hlt & _). by rewrite Forall_forall in Hlt.
    + by destruct (frontier_ok_pop _ _ _ _ Hok Hpop) as (_ & _ & Hmin).
Qed.

Lemma graph_search_deterministic_witness :
  (∀ d s v, 0 ≤ d → Heuristic.manhattan_distance s = Ok v →
            is_number (int_add d v) = true)
  ∧ ∀ fuel1 fuel2 r1 r2,
      graph_search (Problem.init easy) Heuristic.manhattan_distance fuel1 = Some r1 →
      graph_search (Problem.init easy) Heuristic.manhattan_distance fuel2 = Some r2 →
      r1 = r2.
Proof.
  split; [reflexivity|].
  apply (graph_search_deterministic Z _ _ Heuristic.manhattan_distance easy).
  reflexivity.
Defined.

(** ** The search on the instances of the test suite *)

(** C10. When the initial state is the goal grid, [graph_search] returns at
    the first pop, whatever the heuristic returns for that grid: the root
    node (depth 0, no parent), with nodes_expanded = 0 and
    max_queue_size = 1; if the heuristic raises, so does the search. *)
Theorem graph_search_goal_is_initial
    (H : Type) (HN : PyNumber H) (heuristic_func : PuzzleState → exn H) (fuel : nat) :
  graph_search (Problem.init [[1; 2; 3]; [4; 5; 6]; [7; 8; 0]]) heuristic_func (S fuel)
  = Some (h_initial ← heuristic_func [[1; 2; 3]; [4; 5; 6]; [7; 8; 0]];
          Ok (Some (Node.mk [[1; 2; 3]; [4; 5; 6]; [7; 8; 0]] None None 0 0 h_initial),
              0, 1)).
Proof.
  unfold graph_search. cbn [Problem.initial_state Problem.init].
  by destruct (heuristic_func _).
Qed.

(** The run of [graph_search] under a budget that is enough, by computation. *)
Ltac run_search fuel0 :=
  intros fuel' Hfuel; apply (graph_search_mono _ _ fuel0); [|exact Hfuel];
  vm_compute; reflexivity.

(** C1, as the code has it. From [[1,2,3],[4,5,6],[7,0,8]] each of the four
    heuristics makes [graph_search] return a goal node at depth 1, reached
    by the move "right"; nodes_expanded is 1 with the misplaced-tile,
    Manhattan and Euclidean heuristics, and 3 with the zero heuristic, which
    expands the two siblings pushed before the goal. *)
Theorem graph_search_very_easy :
  ∃ fuel node_u node_t node_m node_e,
    (∀ fuel', (fuel ≤ fuel')%nat →
       graph_search (Problem.init very_easy) Heuristic.uniform_cost fuel'
       = Some (Ok (Some node_u, 3, 5)))
    ∧ (∀ fuel', (fuel ≤ fuel')%nat →
       graph_search (Problem.init very_easy) Heuristic.misplaced_tile fuel'
       = Some (Ok (Some node_t, 1, 3)))
    ∧ (∀ fuel', (fuel ≤ fuel')%nat →
       graph_search (Problem.init very_easy) Heuristic.manhattan_distance fuel'
       = Some (Ok (Some node_m, 1, 3)))
    ∧ (∀ fuel', (fuel ≤ fuel')%nat →
       graph_search (Problem.init very_easy) Heuristic.euclidean_distance fuel'
       = Some (Ok (Some node_e, 1, 3)))
    ∧ Node.state node_u = goal ∧ Node.depth node_u = 1
    ∧ Node.state node_t = goal ∧ Node.depth node_t = 1
    ∧ Node.state node_m = goal ∧ Node.depth node_m = 1
    ∧ Node.state node_e = goal ∧ Node.depth node_e = 1
    ∧ solution_path node_u = [(Some "right"%string, goal)]
    ∧ solution_path node_t = [(Some "right"%string, goal)]
    ∧ solution_path node_m = [(Some "right"%string, goal)]
    ∧ solution_path node_e = [(Some "right"%string, goal)].
Proof.
  exists 10%nat. eexists _, _, _, _.
  split; [run_search 10%nat|]. split; [run_search 10%nat|].
  split; [run_search 10%nat|]. split; [run_search 10%nat|].
  by vm_compute.
Qed.

(** C1 as stated fails: with the zero heuristic nodes_expanded is 3. *)
Lemma graph_search_very_easy_uniform_expands_3 :
  ¬ ∃ fuel node ne mq,
      graph_search (Problem.init [[1; 2; 3]; [4; 5; 6]; [7; 0; 8]])
                   Heuristic.uniform_cost fuel
      = Some (Ok (Some node, ne, mq))
      ∧ Node.depth node = 1 ∧ ne ≤ 2.
Proof.
  intros (fuel & node & ne & mq & Hrun & _ & Hne).
  apply (graph_search_mono _ _ _ (fuel + 10)) in Hrun; [|lia].
  assert (graph_search (Problem.init very_easy) Heuristic.uniform_cost 10
          = Some (Ok (Some (Node.mk goal (Some (Node.mk very_easy None None 0 0 0))
                                    (Some "right"%string) 1 1 0), 3, 5))) as H10
    by (by vm_compute).
  apply (graph_search_mono _ _ _ (fuel + 10)) in H10; [|lia].
  change (Problem.init [[1; 2; 3]; [4; 5; 6]; [7; 0; 8]])
    with (Problem.init very_easy) in Hrun.
  rewrite H10 in Hrun. injection Hrun as _ <- _. lia.
Qed.

(** ** The harder instance and the optimal solution length *)

Lemma easy_optimal_length : optimal_length easy 2.
Proof.
  split.
  - exists ["down"; "down"]%string. split; [done|]. by vm_compute.
  - intros moves Hsolves. unfold solves in Hsolves.
    destruct moves as [|m1 [|m2 moves]]; [by vm_compute in Hsolves| |simpl; lia].
    exfalso. cbn [apply_moves] in Hsolves.
    change (Problem.operators easy) with
      (Ok ["down"; "left"]%string : exn (list string)) in Hsolves.
    destruct (Problem.result easy m1) as [s'|] eqn:Hres; [|done].
    case_bool_decide as Hm; [|done].
    apply elem_of_cons in Hm as [->|Hm];
      [|apply elem_of_cons in Hm as [->|Hm]; [|by apply elem_of_nil in Hm]];
      vm_compute in Hres; injection Hres as <-; by vm_compute in Hsolves.
Qed.

(** C2. From [[1,2,0],[4,5,3],[7,8,6]], [graph_search] with the Manhattan
    distance returns a goal node of depth 2, and so does uniform-cost
    search; 2 is the length of a shortest solution, and the depth at which
    exhaustive breadth-first search first meets the goal. *)
Theorem graph_search_easy_optimal :
  ∃ fuel node_m node_u ne_m mq_m ne_u mq_u,
    (∀ fuel', (fuel ≤ fuel')%nat →
       graph_search (Problem.init [[1; 2; 0]; [4; 5; 3]; [7; 8; 6]])
                    Heuristic.manhattan_distance fuel'
       = Some (Ok (Some node_m, ne_m, mq_m)))
    ∧ (∀ fuel', (fuel ≤ fuel')%nat →
       uniform_cost_search (Problem.init [[1; 2; 0]; [4; 5; 3]; [7; 8; 6]]) fuel'
       = Some (Ok (Some node_u, ne_u, mq_u)))
    ∧ Problem.goal_test (Problem.init easy) (Node.state node_m) = true
    ∧ Problem.goal_test (Problem.init easy) (Node.state node_u) = true
    ∧ Node.depth node_m = 2 ∧ Node.depth node_u = 2
    ∧ optimal_length [[1; 2; 0]; [4; 5; 3]; [7; 8; 6]] 2
    ∧ bfs_depth 3 [[[1; 2; 0]; [4; 5; 3]; [7; 8; 6]]] 0 = Some 2.
Proof.
  exists 10%nat. eexists _, _, _, _, _, _.
  split; [run_search 10%nat|].
  split; [unfold uniform_cost_search; run_search 10%nat|].
  split_and!; try (by vm_compute). exact easy_optimal_length.
Qed.

(** ** Termination *)

(** C3. From every valid initial state, solvable or not, and with every
    heuristic, [graph_search] ends within 1,814,402 iterations of its loop
    (a larger budget changes nothing). When the frontier is empty the loop
    returns [(None, nodes_expanded, max_queue_size)]; a returned node is one
    that passed the goal test; and when the initial state has an odd
    inversion count no goal state is ever popped, so that with a heuristic
    that returns a value on every valid state the result is
    [(None, nodes_expanded, max_queue_size)]. *)
Theorem graph_search_terminates
    (H : Type) (HN : PyNumber H) (heuristic_func : PuzzleState → exn H)
    (initial : PuzzleState) (Hvalid : valid_state initial) :
  ∃ fuel r,
    Z.of_nat fuel ≤ 1814402
    ∧ (∀ fuel', (fuel ≤ fuel')%nat →
         graph_search (Problem.init initial) heuristic_func fuel' = Some r)
    ∧ (∀ node ne mq, r = Ok (Some node, ne, mq) →
         Problem.goal_test (Problem.init initial) (Node.state node) = true)
    ∧ (Problem.is_solvable initial = false →
       (∀ s, valid_state s → ∃ v, heuristic_func s = Ok v) →
       ∃ ne mq, r = Ok (None, ne, mq))
    ∧ ∀ st k, frontier st = [] →
        search_loop (Problem.init initial) heuristic_func (S k) st
        = Some (Ok (None, nodes_expanded st, max_queue_size st)).
Proof.
  destruct (heuristic_func initial) as [h_initial|err] eqn:Hh.
  - pose proof (search_inv_initial initial (H:=H) h_initial) as Hinv.
    destruct (search_loop_terminates initial heuristic_func Hvalid _ Hinv)
      as [r Hr].
    exists (S (potential (initial_search_state (Problem.init initial) h_initial))), r.
    assert (∀ fuel', (S (potential (initial_search_state (Problem.init initial)
                                      h_initial)) ≤ fuel')%nat →
              graph_search (Problem.init initial) heuristic_func fuel' = Some r)
      as Hrun.
    { intros fuel' Hle. unfold graph_search.
      cbn [Problem.initial_state Problem.init]. rewrite Hh.
      by apply (search_loop_mono initial heuristic_func _ fuel') in Hr. }
    split_and!.
    + unfold potential. cbn [frontier explored initial_search_state].
      rewrite size_empty. pose proof all_states_count.
      cbn [length]. lia.
    + exact Hrun.
    + intros node ne mq ->.
      by destruct (search_loop_result initial heuristic_func Hvalid _ _ _ _ _
                     Hinv Hr) as (_ & Hgoal & _).
    + intros Hodd Htotal.
      by apply (search_loop_unsolvable initial heuristic_func Hvalid _ _ r
                  Hodd Htotal Hinv Hr).
    + intros st k Hfr. cbn [search_loop]. by rewrite Hfr.
  - exists 0%nat, (Raise err).
    split_and!; [lia| | | |].
    + intros fuel' _. unfold graph_search.
      cbn [Problem.initial_state Problem.init]. by rewrite Hh.
    + done.
    + intros _ Htotal. destruct (Htotal initial Hvalid) as [v Hv]. congruence.
    + intros st k Hfr. cbn [search_loop]. by rewrite Hfr.
Qed.

Lemma graph_search_terminates_witness :
  valid_state impossible
  ∧ ∃ fuel r,
      Z.of_nat fuel ≤ 1814402
      ∧ (∀ fuel', (fuel ≤ fuel')%nat →
           graph_search (Problem.init impossible) Heuristic.manhattan_distance fuel'
           = Some r)
      ∧ (Problem.is_solvable impossible = false →
         (∀ s, valid_state s → ∃ v, Heuristic.manhattan_distance s = Ok v) →
         ∃ ne mq, r = Ok (None, ne, mq)).
Proof.
  split; [exact valid_impossible|].
  destruct (graph_search_terminates Z _ Heuristic.manhattan_distance impossible
              valid_impossible) as (fuel & r & Hfuel & Hrun & _ & Hnone & _).
  by exists fuel, r.
Defined.

(** ** Deduplication *)

(** C6. In a run of [graph_search] from a valid initial state, a popped
    state that is already in the explored set is discarded with
    nodes_expanded unchanged; the returned nodes_expanded is the number of
    elements of a duplicate-free list of states that are reachable from the
    initial state, hence at most the length of any list that holds every
    reachable state; and a duplicate-free list of reachable states has at
    most 181,440 elements, so that nodes_expanded is at most 181,440. *)
Theorem nodes_expanded_bounded
    (H : Type) (HN : PyNumber H) (heuristic_func : PuzzleState → exn H)
    (initial : PuzzleState) (fuel : nat)
    (goal_node : option (Node.t H)) (ne mq : Z)
    (Hvalid : valid_state initial)
    (Hrun : graph_search (Problem.init initial) heuristic_func fuel
            = Some (Ok (goal_node, ne, mq))) :
  (∃ expanded : list PuzzleState,
     NoDup expanded
     ∧ ne = Z.of_nat (length expanded)
     ∧ (∀ s, s ∈ expanded → reachable initial s)
     ∧ ∀ all_reachable : list PuzzleState,
         (∀ s, reachable initial s → s ∈ all_reachable) →
         ne ≤ Z.of_nat (length all_reachable))
  ∧ (∀ l, NoDup l → (∀ s, s ∈ l → reachable initial s) →
       Z.of_nat (length l) ≤ 181440)
  ∧ ne ≤ 181440
  ∧ ∀ st st' popped rest,
      heapq.heappop entry_lt (frontier st) = Ok (popped, rest) →
      Node.state (entry_node popped) ∈ explored st →
      loop_body (Problem.init initial) heuristic_func st = Ok (inr st') →
      nodes_expanded st' = nodes_expanded st ∧ explored st' = explored st.
Proof.
  unfold graph_search in Hrun. cbn [Problem.initial_state Problem.init] in Hrun.
  destruct (heuristic_func initial) as [h_initial|] eqn:Hh; [|done].
  destruct (search_loop_result initial heuristic_func Hvalid _ _ _ _ _
              (search_inv_initial initial h_initial) Hrun)
    as ((X & HX & ->) & _).
  assert (NoDup (elements X)) as Hnd by apply NoDup_elements.
  assert (∀ s, s ∈ elements X → reachable initial s) as Hel.
  { intros s Hs%elem_of_elements. auto. }
  split_and!.
  - exists (elements X). split_and!; [done|done|done|].
    intros all_reachable Hall. apply Nat2Z.inj_le.
    apply (size_reachable_le initial); auto.
  - intros l. by apply reachable_count.
  - by apply (reachable_count initial (elements X)).
  - intros st st' popped rest Hpop Hin
      (popped' & rest' & Hpop' & _ & Hcase)%loop_body_continue.
    rewrite Hpop in Hpop'. injection Hpop' as <- <-.
    destruct Hcase as [[_ ->]|[Hnotin _]]; [done|]. by destruct Hnotin.
Qed.

Lemma nodes_expanded_bounded_witness :
  valid_state very_easy
  ∧ graph_search (Problem.init very_easy) Heuristic.uniform_cost 10
    = Some (Ok (Some (Node.mk goal (Some (Node.mk very_easy None None 0 0 0))
                              (Some "right"%string) 1 1 0), 3, 5))
  ∧ 3 ≤ 181440.
Proof.
  assert (graph_search (Problem.init very_easy) Heuristic.uniform_cost 10
          = Some (Ok (Some (Node.mk goal (Some (Node.mk very_easy None None 0 0 0))
                                    (Some "right"%string) 1 1 0), 3, 5))) as Hrun
    by (by vm_compute).
  split; [exact valid_very_easy|]. split; [exact Hrun|].
  apply (nodes_expanded_bounded Z _ Heuristic.uniform_cost very_easy 10 _ 3 5
           valid_very_easy Hrun).
Defined.

(** ** The heuristics on a grid written out *)

Lemma for_each_sum {A : Type} (xs : list A) (body : A → Z → exn Z)
    (term : A → Z) (acc : Z) :
  Forall (fun x => ∀ acc, body x acc = Ok (acc + term x)) xs →
  for_each xs body acc = Ok (acc + foldr (fun x n => term x + n) 0 xs).
Proof.
  revert acc. induction xs as [|x xs IH]; intros acc Hxs.
  - simpl. f_equal. lia.
  - apply Forall_cons in Hxs as [Hx Hxs]. cbn [for_each foldr].
    rewrite Hx. cbn [mbind exn_bind]. rewrite IH by done. f_equal. lia.
Qed.

Lemma misplaced_tile_grid a b c d e f g h i :
  Heuristic.misplaced_tile [[a; b; c]; [d; e; f]; [g; h; i]]
  = Ok (tile_misplaced a 1 + tile_misplaced b 2 + tile_misplaced c 3
        + tile_misplaced d 4 + tile_misplaced e 5 + tile_misplaced f 6
        + tile_misplaced g 7 + tile_misplaced h 8 + tile_misplaced i 0).
Proof.
  unfold Heuristic.misplaced_tile.
  rewrite (for_each_sum _ _
    (fun '(i0, j0) =>
       match getitem2 [[a; b; c]; [d; e; f]; [g; h; i]] i0 j0,
             getitem2 Heuristic.goal i0 j0 with
       | Ok v, Ok gv => tile_misplaced v gv
       | _, _ => 0
       end)).
  - rewrite cells_eq. cbn [foldr]. read_cells. f_equal. lia.
  - rewrite cells_eq.
    repeat (apply Forall_cons; split;
            [intros acc; read_cells; cbn [mbind exn_bind]; unfold tile_misplaced;
             repeat case_match; simpl in *; first [done|f_equal; lia|congruence]|]).
    apply Forall_nil_2.
Qed.

Lemma manhattan_distance_grid a b c d e f g h i :
  Heuristic.manhattan_distance [[a; b; c]; [d; e; f]; [g; h; i]]
  = Ok (tile_distance a 0 0 + tile_distance b 0 1 + tile_distance c 0 2
        + tile_distance d 1 0 + tile_distance e 1 1 + tile_distance f 1 2
        + tile_distance g 2 0 + tile_distance h 2 1 + tile_distance i 2 2).
Proof.
  unfold Heuristic.manhattan_distance.
  rewrite (for_each_sum _ _
    (fun '(i0, j0) =>
       match getitem2 [[a; b; c]; [d; e; f]; [g; h; i]] i0 j0 with
       | Ok v => tile_distance v i0 j0
       | _ => 0
       end)).
  - rewrite cells_eq. cbn [foldr]. read_cells. f_equal. lia.
  - rewrite cells_eq.
    repeat (apply Forall_cons; split;
            [intros acc; read_cells; cbn [mbind exn_bind]; unfold tile_distance;
             repeat case_match; simpl in *; first [done|f_equal; lia|congruence]|]).
    apply Forall_nil_2.
Qed.

(** ** Legal moves, case by case *)

(** The values of a valid grid. *)
Lemma grid_values a b c d e f g h i :
  [a; b; c; d; e; f; g; h; i] ≡ₚ [0; 1; 2; 3; 4; 5; 6; 7; 8] →
  Forall (fun v => 0 ≤ v ≤ 8) [a; b; c; d; e; f; g; h; i].
Proof.
  intros ->. repeat (apply Forall_cons; split; [lia|]). apply Forall_nil_2.
Qed.

(** A move [m] that [operators] lists and the state it gives, for the
    blank at a known place: [tac] is run on each such move. *)
Ltac legal_moves_at Hops Hm Hres tac :=
  erewrite operators_unfold in Hops by find_blank;
  vm_compute in Hops; injection Hops as <-;
  repeat (apply elem_of_cons in Hm as [->|Hm];
          [erewrite result_unfold in Hres by find_blank;
           cbv in Hres; injection Hres as <-; tac|]);
  by apply elem_of_nil in Hm.

Ltac each_legal_move Hp Hops Hm Hres tac :=
  let Hnd := fresh "Hnd" in
  let H0 := fresh "H0" in
  lazymatch type of Hp with
  | ?l ≡ₚ _ =>
      assert (NoDup l) as Hnd by (rewrite Hp; by apply (bool_decide_unpack _));
      assert (0 ∈ l) as H0 by (rewrite Hp; set_solver)
  end;
  all_distinct Hnd;
  repeat (apply elem_of_cons in H0 as [<-|H0];
          [legal_moves_at Hops Hm Hres tac|]);
  by apply elem_of_nil in H0.

Lemma tile_distance_blank i j : tile_distance 0 i j = 0.
Proof. reflexivity. Qed.

Lemma tile_distance_adjacent t i j i' j' :
  t ≠ 0 → Z.abs (i - i') + Z.abs (j - j') = 1 →
  Z.abs (tile_distance t i' j' - tile_distance t i j) = 1.
Proof.
  intros Ht Hadj. unfold tile_distance. rewrite (proj2 (Z.eqb_neq t 0)) by done.
  cbn [negb]. generalize ((t - 1) `div` 3), ((t - 1) `mod` 3). lia.
Qed.

(** The two places of the tile that a move slides. *)
Ltac moved_tile :=
  match goal with
  | |- context [tile_distance ?t ?i ?j] =>
      match goal with
      | |- context [tile_distance t ?i' ?j'] =>
          tryif (constr_eq i i'; constr_eq j j') then fail
          else pose proof (tile_distance_adjacent t i j i' j'
                             ltac:(distinct) ltac:(reflexivity))
      end
  end.

Ltac clear_distinct :=
  repeat match goal with H : _ ≠ _ |- _ => clear H end.

(** [manhattan_distance] is consistent: a move that [operators] lists
    changes it by exactly one. *)
Lemma manhattan_distance_step s ops m s' :
  valid_state s → Problem.operators s = Ok ops → m ∈ ops →
  Problem.result s m = Ok s' →
  ∃ d d', Heuristic.manhattan_distance s = Ok d
    ∧ Heuristic.manhattan_distance s' = Ok d'
    ∧ Z.abs (d' - d) = 1.
Proof.
  intros (a & b & c & d & e & f & g & h & i & -> & Hp)%valid_state_grid Hops Hm Hres.
  each_legal_move Hp Hops Hm Hres ltac:(
    rewrite !manhattan_distance_grid; eexists _, _;
    split; [reflexivity|]; split; [reflexivity|];
    rewrite !tile_distance_blank; moved_tile; clear_distinct; lia).
Qed.

Lemma tile_misplaced_blank gv : tile_misplaced 0 gv = 0.
Proof. reflexivity. Qed.

Lemma tile_misplaced_range v gv : 0 ≤ tile_misplaced v gv ≤ 1.
Proof. unfold tile_misplaced. case_match; lia. Qed.

(** [misplaced_tile] changes by at most one. *)
Lemma misplaced_tile_step s ops m s' :
  valid_state s → Problem.operators s = Ok ops → m ∈ ops →
  Problem.result s m = Ok s' →
  ∃ n n', Heuristic.misplaced_tile s = Ok n
    ∧ Heuristic.misplaced_tile s' = Ok n'
    ∧ Z.abs (n' - n) ≤ 1.
Proof.
  intros (a & b & c & d & e & f & g & h & i & -> & Hp)%valid_state_grid Hops Hm Hres.
  each_legal_move Hp Hops Hm Hres ltac:(
    rewrite !misplaced_tile_grid; eexists _, _;
    split; [reflexivity|]; split; [reflexivity|];
    rewrite !tile_misplaced_blank;
    repeat match goal with
    | |- context [tile_misplaced ?v ?gv] =>
        pose proof (tile_misplaced_range v gv);
        generalize dependent (tile_misplaced v gv); intros
    end;
    clear_distinct; lia).
Qed.

(** ** The two integer heuristics compared *)

Lemma tile_misplaced_le_distance v :
  0 ≤ v ≤ 8 →
  tile_misplaced v 1 ≤ tile_distance v 0 0
  ∧ tile_misplaced v 2 ≤ tile_distance v 0 1
  ∧ tile_misplaced v 3 ≤ tile_distance v 0 2
  ∧ tile_misplaced v 4 ≤ tile_distance v 1 0
  ∧ tile_misplaced v 5 ≤ tile_distance v 1 1
  ∧ tile_misplaced v 6 ≤ tile_distance v 1 2
  ∧ tile_misplaced v 7 ≤ tile_distance v 2 0
  ∧ tile_misplaced v 8 ≤ tile_distance v 2 1
  ∧ tile_misplaced v 0 ≤ tile_distance v 2 2.
Proof.
  intros Hv.
  assert (v = 0 ∨ v = 1 ∨ v = 2 ∨ v = 3 ∨ v = 4 ∨ v = 5 ∨ v = 6 ∨ v = 7 ∨ v = 8)
    as Hcases by lia.
  repeat destruct Hcases as [->|Hcases]; try subst v; by vm_compute.
Qed.

Lemma tile_misplaced_zero v gv : tile_misplaced v gv = 0 → v = 0 ∨ v = gv.
Proof.
  unfold tile_misplaced.
  destruct (Z.eqb_spec v 0), (Z.eqb_spec v gv); simpl; auto; lia.
Qed.

Lemma misplaced_tile_le_manhattan_distance s :
  valid_state s →
  ∃ n d, Heuristic.misplaced_tile s = Ok n
    ∧ Heuristic.manhattan_distance s = Ok d
    ∧ 0 ≤ n ≤ d ∧ n ≤ 8.
Proof.
  intros (a & b & c & d & e & f & g & h & i & -> & Hp)%valid_state_grid.
  rewrite misplaced_tile_grid, manhattan_distance_grid. eexists _, _.
  split; [reflexivity|]. split; [reflexivity|].
  pose proof (grid_values _ _ _ _ _ _ _ _ _ Hp) as Hv.
  assert (0 ∈ [a; b; c; d; e; f; g; h; i]) as H0 by (rewrite Hp; set_solver).
  repeat (apply Forall_cons in Hv as [?%tile_misplaced_le_distance Hv]).
  pose proof (tile_misplaced_range a 1). pose proof (tile_misplaced_range b 2).
  pose proof (tile_misplaced_range c 3). pose proof (tile_misplaced_range d 4).
  pose proof (tile_misplaced_range e 5). pose proof (tile_misplaced_range f 6).
  pose proof (tile_misplaced_range g 7). pose proof (tile_misplaced_range h 8).
  pose proof (tile_misplaced_range i 0).
  split; [lia|].
  repeat (apply elem_of_cons in H0 as [<-|H0];
          [rewrite tile_misplaced_blank; lia|]).
  by apply elem_of_nil in H0.
Qed.

(** A heuristic value of zero names the goal. *)
Lemma misplaced_tile_zero_goal s :
  valid_state s → Heuristic.misplaced_tile s = Ok 0 → s = goal.
Proof.
  intros (a & b & c & d & e & f & g & h & i & -> & Hp)%valid_state_grid.
  rewrite misplaced_tile_grid. intros [= Hsum].
  assert (NoDup [a; b; c; d; e; f; g; h; i]) as Hnd
    by (rewrite Hp; by apply (bool_decide_unpack _)).
  all_distinct Hnd.
  pose proof (tile_misplaced_range a 1). pose proof (tile_misplaced_range b 2).
  pose proof (tile_misplaced_range c 3). pose proof (tile_misplaced_range d 4).
  pose proof (tile_misplaced_range e 5). pose proof (tile_misplaced_range f 6).
  pose proof (tile_misplaced_range g 7). pose proof (tile_misplaced_range h 8).
  pose proof (tile_misplaced_range i 0).
  assert (tile_misplaced i 0 = 0) as [->| ->]%tile_misplaced_zero
    by (clear_distinct; lia);
  (assert (tile_misplaced a 1 = 0) as [->| ->]%tile_misplaced_zero
     by (clear_distinct; lia); [done|]);
  (assert (tile_misplaced b 2 = 0) as [->| ->]%tile_misplaced_zero
     by (clear_distinct; lia); [done|]);
  (assert (tile_misplaced c 3 = 0) as [->| ->]%tile_misplaced_zero
     by (clear_distinct; lia); [done|]);
  (assert (tile_misplaced d 4 = 0) as [->| ->]%tile_misplaced_zero
     by (clear_distinct; lia); [done|]);
  (assert (tile_misplaced e 5 = 0) as [->| ->]%tile_misplaced_zero
     by (clear_distinct; lia); [done|]);
  (assert (tile_misplaced f 6 = 0) as [->| ->]%tile_misplaced_zero
     by (clear_distinct; lia); [done|]);
  (assert (tile_misplaced g 7 = 0) as [->| ->]%tile_misplaced_zero
     by (clear_distinct; lia); [done|]);
  (assert (tile_misplaced h 8 = 0) as [->| ->]%tile_misplaced_zero
     by (clear_distinct; lia); [done|]);
  reflexivity.
Qed.

(** ** Sequences of moves *)

Lemma apply_moves_cons s m moves t :
  apply_moves s (m :: moves) = Some t →
  ∃ ops s', Problem.operators s = Ok ops ∧ m ∈ ops
    ∧ Problem.result s m = Ok s' ∧ apply_moves s' moves = Some t.
Proof.
  cbn [apply_moves].
  destruct (Problem.operators s) as [ops|]; [|done].
  destruct (Problem.result s m) as [s'|]; [|done].
  case_bool_decide; [|done]. intros Hrest. by exists ops, s'.
Qed.

Lemma apply_moves_app s pre post :
  apply_moves s (pre ++ post) = apply_moves s pre ≫= fun u => apply_moves u post.
Proof.
  revert s. induction pre as [|m pre IH]; intros s; [done|].
  cbn [app apply_moves].
  destruct (Problem.operators s) as [ops|]; [|done].
  destruct (Problem.result s m) as [s'|]; [|done].
  case_bool_decide; [apply IH|done].
Qed.

Lemma apply_moves_snoc s moves t ops m t' :
  apply_moves s moves = Some t →
  Problem.operators t = Ok ops → m ∈ ops → Problem.result t m = Ok t' →
  apply_moves s (moves ++ [m]) = Some t'.
Proof.
  intros Hmoves Hops Hm Hres. rewrite apply_moves_app, Hmoves.
  cbn [mbind option_bind apply_moves]. rewrite Hops, Hres.
  by rewrite bool_decide_eq_true_2.
Qed.

Lemma replay_snoc s moves path t ops m t' :
  replay s moves = Some path → apply_moves s moves = Some t →
  Problem.operators t = Ok ops → m ∈ ops → Problem.result t m = Ok t' →
  replay s (moves ++ [m]) = Some (path ++ [(Some m, t')]).
Proof.
  revert s path. induction moves as [|m0 moves IH]; intros s path Hpath Hmoves Hops Hm Hres.
  - injection Hpath as <-. injection Hmoves as ->.
    cbn [app replay]. rewrite Hops, Hres. by rewrite bool_decide_eq_true_2.
  - cbn [app replay apply_moves] in *.
    destruct (Problem.operators s) as [ops0|]; [|done].
    destruct (Problem.result s m0) as [s'|]; [|done].
    case_bool_decide; [|done].
    destruct (replay s' moves) as [path'|] eqn:Hpath'; [|done].
    injection Hpath as <-. by rewrite (IH s' path').
Qed.

(** The states along a sequence of moves from a valid state are valid and
    as solvable as the first. *)
Lemma apply_moves_valid s moves t :
  valid_state s → apply_moves s moves = Some t →
  valid_state t ∧ Problem.is_solvable t = Problem.is_solvable s.
Proof.
  revert s. induction moves as [|m moves IH]; intros s Hv Hmoves.
  - by injection Hmoves as <-.
  - apply apply_moves_cons in Hmoves as (ops & s' & Hops & Hm & Hres & Hrest).
    destruct (legal_moves s Hv) as (ops' & Hops' & _ & Hmoves).
    rewrite Hops in Hops'. injection Hops' as <-.
    destruct (Hmoves m Hm) as (s'' & Hres' & Hv' & Hpar & _).
    rewrite Hres in Hres'. injection Hres' as <-.
    destruct (IH s' Hv' Hrest) as [Hvt Hpt]. split; [done|congruence].
Qed.

Lemma apply_moves_reachable s moves t :
  apply_moves s moves = Some t → reachable s t.
Proof.
  revert t. induction moves as [|m moves IH] using rev_ind; intros t Hmoves.
  - injection Hmoves as <-. apply reachable_refl.
  - rewrite apply_moves_app in Hmoves.
    destruct (apply_moves s moves) as [u|] eqn:Hu; [|done].
    cbn [mbind option_bind] in Hmoves.
    apply apply_moves_cons in Hmoves as (ops & t' & Hops & Hm & Hres & [= <-]).
    apply (reachable_step s u ops m); [by apply IH|done..].
Qed.

Lemma reachable_apply_moves s t :
  reachable s t → ∃ moves, apply_moves s moves = Some t.
Proof.
  induction 1 as [|u ops m t _ [moves Hmoves] Hops Hm Hres]; [by exists []|].
  exists (moves ++ [m]). by apply (apply_moves_snoc s moves u ops).
Qed.

(** ** The states of a run *)

Section run.
Context {H : Type} `{PyNumber H}.
Variable initial : PuzzleState.
Variable heuristic_func : PuzzleState → exn H.

Let problem := Problem.init initial.

(** A result of the loop is read off a state of the run: one with an empty
    frontier, or one whose popped node passes the goal test. *)
Lemma search_loop_final fuel st goal_node ne mq :
  run_state problem heuristic_func st →
  search_loop problem heuristic_func fuel st = Some (Ok (goal_node, ne, mq)) →
  ∃ st', run_state problem heuristic_func st'
    ∧ ne = nodes_expanded st' ∧ mq = max_queue_size st'
    ∧ match goal_node with
      | Some node =>
          ∃ popped rest,
            heapq.heappop entry_lt (frontier st') = Ok (popped, rest)
            ∧ Problem.goal_test problem (Node.state (entry_node popped)) = true
            ∧ node = entry_node popped
      | None => frontier st' = []
      end.
Proof.
  revert st. induction fuel as [|fuel IH]; intros st Hst Hrun; [done|].
  cbn [search_loop] in Hrun. destruct (frontier st) eqn:Hfr.
  { injection Hrun as <- <- <-. by exists st. }
  destruct (loop_body problem heuristic_func st) as [[r|st']|err] eqn:Hbody;
    [| |done].
  - injection Hrun as ->.
    apply loop_body_return in Hbody as (popped & rest & Hpop & Hgoal & [= -> -> ->]).
    exists st. split_and!; [done..|]. by exists popped, rest.
  - apply (IH st'); [|done]. by apply (run_next _ _ st).
Qed.

Lemma graph_search_final fuel goal_node ne mq :
  graph_search problem heuristic_func fuel = Some (Ok (goal_node, ne, mq)) →
  ∃ st, run_state problem heuristic_func st
    ∧ ne = nodes_expanded st ∧ mq = max_queue_size st
    ∧ match goal_node with
      | Some node =>
          ∃ popped rest,
            heapq.heappop entry_lt (frontier st) = Ok (popped, rest)
            ∧ Problem.goal_test problem (Node.state (entry_node popped)) = true
            ∧ node = entry_node popped
      | None => frontier st = []
      end.
Proof.
  unfold graph_search.
  destruct (heuristic_func (Problem.initial_state problem)) as [h_initial|] eqn:Hh;
    [|done].
  apply search_loop_final. by apply run_start.
Qed.

(** What the [for] loop over the operators leaves in the frontier: the
    entries it found there, and an entry for each child state that is not
    in the explored set. *)
Lemma expand_all_members node explored ops frontier counter frontier' counter' :
  for_each ops (expand_operator heuristic_func node explored) (frontier, counter)
  = Ok (frontier', counter') →
  (∀ e, e ∈ frontier → e ∈ frontier')
  ∧ ∀ op child,
      op ∈ ops → Problem.result (Node.state node) op = Ok child →
      (child ∉ explored) →
      ∃ h_cost c, heuristic_func child = Ok h_cost
        ∧ child_entry node op child h_cost c ∈ frontier'.
Proof.
  revert frontier counter.
  induction ops as [|op ops IH]; intros frontier counter Hrun.
  - injection Hrun as <- <-. split; [done|]. intros op child Hop.
    by apply elem_of_nil in Hop.
  - cbn [for_each] in Hrun.
    destruct (expand_operator _ _ _ op _) as [[fr1 c1]|] eqn:Hop; [|done].
    cbn [mbind exn_bind] in Hrun. destruct (IH _ _ Hrun) as [Hkeep Hnew].
    unfold expand_operator in Hop.
    destruct (Problem.result (Node.state node) op) as [child|] eqn:Hres; [|done].
    cbn [mbind exn_bind] in Hop. unfold state_tuple in Hop.
    case_bool_decide as Hin.
    + injection Hop as <- <-. split; [done|].
      intros op' child' [->|Hop']%elem_of_cons Hres' Hnotin'; [|by apply Hnew].
      rewrite Hres in Hres'. by injection Hres' as <-.
    + destruct (heuristic_func child) as [h_cost|] eqn:Hh; [|done].
      cbn [mbind exn_bind] in Hop. injection Hop as <- <-. split.
      * intros e He. apply Hkeep. rewrite heappush_perm. by right.
      * intros op' child' [->|Hop']%elem_of_cons Hres' Hnotin'; [|by apply Hnew].
        rewrite Hres in Hres'. injection Hres' as <-.
        exists h_cost, counter. split; [done|].
        apply Hkeep. rewrite heappush_perm. by left.
Qed.

(** Every node of the frontier spells a legal play from the initial state. *)
Lemma run_state_nodes_ok st :
  run_state problem heuristic_func st →
  Forall (fun e => node_ok initial (entry_node e)) (frontier st).
Proof.
  induction 1 as [h_initial Hh|st st' _ IH Hbody].
  - apply Forall_singleton. by exists [].
  - apply loop_body_continue in Hbody
      as (popped & rest & Hpop & _ & Hcase).
    apply heappop_perm in Hpop. rewrite Hpop in IH.
    apply Forall_cons in IH as [Hpopped Hrest].
    destruct Hcase as [[_ ->]|(_ & ops & fr' & c' & Hops & Hexp & ->)]; [done|].
    cbn [frontier].
    apply (expand_all_spec heuristic_func
             (fun e => node_ok initial (entry_node e))) in Hexp as [Hfr' _];
      [done| |done].
    intros op child h_cost c Hop Hres _ _ _.
    destruct Hpopped as (moves & Hpath & Hmoves & Hlen & Hcost & Hroot).
    exists (moves ++ [op]). unfold child_entry, entry_node. cbn.
    split_and!.
    + by apply (replay_snoc _ _ _ (Node.state (entry_node popped)) ops).
    + by apply (apply_moves_snoc _ _ (Node.state (entry_node popped)) ops).
    + rewrite length_app. simpl. unfold entry_node in Hlen. lia.
    + unfold entry_node in Hcost. lia.
    + done.
Qed.

End run.

Section run_valid.
Context {H : Type} `{PyNumber H}.
Variable initial : PuzzleState.
Variable heuristic_func : PuzzleState → exn H.
Hypothesis Hvalid : valid_state initial.

Let problem := Problem.init initial.

Lemma run_state_search_inv st :
  run_state problem heuristic_func st → search_inv initial st.
Proof.
  induction 1 as [h_initial Hh|st st' _ IH Hbody].
  - apply search_inv_initial.
  - by destruct (search_inv_step initial heuristic_func Hvalid st st' IH Hbody).
Qed.

(** The counters of a run: the frontier never holds more than
    max_queue_size entries, nor more than 1 + 3 * nodes_expanded. *)
Lemma run_state_counts st :
  run_state problem heuristic_func st →
  0 ≤ nodes_expanded st
  ∧ 1 ≤ max_queue_size st
  ∧ Z.of_nat (length (frontier st)) ≤ max_queue_size st
  ∧ max_queue_size st ≤ 1 + 3 * nodes_expanded st
  ∧ Z.of_nat (length (frontier st)) ≤ counter st
  ∧ counter st ≤ 1 + 4 * nodes_expanded st.
Proof.
  intros Hst. pose proof (run_state_search_inv st Hst) as Hinv. revert Hinv.
  induction Hst as [h_initial Hh|st st' Hst IH Hbody]; intros Hinv.
  - cbn. lia.
  - specialize (IH (run_state_search_inv st Hst)).
    pose proof (run_state_search_inv st Hst) as (Hfr & _ & _).
    apply loop_body_continue in Hbody
      as (popped & rest & Hpop & _ & Hcase).
    apply heappop_perm in Hpop.
    pose proof (Permutation_length Hpop) as Hlen. simpl in Hlen.
    destruct Hcase as [[_ ->]|(_ & ops & fr' & c' & Hops & Hexp & ->)].
    + cbn [frontier counter nodes_expanded max_queue_size]. lia.
    + cbn [frontier counter nodes_expanded max_queue_size].
      assert (reachable initial (Node.state (entry_node popped))) as Hreach.
      { apply Hfr. rewrite Hpop. by left. }
      destruct (reachable_valid _ _ Hvalid Hreach) as [Hv _].
      destruct (legal_moves _ Hv) as (ops' & Hops' & Hfour & _).
      rewrite Hops in Hops'. injection Hops' as <-.
      apply (expand_all_spec heuristic_func (fun _ => True)) in Hexp
        as (_ & Hlen' & Hc & Hd); [|done|by apply Forall_forall].
      lia.
Qed.

End run_valid.

(** ** Shortest solutions *)

Section optimal.
Variable initial : PuzzleState.
Variable heuristic_func : PuzzleState → exn Z.
Hypothesis Hvalid : valid_state initial.
Hypothesis Hcons : consistent heuristic_func.

Let problem := Problem.init initial.

(** Along a play the heuristic falls by at most the number of moves. *)
Lemma consistent_path s post t v :
  valid_state s → apply_moves s post = Some t → heuristic_func s = Ok v →
  ∃ vt, heuristic_func t = Ok vt ∧ v ≤ vt + Z.of_nat (length post).
Proof.
  revert s v. induction post as [|m post IH]; intros s v Hv Hpost Hh.
  - injection Hpost as <-. exists v. split; [done|simpl; lia].
  - pose proof Hpost as Hpost'.
    apply apply_moves_cons in Hpost' as (ops & s' & Hops & Hm & Hres & Hrest).
    destruct (Hcons s ops m s' Hv Hops Hm Hres) as (v0 & v' & Hv0 & Hv' & Hle).
    rewrite Hh in Hv0. injection Hv0 as <-.
    assert (valid_state s') as Hvs'.
    { apply (apply_moves_valid s [m] s'); [done|].
      cbn [apply_moves]. rewrite Hops, Hres. by rewrite bool_decide_eq_true_2. }
    destruct (IH s' v' Hvs' Hrest Hv') as (vt & Hvt & Hle').
    exists vt. split; [done|]. cbn [length]. lia.
Qed.

(** From an explored state on a play, the play goes on through explored
    states until it meets a node of the frontier that is no deeper than the
    play is long. *)
Lemma explored_walk st post pre x t :
  opt_inv initial heuristic_func st →
  x ∈ explored st →
  apply_moves initial pre = Some x → apply_moves x post = Some t →
  t ∈ explored st
  ∨ ∃ e pre' post',
      e ∈ frontier st ∧ pre ++ post = pre' ++ post'
      ∧ apply_moves initial pre' = Some (Node.state (entry_node e))
      ∧ apply_moves (Node.state (entry_node e)) post' = Some t
      ∧ Node.depth (entry_node e) ≤ Z.of_nat (length pre').
Proof.
  intros (_ & _ & _ & Hexp). revert pre x.
  induction post as [|m post IH]; intros pre x Hx Hpre Hpost.
  - injection Hpost as <-. by left.
  - apply apply_moves_cons in Hpost as (ops & y & Hops & Hm & Hres & Hrest).
    destruct (Hexp x Hx) as (dx & Hdx & Hchildren).
    pose proof (apply_moves_snoc _ _ _ _ _ _ Hpre Hops Hm Hres) as Hpre'.
    destruct (Hchildren ops m y Hops Hm Hres) as [Hy|(e & He & Hst & Hd)].
    + destruct (IH (pre ++ [m]) y Hy Hpre' Hrest)
        as [Ht|(e & pre' & post' & He & Hsplit & Hrest')]; [by left|].
      right. exists e, pre', post'. split; [done|].
      split; [|done]. rewrite <- Hsplit. by rewrite <- app_assoc.
    + right. exists e, (pre ++ [m]), post. split; [done|].
      split; [by rewrite <- app_assoc|]. rewrite Hst.
      split; [done|]. split; [done|].
      specialize (Hdx pre Hpre). rewrite length_app. simpl. lia.
Qed.

Lemma covered st moves t :
  opt_inv initial heuristic_func st →
  apply_moves initial moves = Some t →
  t ∈ explored st
  ∨ ∃ e pre post,
      e ∈ frontier st ∧ moves = pre ++ post
      ∧ apply_moves initial pre = Some (Node.state (entry_node e))
      ∧ apply_moves (Node.state (entry_node e)) post = Some t
      ∧ Node.depth (entry_node e) ≤ Z.of_nat (length pre).
Proof.
  intros Hinv Hmoves. pose proof Hinv as (_ & _ & [Hi|(e & He & Hst & Hd)] & _).
  - by apply (explored_walk st moves [] initial t).
  - right. exists e, [], moves. rewrite Hst. by split_and!.
Qed.

(** The popped entry is no larger in [f] than any entry of the frontier. *)
Lemma popped_least st popped rest e :
  run_state problem heuristic_func st →
  heapq.heappop entry_lt (frontier st) = Ok (popped, rest) →
  e ∈ frontier st →
  Node.depth (entry_node popped) + Node.heuristic_cost (entry_node popped)
  ≤ Node.depth (entry_node e) + Node.heuristic_cost (entry_node e).
Proof.
  intros Hst Hpop He.
  assert (frontier_ok (frontier st) (counter st)) as Hok.
  { by apply (run_state_frontier_ok initial heuristic_func). }
  destruct (frontier_ok_pop _ _ _ _ Hok Hpop) as (_ & Hpopped & Hleast).
  destruct Hok as (_ & Hall & _). rewrite Forall_forall in Hall.
  destruct Hpopped as (Hfp & _). destruct (Hall e He) as (Hfe & _).
  unfold Node.f, Node.g, Node.h in Hfp, Hfe. cbn [int_add int_number] in Hfp, Hfe.
  rewrite (heappop_perm _ _ _ _ Hpop) in He.
  apply elem_of_cons in He as [->|He]; [lia|].
  destruct (Hleast e He) as [Hlt|[Heq _]]; cbn [num_lt num_eq int_number] in *; lia.
Qed.

(** No play reaches the state of the popped node in fewer moves than the
    depth of the node, unless the state was expanded before. *)
Lemma popped_depth_least st popped rest moves :
  run_state problem heuristic_func st →
  opt_inv initial heuristic_func st →
  heapq.heappop entry_lt (frontier st) = Ok (popped, rest) →
  (Node.state (entry_node popped) ∉ explored st) →
  apply_moves initial moves = Some (Node.state (entry_node popped)) →
  Node.depth (entry_node popped) ≤ Z.of_nat (length moves).
Proof.
  intros Hst Hinv Hpop Hnew Hmoves.
  destruct (covered st moves _ Hinv Hmoves)
    as [Hin|(e & pre & post & He & -> & Hpre & Hpost & Hd)]; [done|].
  pose proof (popped_least st popped rest e Hst Hpop He) as Hle.
  destruct Hinv as (Hh & _).
  destruct (apply_moves_valid _ _ _ Hvalid Hpre) as [Hve _].
  destruct (consistent_path _ _ _ _ Hve Hpost (Hh e He)) as (vt & Hvt & Hlt).
  rewrite Hh in Hvt; [|rewrite (heappop_perm _ _ _ _ Hpop); by left].
  injection Hvt as <-. rewrite length_app. lia.
Qed.

Lemma opt_inv_initial h_initial :
  heuristic_func initial = Ok h_initial →
  opt_inv initial heuristic_func (initial_search_state problem h_initial).
Proof.
  intros Hh. split_and!.
  - by intros e ->%list_elem_of_singleton.
  - apply not_elem_of_empty.
  - right. eexists. split; [by apply list_elem_of_singleton|]. by split.
  - intros x Hx. by apply not_elem_of_empty in Hx.
Qed.

Lemma opt_inv_step st st' :
  run_state problem heuristic_func st →
  opt_inv initial heuristic_func st →
  loop_body problem heuristic_func st = Ok (inr st') →
  opt_inv initial heuristic_func st'.
Proof.
  intros Hst Hinv (popped & rest & Hpop & Hgoal & Hcase)%loop_body_continue.
  pose proof (heappop_perm _ _ _ _ Hpop) as Hperm.
  pose proof Hinv as (Hh & Hnogoal & Hinit & Hexp).
  assert (∀ e, e ∈ frontier st → e = popped ∨ e ∈ rest) as Hsplit.
  { intros e He. rewrite Hperm in He. by apply elem_of_cons in He. }
  assert (∀ e, e ∈ rest → e ∈ frontier st) as Hrest.
  { intros e He. rewrite Hperm. by right. }
  destruct Hcase as [[Hin ->]|(Hnew & ops & fr' & c' & Hops & Hrun & ->)].
  - split_and!; cbn [frontier explored].
    + intros e He. by apply Hh, Hrest.
    + done.
    + destruct Hinit as [Hi|(e & He & Hs & Hd)]; [by left|].
      destruct (Hsplit e He) as [->|He']; [left; by rewrite <- Hs|].
      right. by exists e.
    + intros x Hx. destruct (Hexp x Hx) as (dx & Hdx & Hchildren).
      exists dx. split; [done|]. intros ops m y Hops Hm Hres.
      destruct (Hchildren ops m y Hops Hm Hres) as [Hy|(e & He & Hs & Hd)];
        [by left|].
      destruct (Hsplit e He) as [->|He']; [left; by rewrite <- Hs|].
      right. by exists e.
  - destruct (expand_all_members heuristic_func _ _ _ _ _ _ _ Hrun)
      as [Hkeep Hpushed].
    split_and!; cbn [frontier explored].
    + apply (expand_all_spec heuristic_func
               (fun e => heuristic_func (Node.state (entry_node e))
                         = Ok (Node.heuristic_cost (entry_node e)))) in Hrun
        as [Hall _].
      * by rewrite Forall_forall in Hall.
      * by intros op child h_cost c _ _ _ Hc _.
      * apply Forall_forall. intros e He. by apply Hh, Hrest.
    + intros [Hg%elem_of_singleton|Hg]%elem_of_union; [|done].
      apply bool_decide_eq_false in Hgoal. apply Hgoal. by rewrite <- Hg.
    + destruct Hinit as [Hi|(e & He & Hs & Hd)];
        [left; apply elem_of_union; by right|].
      destruct (Hsplit e He) as [->|He'];
        [left; apply elem_of_union; left; by apply elem_of_singleton|].
      right. exists e. split; [by apply Hkeep|done].
    + intros x [->%elem_of_singleton|Hx]%elem_of_union.
      * exists (Node.depth (entry_node popped)). split.
        { intros moves Hmoves.
          by apply (popped_depth_least st popped rest moves). }
        intros ops' m y Hops' Hm Hres. rewrite Hops in Hops'.
        injection Hops' as <-.
        destruct (decide (y ∈ ({[Node.state (entry_node popped)]} ∪ explored st
                               : gset PuzzleState))) as [Hy|Hy]; [by left|].
        destruct (Hpushed m y Hm Hres Hy) as (h_cost & c & _ & Hentry).
        right. eexists. split; [exact Hentry|]. unfold child_entry, entry_node.
        cbn. split; [done|]. unfold entry_node. lia.
      * destruct (Hexp x Hx) as (dx & Hdx & Hchildren).
        exists dx. split; [done|]. intros ops' m y Hops' Hm Hres.
        destruct (Hchildren ops' m y Hops' Hm Hres) as [Hy|(e & He & Hs & Hd)];
          [left; apply elem_of_union; by right|].
        destruct (Hsplit e He) as [->|He'];
        [left; apply elem_of_union; left; by apply elem_of_singleton|].
        right. exists e. split; [by apply Hkeep|done].
Qed.

Lemma run_state_opt_inv st :
  run_state problem heuristic_func st → opt_inv initial heuristic_func st.
Proof.
  induction 1 as [h_initial Hh|st st' Hst IH Hbody].
  - by apply opt_inv_initial.
  - by apply (opt_inv_step st st').
Qed.

End optimal.

(** ** More on class Problem *)

Lemma not_four_operators op :
  op ∉ four_operators →
  String.eqb op "up" = false ∧ String.eqb op "down" = false
  ∧ String.eqb op "left" = false ∧ String.eqb op "right" = false.
Proof.
  intros Hop. split_and!; apply String.eqb_neq; intros ->; apply Hop;
    unfold four_operators; set_solver.
Qed.

(** X1. [result] with an operator that is none of "up", "down", "left",
    "right" returns the state as it is, wherever [_find_blank] returns (with
    or without a blank). *)
Theorem result_unknown_operator
    (state : PuzzleState) (operator : string) (blank : option (Z * Z))
    (Hop : operator ∉ four_operators)
    (Hblank : Problem._find_blank state = Ok blank) :
  Problem.result state operator = Ok state.
Proof.
  destruct (not_four_operators operator Hop) as (Hu & Hd & Hl & Hr).
  unfold Problem.result, Problem.new_position. rewrite Hblank.
  cbn [mbind exn_bind]. by rewrite Hu, Hd, Hl, Hr.
Qed.

Lemma result_unknown_operator_witness :
  Problem.result goal "diagonal" = Ok goal.
Proof.
  apply (result_unknown_operator goal "diagonal" (Some (2, 2))).
  - by apply (bool_decide_unpack _).
  - reflexivity.
Defined.

(** X2. On a valid state [_find_blank] returns the cell that holds 0, and
    [operators] lists, in the order up, down, left, right, the moves that
    keep the blank inside the grid: two of them when the blank is in a
    corner, three on an edge, four in the centre. *)
Theorem operators_lists_moves_inside (s : PuzzleState) (Hvalid : valid_state s) :
  ∃ blank_row blank_col ops,
    Problem._find_blank s = Ok (Some (blank_row, blank_col))
    ∧ getitem2 s blank_row blank_col = Ok 0
    ∧ 0 ≤ blank_row ≤ 2 ∧ 0 ≤ blank_col ≤ 2
    ∧ Problem.operators s = Ok ops
    ∧ ops = filter (fun op => legal blank_row blank_col op) four_operators
    ∧ Z.of_nat (length ops)
      = 2 + (if blank_row =? 1 then 1 else 0) + (if blank_col =? 1 then 1 else 0).
Proof.
  destruct (valid_state_grid s Hvalid)
    as (a & b & c & d & e & f & g & h & i & -> & Hp).
  assert (NoDup [a; b; c; d; e; f; g; h; i]) as Hnd
    by (rewrite Hp; by apply (bool_decide_unpack _)).
  assert (0 ∈ [a; b; c; d; e; f; g; h; i]) as H0 by (rewrite Hp; set_solver).
  all_distinct Hnd.
  repeat (apply elem_of_cons in H0 as [<-|H0];
          [eexists _, _, _; split; [find_blank|];
           split; [reflexivity|]; split; [lia|]; split; [lia|];
           split; [erewrite operators_unfold by find_blank; reflexivity|];
           split; reflexivity|]).
  by apply elem_of_nil in H0.
Qed.

Lemma operators_lists_moves_inside_witness :
  ∃ blank_row blank_col ops,
    Problem._find_blank very_easy = Ok (Some (blank_row, blank_col))
    ∧ getitem2 very_easy blank_row blank_col = Ok 0
    ∧ 0 ≤ blank_row ≤ 2 ∧ 0 ≤ blank_col ≤ 2
    ∧ Problem.operators very_easy = Ok ops
    ∧ ops = filter (fun op => legal blank_row blank_col op) four_operators
    ∧ Z.of_nat (length ops)
      = 2 + (if blank_row =? 1 then 1 else 0) + (if blank_col =? 1 then 1 else 0).
Proof.
  apply (operators_lists_moves_inside very_easy).
  split_and!; [reflexivity|by repeat constructor|].
  by apply (bool_decide_unpack _).
Defined.

(** X3. On a grid of nine values none of which is 0, [_find_blank] returns
    [(None, None)]; [operators] then raises [TypeError] (on [None > 0]) and
    so does [result] for each of the four operators (on [None - 1] or
    [None + 1]). *)
Theorem no_blank_raises
    (a b c d e f g h i : Z) (op : string)
    (Hnoblank : Forall (fun v => v ≠ 0) [a; b; c; d; e; f; g; h; i])
    (Hop : op ∈ four_operators) :
  Problem._find_blank [[a; b; c]; [d; e; f]; [g; h; i]] = Ok None
  ∧ Problem.operators [[a; b; c]; [d; e; f]; [g; h; i]] = Raise TypeError
  ∧ Problem.result [[a; b; c]; [d; e; f]; [g; h; i]] op = Raise TypeError.
Proof.
  assert (Problem._find_blank [[a; b; c]; [d; e; f]; [g; h; i]] = Ok None) as Hb.
  { rewrite find_blank_grid.
    repeat (apply Forall_cons in Hnoblank as [?%Z.eqb_neq Hnoblank]).
    by repeat case_match. }
  split; [done|]. split.
  - unfold Problem.operators. by rewrite Hb.
  - unfold Problem.result, Problem.new_position. rewrite Hb. cbn [mbind exn_bind].
    repeat (apply elem_of_cons in Hop as [->|Hop]; [reflexivity|]).
    by apply elem_of_nil in Hop.
Qed.

Lemma no_blank_raises_witness :
  Problem._find_blank [[1; 2; 3]; [4; 5; 6]; [7; 8; 9]] = Ok None
  ∧ Problem.operators [[1; 2; 3]; [4; 5; 6]; [7; 8; 9]] = Raise TypeError
  ∧ Problem.result [[1; 2; 3]; [4; 5; 6]; [7; 8; 9]] "up" = Raise TypeError.
Proof.
  apply (no_blank_raises 1 2 3 4 5 6 7 8 9 "up").
  - repeat (apply Forall_cons; split; [lia|]). apply Forall_nil_2.
  - by apply (bool_decide_unpack _).
Defined.

(** The cells other than two given ones, one by one. *)
Ltac other_cells :=
  let i := fresh "i" in
  let j := fresh "j" in
  let Hi := fresh "Hi" in
  let Hj := fresh "Hj" in
  let Hold := fresh "Hold" in
  let Hnew := fresh "Hnew" in
  intros i j Hi Hj Hold Hnew;
  assert (i = 0 ∨ i = 1 ∨ i = 2) as [->|[->| ->]] by lia;
  (assert (j = 0 ∨ j = 1 ∨ j = 2) as [->|[->| ->]] by lia);
  first [ reflexivity | by destruct Hold | by destruct Hnew ].

(** X4. A move that [operators] lists swaps the blank with the tile next to
    it in the direction of the move: the tile goes to the cell the blank
    had, the blank to the cell of the tile, and the seven other cells keep
    their values. *)
Theorem result_slides_one_tile
    (s : PuzzleState) (ops : list string) (m : string) (s' : PuzzleState)
    (Hvalid : valid_state s)
    (Hops : Problem.operators s = Ok ops) (Hm : m ∈ ops)
    (Hres : Problem.result s m = Ok s') :
  ∃ r c r' c' tile,
    Problem._find_blank s = Ok (Some (r, c))
    ∧ Problem.new_position (Some (r, c)) m = Ok (Some (r', c'))
    ∧ Z.abs (r' - r) + Z.abs (c' - c) = 1
    ∧ 0 ≤ r' ≤ 2 ∧ 0 ≤ c' ≤ 2
    ∧ getitem2 s r' c' = Ok tile ∧ tile ≠ 0
    ∧ getitem2 s' r c = Ok tile
    ∧ getitem2 s' r' c' = Ok 0
    ∧ Problem._find_blank s' = Ok (Some (r', c'))
    ∧ ∀ i j, 0 ≤ i ≤ 2 → 0 ≤ j ≤ 2 → (i, j) ≠ (r, c) → (i, j) ≠ (r', c') →
        getitem2 s' i j = getitem2 s i j.
Proof.
  destruct (valid_state_grid s Hvalid)
    as (a & b & c & d & e & f & g & h & i & -> & Hp).
  each_legal_move Hp Hops Hm Hres ltac:(
    eexists _, _, _, _, _;
    split; [find_blank|];
    split; [reflexivity|];
    split; [reflexivity|];
    split; [lia|]; split; [lia|];
    split; [reflexivity|];
    split; [distinct|];
    split; [reflexivity|];
    split; [reflexivity|];
    split; [find_blank|];
    clear_distinct; other_cells).
Qed.

Lemma result_slides_one_tile_witness :
  ∃ r c r' c' tile,
    Problem._find_blank very_easy = Ok (Some (r, c))
    ∧ Problem.new_position (Some (r, c)) "right" = Ok (Some (r', c'))
    ∧ Z.abs (r' - r) + Z.abs (c' - c) = 1
    ∧ 0 ≤ r' ≤ 2 ∧ 0 ≤ c' ≤ 2
    ∧ getitem2 very_easy r' c' = Ok tile ∧ tile ≠ 0
    ∧ getitem2 goal r c = Ok tile
    ∧ getitem2 goal r' c' = Ok 0
    ∧ Problem._find_blank goal = Ok (Some (r', c'))
    ∧ ∀ i j, 0 ≤ i ≤ 2 → 0 ≤ j ≤ 2 → (i, j) ≠ (r, c) → (i, j) ≠ (r', c') →
        getitem2 goal i j = getitem2 very_easy i j.
Proof.
  apply (result_slides_one_tile very_easy ["up"; "left"; "right"]%string "right" goal).
  - split_and!; [reflexivity|by repeat constructor|].
    by apply (bool_decide_unpack _).
  - reflexivity.
  - by apply (bool_decide_unpack _).
  - reflexivity.
Defined.

(** X5. A move that [operators] lists leads from a valid state to a valid
    state on which [is_solvable] returns the same, and so does every
    sequence of such moves; hence a state from which some sequence of moves
    reaches the goal is one that [is_solvable] accepts. *)
Theorem moves_keep_solvability
    (s : PuzzleState) (moves : list string) (t : PuzzleState)
    (Hvalid : valid_state s) (Hmoves : apply_moves s moves = Some t) :
  valid_state t
  ∧ Problem.is_solvable t = Problem.is_solvable s
  ∧ (t = goal → Problem.is_solvable s = true).
Proof.
  destruct (apply_moves_valid s moves t Hvalid Hmoves) as [Hv Hpar].
  split; [done|]. split; [done|]. intros ->. by rewrite <- Hpar.
Qed.

Lemma moves_keep_solvability_witness :
  valid_state goal
  ∧ Problem.is_solvable goal = Problem.is_solvable easy
  ∧ (goal = goal → Problem.is_solvable easy = true).
Proof.
  apply (moves_keep_solvability easy ["down"; "down"]%string goal).
  - split_and!; [reflexivity|by repeat constructor|].
    by apply (bool_decide_unpack _).
  - reflexivity.
Defined.

(** ** More on class Heuristic *)

Lemma uniform_cost_consistent : consistent Heuristic.uniform_cost.
Proof. intros s ops m s' _ _ _ _. exists 0, 0. by split_and!. Qed.

Lemma misplaced_tile_consistent : consistent Heuristic.misplaced_tile.
Proof.
  intros s ops m s' Hv Hops Hm Hres.
  destruct (misplaced_tile_step s ops m s' Hv Hops Hm Hres)
    as (n & n' & Hn & Hn' & Hle).
  exists n, n'. split_and!; [done..|lia].
Qed.

Lemma manhattan_distance_consistent : consistent Heuristic.manhattan_distance.
Proof.
  intros s ops m s' Hv Hops Hm Hres.
  destruct (manhattan_distance_step s ops m s' Hv Hops Hm Hres)
    as (d & d' & Hd & Hd' & Hle).
  exists d, d'. split_and!; [done..|lia].
Qed.

(** X6. On every valid state [misplaced_tile] is at most
    [manhattan_distance] (each misplaced tile is at least one step from its
    goal cell), and it is at most 8, the blank not being counted. *)
Theorem misplaced_tile_at_most_manhattan_distance
    (s : PuzzleState) (Hvalid : valid_state s) :
  ∃ n d,
    Heuristic.misplaced_tile s = Ok n
    ∧ Heuristic.manhattan_distance s = Ok d
    ∧ 0 ≤ n ∧ n ≤ d ∧ n ≤ 8.
Proof.
  destruct (misplaced_tile_le_manhattan_distance s Hvalid)
    as (n & d & Hn & Hd & Hle & H8).
  exists n, d. split_and!; [done..|lia|lia|done].
Qed.

Lemma misplaced_tile_at_most_manhattan_distance_witness :
  valid_state easy
  ∧ ∃ n d,
      Heuristic.misplaced_tile easy = Ok n
      ∧ Heuristic.manhattan_distance easy = Ok d
      ∧ 0 ≤ n ∧ n ≤ d ∧ n ≤ 8.
Proof.
  assert (valid_state easy) as Hv.
  { split_and!; [reflexivity|by repeat constructor|].
    by apply (bool_decide_unpack _). }
  split; [exact Hv|].
  exact (misplaced_tile_at_most_manhattan_distance easy Hv).
Defined.

(** X7. On a valid state the misplaced-tile count is 0 only at the goal,
    and so is the Manhattan distance. *)
Theorem heuristic_zero_only_at_goal (s : PuzzleState) (Hvalid : valid_state s) :
  (Heuristic.misplaced_tile s = Ok 0 ↔ s = goal)
  ∧ (Heuristic.manhattan_distance s = Ok 0 ↔ s = goal).
Proof.
  split; (split; [|by intros ->]).
  - by apply misplaced_tile_zero_goal.
  - intros Hd. apply misplaced_tile_zero_goal; [done|].
    destruct (misplaced_tile_le_manhattan_distance s Hvalid)
      as (n & d & Hn & Hd' & Hle & _).
    rewrite Hd in Hd'. injection Hd' as <-. rewrite Hn. f_equal. lia.
Qed.

Lemma heuristic_zero_only_at_goal_witness :
  valid_state very_easy
  ∧ (Heuristic.misplaced_tile very_easy = Ok 0 ↔ very_easy = goal)
  ∧ (Heuristic.manhattan_distance very_easy = Ok 0 ↔ very_easy = goal).
Proof.
  assert (valid_state very_easy) as Hv.
  { split_and!; [reflexivity|by repeat constructor|].
    by apply (bool_decide_unpack _). }
  split; [exact Hv|].
  exact (heuristic_zero_only_at_goal very_easy Hv).
Defined.

(** X8. A move that [operators] lists changes the Manhattan distance by
    exactly one and the misplaced-tile count by at most one: the three
    heuristics with int values are consistent. *)
Theorem heuristics_change_by_one_per_move
    (s : PuzzleState) (ops : list string) (m : string) (s' : PuzzleState)
    (Hvalid : valid_state s)
    (Hops : Problem.operators s = Ok ops) (Hm : m ∈ ops)
    (Hres : Problem.result s m = Ok s') :
  (∃ d d', Heuristic.manhattan_distance s = Ok d
     ∧ Heuristic.manhattan_distance s' = Ok d' ∧ Z.abs (d' - d) = 1)
  ∧ (∃ n n', Heuristic.misplaced_tile s = Ok n
       ∧ Heuristic.misplaced_tile s' = Ok n' ∧ Z.abs (n' - n) ≤ 1)
  ∧ consistent Heuristic.uniform_cost
  ∧ consistent Heuristic.misplaced_tile
  ∧ consistent Heuristic.manhattan_distance.
Proof.
  split; [by apply (manhattan_distance_step s ops m s')|].
  split; [by apply (misplaced_tile_step s ops m s')|].
  split; [exact uniform_cost_consistent|].
  split; [exact misplaced_tile_consistent|exact manhattan_distance_consistent].
Qed.

Lemma heuristics_change_by_one_per_move_witness :
  ∃ d d', Heuristic.manhattan_distance very_easy = Ok d
    ∧ Heuristic.manhattan_distance goal = Ok d' ∧ Z.abs (d' - d) = 1.
Proof.
  assert (valid_state very_easy) as Hv.
  { split_and!; [reflexivity|by repeat constructor|].
    by apply (bool_decide_unpack _). }
  assert ("right"%string ∈ ["up"; "left"; "right"]%string) as Hm
    by (by apply (bool_decide_unpack _)).
  exact (proj1 (heuristics_change_by_one_per_move
                  very_easy ["up"; "left"; "right"]%string "right" goal
                  Hv eq_refl Hm eq_refl)).
Defined.

(** X9. The misplaced-tile count and the Manhattan distance are admissible:
    on a valid state neither exceeds the number of moves of any sequence of
    legal moves that reaches the goal. *)
Theorem heuristics_admissible
    (s : PuzzleState) (moves : list string)
    (Hvalid : valid_state s) (Hsolves : solves s moves) :
  ∃ n d,
    Heuristic.misplaced_tile s = Ok n
    ∧ Heuristic.manhattan_distance s = Ok d
    ∧ n ≤ d ∧ d ≤ Z.of_nat (length moves).
Proof.
  destruct (misplaced_tile_le_manhattan_distance s Hvalid)
    as (n & d & Hn & Hd & Hle & _).
  exists n, d. split_and!; [done..|lia|].
  destruct (consistent_path Heuristic.manhattan_distance
              manhattan_distance_consistent s moves goal d Hvalid Hsolves Hd)
    as (vt & Hvt & Hpath).
  change (Heuristic.manhattan_distance goal) with (Ok 0 : exn Z) in Hvt.
  injection Hvt as <-. lia.
Qed.

Lemma heuristics_admissible_witness :
  ∃ n d,
    Heuristic.misplaced_tile easy = Ok n
    ∧ Heuristic.manhattan_distance easy = Ok d
    ∧ n ≤ d ∧ d ≤ Z.of_nat (length ["down"; "down"]%string).
Proof.
  assert (valid_state easy) as Hv.
  { split_and!; [reflexivity|by repeat constructor|].
    by apply (bool_decide_unpack _). }
  exact (heuristics_admissible easy ["down"; "down"]%string Hv eq_refl).
Defined.

(** ** What graph_search returns *)

Lemma replay_length s moves path :
  replay s moves = Some path → length path = length moves.
Proof.
  revert s path. induction moves as [|m moves IH]; intros s path Hpath.
  - by injection Hpath as <-.
  - cbn [replay] in Hpath.
    destruct (Problem.operators s) as [ops|]; [|done].
    destruct (Problem.result s m) as [s'|]; [|done].
    case_bool_decide; [|done].
    destruct (replay s' moves) as [path'|] eqn:Hpath'; [|done].
    injection Hpath as <-. cbn [length]. f_equal. by apply (IH s').
Qed.

Lemma replay_operators s moves path :
  replay s moves = Some path → path.*1 = Some <$> moves.
Proof.
  revert s path. induction moves as [|m moves IH]; intros s path Hpath.
  - by injection Hpath as <-.
  - cbn [replay] in Hpath.
    destruct (Problem.operators s) as [ops|]; [|done].
    destruct (Problem.result s m) as [s'|]; [|done].
    case_bool_decide; [|done].
    destruct (replay s' moves) as [path'|] eqn:Hpath'; [|done].
    injection Hpath as <-. cbn [fmap list_fmap fst]. f_equal. by apply (IH s').
Qed.

(** The node that [graph_search] returns is one of the frontier that passed
    the goal test. *)
Lemma returned_node {H : Type} `{PyNumber H} (initial : PuzzleState)
    (heuristic_func : PuzzleState → exn H) fuel node ne mq :
  graph_search (Problem.init initial) heuristic_func fuel
  = Some (Ok (Some node, ne, mq)) →
  ∃ st popped rest,
    run_state (Problem.init initial) heuristic_func st
    ∧ heapq.heappop entry_lt (frontier st) = Ok (popped, rest)
    ∧ popped ∈ frontier st
    ∧ node = entry_node popped
    ∧ Node.state node = goal
    ∧ ne = nodes_expanded st ∧ mq = max_queue_size st.
Proof.
  intros (st & Hst & -> & -> & popped & rest & Hpop & Hgoal & ->)%graph_search_final.
  exists st, popped, rest. split_and!; try done.
  - rewrite (heappop_perm _ _ _ _ Hpop). by left.
  - by apply bool_decide_eq_true in Hgoal.
Qed.

Lemma search_shortest (initial : PuzzleState)
    (heuristic_func : PuzzleState → exn Z) fuel node ne mq :
  valid_state initial → consistent heuristic_func →
  graph_search (Problem.init initial) heuristic_func fuel
  = Some (Ok (Some node, ne, mq)) →
  optimal_length initial (Node.depth node).
Proof.
  intros Hvalid Hcons
    (st & popped & rest & Hst & Hpop & Hin & -> & Hgoal & _)%returned_node.
  pose proof (run_state_nodes_ok initial heuristic_func st Hst) as Hnodes.
  rewrite Forall_forall in Hnodes.
  destruct (Hnodes popped Hin) as (moves & _ & Hmoves & Hlen & _).
  pose proof (run_state_opt_inv initial heuristic_func Hvalid Hcons st Hst) as Hinv.
  split.
  - exists moves. split; [done|]. unfold solves. by rewrite Hmoves, Hgoal.
  - intros moves' Hsolves.
    apply (popped_depth_least initial heuristic_func Hvalid Hcons st popped rest);
      try done.
    + destruct Hinv as (_ & Hnogoal & _). by rewrite Hgoal.
    + unfold solves in Hsolves. by rewrite Hgoal.
Qed.

(** X10. The node that [graph_search] returns spells a solution: the
    [(operator, state)] pairs that [print_solution] collects along the
    parent links are a play of legal moves from the initial state that ends
    in the goal; it has as many moves as the depth and the path cost of the
    node say, and the walk ends at a root that holds the initial state. *)
Theorem returned_node_spells_solution
    (H : Type) (HN : PyNumber H) (heuristic_func : PuzzleState → exn H)
    (initial : PuzzleState) (fuel : nat) (node : Node.t H) (ne mq : Z)
    (Hrun : graph_search (Problem.init initial) heuristic_func fuel
            = Some (Ok (Some node, ne, mq))) :
  ∃ moves,
    replay initial moves = Some (solution_path node)
    ∧ (solution_path node).*1 = Some <$> moves
    ∧ solves initial moves
    ∧ Z.of_nat (length (solution_path node)) = Node.depth node
    ∧ Node.path_cost node = Node.depth node
    ∧ Node.state (path_root node) = initial
    ∧ Node.state node = goal.
Proof.
  destruct (returned_node initial heuristic_func fuel node ne mq Hrun)
    as (st & popped & rest & Hst & Hpop & Hin & -> & Hgoal & _).
  pose proof (run_state_nodes_ok initial heuristic_func st Hst) as Hnodes.
  rewrite Forall_forall in Hnodes.
  destruct (Hnodes popped Hin) as (moves & Hpath & Hmoves & Hlen & Hcost & Hroot).
  exists moves. split_and!; try done.
  - by apply (replay_operators initial).
  - unfold solves. by rewrite Hmoves, Hgoal.
  - by rewrite (replay_length _ _ _ Hpath).
Qed.

Lemma returned_node_spells_solution_witness :
  ∃ (node : Node.t Z) moves,
    replay easy moves = Some (solution_path node)
    ∧ (solution_path node).*1 = Some <$> moves
    ∧ solves easy moves
    ∧ Z.of_nat (length (solution_path node)) = Node.depth node
    ∧ Node.path_cost node = Node.depth node
    ∧ Node.state (path_root node) = easy
    ∧ Node.state node = goal.
Proof.
  eexists.
  refine (returned_node_spells_solution Z _ Heuristic.manhattan_distance easy 10
            _ _ _ _).
  vm_compute. reflexivity.
Defined.

(** X11. The counters that [graph_search] returns from a valid initial
    state: nodes_expanded is not negative, and max_queue_size is at least 1
    and at most 1 + 3 * nodes_expanded, an expansion popping one entry and
    pushing four at most. *)
Theorem max_queue_size_bounded
    (H : Type) (HN : PyNumber H) (heuristic_func : PuzzleState → exn H)
    (initial : PuzzleState) (fuel : nat)
    (goal_node : option (Node.t H)) (ne mq : Z)
    (Hvalid : valid_state initial)
    (Hrun : graph_search (Problem.init initial) heuristic_func fuel
            = Some (Ok (goal_node, ne, mq))) :
  0 ≤ ne ∧ 1 ≤ mq ∧ mq ≤ 1 + 3 * ne.
Proof.
  apply graph_search_final in Hrun as (st & Hst & -> & -> & _).
  pose proof (run_state_counts initial heuristic_func Hvalid st Hst). lia.
Qed.

Lemma max_queue_size_bounded_witness :
  ∃ ne mq,
    graph_search (Problem.init very_easy) Heuristic.uniform_cost 10
    = Some (Ok (Some (Node.mk goal (Some (Node.mk very_easy None None 0 0 0))
                              (Some "right"%string) 1 1 0), ne, mq))
    ∧ 0 ≤ ne ∧ 1 ≤ mq ∧ mq ≤ 1 + 3 * ne.
Proof.
  assert (valid_state very_easy) as Hv.
  { split_and!; [reflexivity|by repeat constructor|].
    by apply (bool_decide_unpack _). }
  exists 3, 5. split; [vm_compute; reflexivity|].
  refine (max_queue_size_bounded Z _ Heuristic.uniform_cost very_easy 10
            _ 3 5 Hv _).
  vm_compute. reflexivity.
Defined.

(** X12. With a heuristic of int values that no legal move lowers by more
    than one, the node that [graph_search] returns from a valid initial
    state is as shallow as can be: some sequence of legal moves of length
    [node.depth] reaches the goal, and none that is shorter does. *)
Theorem graph_search_shortest_solution
    (heuristic_func : PuzzleState → exn Z)
    (initial : PuzzleState) (fuel : nat) (node : Node.t Z) (ne mq : Z)
    (Hvalid : valid_state initial)
    (Hconsistent : consistent heuristic_func)
    (Hrun : graph_search (Problem.init initial) heuristic_func fuel
            = Some (Ok (Some node, ne, mq))) :
  (∃ moves, Z.of_nat (length moves) = Node.depth node ∧ solves initial moves)
  ∧ ∀ moves, solves initial moves → Node.depth node ≤ Z.of_nat (length moves).
Proof.
  exact (search_shortest initial heuristic_func fuel node ne mq
           Hvalid Hconsistent Hrun).
Qed.

Lemma graph_search_shortest_solution_witness :
  ∃ node : Node.t Z,
    (∃ moves, Z.of_nat (length moves) = Node.depth node ∧ solves easy moves)
    ∧ ∀ moves, solves easy moves → Node.depth node ≤ Z.of_nat (length moves).
Proof.
  assert (valid_state easy) as Hv.
  { split_and!; [reflexivity|by repeat constructor|].
    by apply (bool_decide_unpack _). }
  eexists.
  refine (graph_search_shortest_solution Heuristic.manhattan_distance easy 10
            _ _ _ Hv manhattan_distance_consistent _).
  vm_compute. reflexivity.
Defined.

(** ** The frontier and its order *)

(** X14. In a run of [graph_search] whose values [depth + h] are numbers,
    two entries at different places of the frontier carry different
    counters, so that their comparison is decided by [f] and the counter:
    [Node.__lt__] is never consulted. *)
Theorem frontier_order_ignores_nodes
    (H : Type) (HN : PyNumber H) (HL : PyNumberLaws H)
    (heuristic_func : PuzzleState → exn H) (initial : PuzzleState)
    (st : search_state H) (i j : nat) (a b : entry H)
    (Hnum : ∀ d s v, 0 ≤ d → heuristic_func s = Ok v →
                     is_number (int_add d v) = true)
    (Hst : run_state (Problem.init initial) heuristic_func st)
    (Hi : frontier st !! i = Some a) (Hj : frontier st !! j = Some b)
    (Hij : i ≠ j) :
  entry_counter a ≠ entry_counter b
  ∧ entry_f a = Node.f (entry_node a)
  ∧ (entry_lt a b = true
     ↔ num_lt (entry_f a) (entry_f b) = true
       ∨ (num_eq (entry_f a) (entry_f b) = true
          ∧ entry_counter a < entry_counter b)).
Proof.
  destruct (run_state_frontier_ok initial heuristic_func Hnum st Hst)
    as (_ & Hall & _ & Hnd).
  rewrite Forall_forall in Hall.
  pose proof (Hall a (list_elem_of_lookup_2 _ _ _ Hi)) as Ha.
  pose proof (Hall b (list_elem_of_lookup_2 _ _ _ Hj)) as Hb.
  assert (entry_counter a ≠ entry_counter b) as Hc.
  { intros Heq. apply Hij.
    apply (NoDup_lookup _ i j (entry_counter a) Hnd);
      rewrite list_lookup_fmap; [by rewrite Hi|by rewrite Hj, Heq]. }
  split; [done|]. split; [by destruct Ha|].
  rewrite (entry_lt_unfold a b Ha Hb).
  destruct Ha as (_ & Hna & _), Hb as (_ & Hnb & _).
  rewrite (num_eq_le _ _ Hna Hnb).
  pose proof (num_lt_asym _ _ Hna Hnb) as Hasym.
  destruct (Z.eqb_spec (entry_counter a) (entry_counter b)) as [|_]; [done|].
  destruct (num_lt (entry_f a) (entry_f b)), (num_lt (entry_f b) (entry_f a));
    simpl in *; rewrite ?Z.ltb_lt.
  - by specialize (Hasym eq_refl).
  - by split; [left|].
  - split; [done|]. by intros [|[]].
  - split; [by right|]. by intros [|[]].
Qed.

Lemma frontier_order_ignores_nodes_witness :
  ∃ (st : search_state Z) (a b : entry Z),
    run_state (Problem.init easy) Heuristic.manhattan_distance st
    ∧ frontier st !! 0%nat = Some a ∧ frontier st !! 1%nat = Some b
    ∧ entry_counter a ≠ entry_counter b
    ∧ entry_f a = Node.f (entry_node a)
    ∧ (entry_lt a b = true
       ↔ num_lt (entry_f a) (entry_f b) = true
         ∨ (num_eq (entry_f a) (entry_f b) = true
            ∧ entry_counter a < entry_counter b)).
Proof.
  eexists _, _, _.
  split; [eapply run_next; [apply run_start; reflexivity|vm_compute; reflexivity]|].
  split; [reflexivity|]. split; [reflexivity|].
  eapply (frontier_order_ignores_nodes Z _ _ Heuristic.manhattan_distance easy
            _ 0 1).
  - reflexivity.
  - eapply run_next; [apply run_start; reflexivity|vm_compute; reflexivity].
  - reflexivity.
  - reflexivity.
  - lia.
Defined.

(** ** The walks over the parent links *)

Lemma node_parent_ind {H : Type} (P : Node.t H → Prop) :
  (∀ node, Node.parent node = None → P node) →
  (∀ node p, Node.parent node = Some p → P p → P node) →
  ∀ node, P node.
Proof.
  intros Hroot Hchild. fix IH 1. intros [s [p|] o d c h].
  - apply (Hchild (Node.mk s (Some p) o d c h) p eq_refl (IH p)).
  - by apply Hroot.
Qed.

Lemma trace_states_solution_path {H : Type} (node : Node.t H) :
  trace_states node
  = (Node.operator (path_root node), Node.state (path_root node))
    :: solution_path node.
Proof.
  induction node as [node Hp|node p Hp IH] using node_parent_ind;
    destruct node as [s q o d c h]; simpl in Hp; subst q; [done|].
  cbn [trace_states solution_path path_root Node.parent Node.operator Node.state].
  cbn [trace_states solution_path path_root Node.parent Node.operator Node.state] in IH.
  by rewrite IH.
Qed.

Lemma trace_actions_solution_path {H : Type} (node : Node.t H) :
  trace_actions node = (solution_path node).*1.
Proof.
  induction node as [node Hp|node p Hp IH] using node_parent_ind;
    destruct node as [s q o d c h]; simpl in Hp; subst q; [done|].
  cbn [trace_actions solution_path Node.parent Node.operator Node.state].
  by rewrite fmap_app, IH.
Qed.

(** The root of every node of a run carries no operator. *)
Lemma run_state_roots {H : Type} `{PyNumber H} (initial : PuzzleState)
    (heuristic_func : PuzzleState → exn H) st :
  run_state (Problem.init initial) heuristic_func st →
  Forall (fun e => Node.operator (path_root (entry_node e)) = None) (frontier st).
Proof.
  induction 1 as [h_initial Hh|st st' _ IH Hbody].
  - by apply Forall_singleton.
  - apply loop_body_continue in Hbody as (popped & rest & Hpop & _ & Hcase).
    apply heappop_perm in Hpop. rewrite Hpop in IH.
    apply Forall_cons in IH as [Hpopped Hrest].
    destruct Hcase as [[_ ->]|(_ & ops & fr' & c' & Hops & Hexp & ->)]; [done|].
    cbn [frontier].
    by apply (expand_all_spec heuristic_func
                (fun e => Node.operator (path_root (entry_node e)) = None))
      in Hexp as [Hfr' _].
Qed.

(** X15. The two walks of [run_required_trace] over the node that
    [graph_search] returns: [actions] holds the moves of a solution, each of
    them a string, and [states] is the pair [(None, initial_state)], which
    is printed as step 0, followed by the pairs that [print_solution]
    collects. *)
Theorem trace_walks_of_returned_node
    (H : Type) (HN : PyNumber H) (heuristic_func : PuzzleState → exn H)
    (initial : PuzzleState) (fuel : nat) (node : Node.t H) (ne mq : Z)
    (Hrun : graph_search (Problem.init initial) heuristic_func fuel
            = Some (Ok (Some node, ne, mq))) :
  ∃ moves,
    solves initial moves
    ∧ trace_actions node = Some <$> moves
    ∧ trace_states node = (None, initial) :: solution_path node
    ∧ Z.of_nat (length (trace_states node)) = Node.depth node + 1.
Proof.
  destruct (returned_node initial heuristic_func fuel node ne mq Hrun)
    as (st & popped & rest & Hst & Hpop & Hin & -> & Hgoal & _).
  pose proof (run_state_nodes_ok initial heuristic_func st Hst) as Hnodes.
  pose proof (run_state_roots initial heuristic_func st Hst) as Hroots.
  rewrite Forall_forall in Hnodes, Hroots.
  destruct (Hnodes popped Hin) as (moves & Hpath & Hmoves & Hlen & Hcost & Hroot).
  exists moves.
  assert (trace_states (entry_node popped)
          = (None, initial) :: solution_path (entry_node popped)) as Hstates.
  { by rewrite trace_states_solution_path, (Hroots popped Hin), Hroot. }
  split_and!.
  - unfold solves. by rewrite Hmoves, Hgoal.
  - rewrite trace_actions_solution_path. by apply (replay_operators initial).
  - done.
  - rewrite Hstates. cbn [length]. rewrite (replay_length _ _ _ Hpath). lia.
Qed.

Lemma trace_walks_of_returned_node_witness :
  ∃ (node : Node.t Z) moves,
    solves easy moves
    ∧ trace_actions node = Some <$> moves
    ∧ trace_states node = (None, easy) :: solution_path node
    ∧ Z.of_nat (length (trace_states node)) = Node.depth node + 1.
Proof.
  eexists.
  refine (trace_walks_of_returned_node Z _ Heuristic.manhattan_distance easy 10
            _ _ _ _).
  vm_compute. reflexivity.
Defined.

(** ** heapq *)

(** X16. [heappush] keeps the items of the heap and adds the new one; on a
    heap that satisfies the heap order it gives a heap that does, for every
    [<] that is asymmetric and whose negation is transitive on the items. *)
Theorem heappush_keeps_heap
    (E : Type) (lt : E → E → bool) (P : E → Prop)
    (heap : list E) (item : E)
    (lt_asym : ∀ x y, P x → P y → lt x y = true → lt y x = false)
    (le_trans : ∀ x y z, P x → P y → P z →
                  lt y x = false → lt z y = false → lt z x = false)
    (Hord : heap_ordered lt heap) (Hheap : Forall P heap) (Hitem : P item) :
  heapq.heappush lt heap item ≡ₚ item :: heap
  ∧ heap_ordered lt (heapq.heappush lt heap item).
Proof.
  split; [apply heappush_perm|].
  by apply (heappush_ordered lt P lt_asym le_trans).
Qed.

Lemma heappush_keeps_heap_witness :
  heapq.heappush Z.ltb [1; 3; 2] 0 ≡ₚ 0 :: [1; 3; 2]
  ∧ heap_ordered Z.ltb (heapq.heappush Z.ltb [1; 3; 2] 0).
Proof.
  refine (heappush_keeps_heap Z Z.ltb (fun _ => True) [1; 3; 2] 0 _ _ _ _ I).
  - intros x y _ _. lia.
  - intros x y z _ _ _. lia.
  - intros j x y Hj Hy Hx.
    destruct j as [|[|[|j]]]; [lia| | |done];
      injection Hy as <-; injection Hx as <-; reflexivity.
  - by repeat constructor.
Defined.

(** X17. [heappop] raises [IndexError] on the empty heap; otherwise it
    returns an item and the other items, and on a heap that satisfies the
    heap order the returned item is one that no item of the heap is below,
    and what is left satisfies the heap order again. *)
Theorem heappop_returns_least
    (E : Type) (lt : E → E → bool) (P : E → Prop)
    (heap : list E)
    (lt_asym : ∀ x y, P x → P y → lt x y = true → lt y x = false)
    (le_trans : ∀ x y z, P x → P y → P z →
                  lt y x = false → lt z y = false → lt z x = false)
    (Hord : heap_ordered lt heap) (Hheap : Forall P heap) :
  match heap with
  | [] => heapq.heappop lt heap = Raise IndexError
  | root :: _ =>
      ∃ heap', heapq.heappop lt heap = Ok (root, heap')
        ∧ heap ≡ₚ root :: heap'
        ∧ heap_ordered lt heap'
        ∧ ∀ y, y ∈ heap → lt y root = false
  end.
Proof.
  destruct heap as [|root heap0] eqn:Hheap0; [done|]. rewrite <- Hheap0 in *.
  destruct (heappop_nonempty lt heap) as (item & heap' & Hpop);
    [by rewrite Hheap0|].
  destruct (heappop_ordered lt P lt_asym le_trans heap item heap' Hord Hheap Hpop)
    as [Hroot Hord'].
  assert (item = root) as -> by (rewrite Hheap0 in Hroot; by injection Hroot).
  exists heap'. split_and!; [done|by apply (heappop_perm lt)|done|].
  intros y [j Hj]%list_elem_of_lookup.
  by apply (heap_root_min lt P lt_asym le_trans heap root Hord Hheap Hroot j).
Qed.

Lemma heappop_returns_least_witness :
  ∃ heap', heapq.heappop Z.ltb [0; 1; 2; 3] = Ok (0, heap')
    ∧ [0; 1; 2; 3] ≡ₚ 0 :: heap'
    ∧ heap_ordered Z.ltb heap'
    ∧ ∀ y, y ∈ [0; 1; 2; 3] → (y <? 0) = false.
Proof.
  refine (heappop_returns_least Z Z.ltb (fun _ => True) [0; 1; 2; 3] _ _ _ _).
  - intros x y _ _. lia.
  - intros x y z _ _ _. lia.
  - intros j x y Hj Hy Hx.
    destruct j as [|[|[|[|j]]]]; [lia| | | |done];
      injection Hy as <-; injection Hx as <-; reflexivity.
  - by repeat constructor.
Defined.

(** ** heapq under a change of items *)

Section heap_fmap.
Context {A B : Type} (g : A → B).
Context (lt : A → A → bool) (lt' : B → B → bool) (Q : A → Prop).
Hypothesis Hlt : ∀ a b, Q a → Q b → lt' (g a) (g b) = lt a b.

Lemma at_pos_fmap heap i d :
  heapq.at_pos (g <$> heap) i (g d) = g (heapq.at_pos heap i d).
Proof.
  unfold heapq.at_pos. rewrite list_lookup_fmap. by destruct (heap !! i).
Qed.

Lemma at_pos_Q heap i d : Forall Q heap → Q d → Q (heapq.at_pos heap i d).
Proof.
  intros Hheap Hd. unfold heapq.at_pos.
  destruct (heap !! i) as [x|] eqn:Hx; [|done].
  rewrite Forall_forall in Hheap. by eapply Hheap, list_elem_of_lookup_2.
Qed.

Lemma insert_Q heap i x : Forall Q heap → Q x → Forall Q (<[i:=x]> heap).
Proof.
  intros Hheap Hx. destruct (decide (i < length heap)%nat).
  - by apply Forall_insert.
  - by rewrite list_insert_ge by lia.
Qed.

Lemma siftdown_loop_fmap fuel heap startpos pos newitem :
  Forall Q heap → Q newitem →
  heapq.siftdown_loop lt' fuel (g <$> heap) startpos pos (g newitem)
  = g <$> heapq.siftdown_loop lt fuel heap startpos pos newitem.
Proof.
  revert heap pos. induction fuel as [|fuel IH]; intros heap pos Hheap Hnew;
    cbn [heapq.siftdown_loop]; [by rewrite list_fmap_insert|].
  destruct (startpos <? pos)%nat; [|by rewrite list_fmap_insert].
  rewrite at_pos_fmap, Hlt by (try apply at_pos_Q; done).
  destruct (lt newitem _); [|by rewrite list_fmap_insert].
  rewrite <- list_fmap_insert. apply IH; [|done].
  apply insert_Q; [done|]. by apply at_pos_Q.
Qed.

Lemma siftdown_fmap heap startpos pos :
  Forall Q heap →
  heapq._siftdown lt' (g <$> heap) startpos pos
  = g <$> heapq._siftdown lt heap startpos pos.
Proof.
  intros Hheap. unfold heapq._siftdown. rewrite list_lookup_fmap.
  destruct (heap !! pos) as [newitem|] eqn:Hnew; [|done]. cbn [fmap option_fmap option_map].
  apply siftdown_loop_fmap; [done|].
  rewrite Forall_forall in Hheap. by eapply Hheap, list_elem_of_lookup_2.
Qed.

Lemma siftup_loop_fmap fuel heap endpos pos newitem :
  Forall Q heap → Q newitem →
  heapq.siftup_loop lt' fuel (g <$> heap) endpos pos (g newitem)
  = ((g <$> (heapq.siftup_loop lt fuel heap endpos pos newitem).1),
     (heapq.siftup_loop lt fuel heap endpos pos newitem).2)
  ∧ Forall Q (heapq.siftup_loop lt fuel heap endpos pos newitem).1.
Proof.
  revert heap pos. induction fuel as [|fuel IH]; intros heap pos Hheap Hnew;
    cbn [heapq.siftup_loop]; [done|].
  destruct (2 * pos + 1 <? endpos)%nat; [|done].
  rewrite !at_pos_fmap, Hlt by (by apply at_pos_Q).
  destruct ((2 * pos + 1 + 1 <? endpos)%nat
            && negb (lt (heapq.at_pos heap (2 * pos + 1) newitem)
                        (heapq.at_pos heap (2 * pos + 1 + 1) newitem)));
    rewrite <- list_fmap_insert; (apply IH; [|done]);
    (apply insert_Q; [done|]); by apply at_pos_Q.
Qed.

Lemma siftup_fmap heap pos :
  Forall Q heap →
  heapq._siftup lt' (g <$> heap) pos = g <$> heapq._siftup lt heap pos.
Proof.
  intros Hheap. unfold heapq._siftup. rewrite list_lookup_fmap, length_fmap.
  destruct (heap !! pos) as [newitem|] eqn:Hnew; [|done]. cbn [fmap option_fmap option_map].
  assert (Q newitem) as HQ.
  { rewrite Forall_forall in Hheap. by eapply Hheap, list_elem_of_lookup_2. }
  destruct (siftup_loop_fmap (length heap) heap (length heap) pos newitem Hheap HQ)
    as [-> Hall].
  destruct (heapq.siftup_loop lt _ heap _ pos newitem) as [heap1 pos1].
  cbn [fst snd] in *. rewrite <- list_fmap_insert.
  apply siftdown_fmap. by apply insert_Q.
Qed.

Lemma heappush_fmap heap item :
  Forall Q heap → Q item →
  heapq.heappush lt' (g <$> heap) (g item) = g <$> heapq.heappush lt heap item.
Proof.
  intros Hheap Hitem. unfold heapq.heappush.
  change [g item] with (g <$> [item]). rewrite <- fmap_app, length_fmap.
  apply siftdown_fmap. apply Forall_app. split; [done|by apply Forall_singleton].
Qed.

Lemma removelast_fmap (heap : list A) :
  removelast (g <$> heap) = g <$> removelast heap.
Proof.
  induction heap as [|x [|y heap] IH]; [done..|].
  change (removelast (g <$> x :: y :: heap))
    with (g x :: removelast (g <$> y :: heap)).
  by rewrite IH.
Qed.

Lemma Forall_removelast (heap : list A) :
  Forall Q heap → Forall Q (removelast heap).
Proof.
  induction heap as [|x [|y heap] IH]; [done..|].
  intros [Hx Hrest]%Forall_cons. change (Forall Q (x :: removelast (y :: heap))).
  apply Forall_cons. auto.
Qed.

Lemma heappop_fmap heap :
  Forall Q heap →
  heapq.heappop lt' (g <$> heap)
  = match heapq.heappop lt heap with
    | Ok (item, heap') => Ok (g item, g <$> heap')
    | Raise e => Raise e
    end.
Proof.
  intros Hheap. unfold heapq.heappop. rewrite fmap_last.
  destruct (last heap) as [lastelt|] eqn:Hlast; [|done]. cbn [fmap option_fmap option_map].
  rewrite removelast_fmap. pose proof (Forall_removelast heap Hheap) as Hrest.
  destruct (removelast heap) as [|returnitem rest]; [done|].
  change (Ok (g returnitem,
              heapq._siftup lt' (<[0%nat := g lastelt]> (g <$> returnitem :: rest))
                            0%nat)
          = Ok (g returnitem,
                g <$> heapq._siftup lt (<[0%nat := lastelt]> (returnitem :: rest))
                                    0%nat)).
  rewrite <- list_fmap_insert. do 2 f_equal.
  apply siftup_fmap. apply insert_Q; [done|].
  rewrite Forall_forall in Hheap. apply Hheap. by apply last_Some_elem_of.
Qed.

End heap_fmap.

(** ** The first version's uniform-cost search *)

Lemma forget_h_fields (node : Node.t Z) :
  V01.Node.state (forget_h node) = Node.state node
  ∧ V01.Node.depth (forget_h node) = Node.depth node
  ∧ V01.Node.path_cost (forget_h node) = Node.path_cost node
  ∧ V01.Node.operator (forget_h node) = Node.operator node.
Proof. by destruct node. Qed.

Lemma forget_entry_node (e : entry Z) :
  V01.entry_node (forget_entry e) = forget_h (entry_node e).
Proof. reflexivity. Qed.

Lemma forget_h_state (node : Node.t Z) :
  V01.Node.state (forget_h node) = Node.state node.
Proof. by destruct node. Qed.

Lemma forget_entry_lt a b :
  plain_entry a → plain_entry b →
  V01.entry_lt (forget_entry a) (forget_entry b) = entry_lt a b.
Proof.
  destruct a as [[f1 c1] n1], b as [[f2 c2] n2].
  unfold plain_entry, forget_entry, entry_f, entry_counter, entry_node.
  cbn [fst snd]. intros (Hh1 & Hc1 & _) (Hh2 & Hc2 & _).
  cbn [V01.entry_lt entry_lt num_eq num_lt int_number].
  destruct (negb (f1 =? f2)); [done|]. destruct (negb (c1 =? c2)); [done|].
  unfold V01.Node.lt, Node.lt, Node.f, Node.g, Node.h.
  cbn [num_lt int_add int_number].
  destruct (forget_h_fields n1) as (_ & _ & -> & _).
  destruct (forget_h_fields n2) as (_ & _ & -> & _).
  rewrite Hh1, Hh2, Hc1, Hc2, !Z.add_0_r. done.
Qed.

Section forget.
Variable initial : PuzzleState.

Let problem := Problem.init initial.

Lemma expand_operator_forget node explored op frontier counter :
  Forall plain_entry frontier →
  Node.heuristic_cost node = 0 → Node.path_cost node = Node.depth node →
  V01.expand_operator (forget_h node) explored op (forget_entry <$> frontier, counter)
  = match expand_operator Heuristic.uniform_cost node explored op (frontier, counter) with
    | Ok (frontier', counter') => Ok (forget_entry <$> frontier', counter')
    | Raise e => Raise e
    end
  ∧ ∀ frontier' counter',
      expand_operator Heuristic.uniform_cost node explored op (frontier, counter)
      = Ok (frontier', counter') →
      Forall plain_entry frontier'.
Proof.
  intros Hfr Hh Hcost. unfold V01.expand_operator, expand_operator.
  destruct (forget_h_fields node) as (-> & Hd & Hp & _).
  destruct (Problem.result (Node.state node) op) as [child|]; [|done].
  cbn [mbind exn_bind]. case_bool_decide.
  { split; [done|]. by intros ?? [= <- <-]. }
  unfold Heuristic.uniform_cost. cbn [mbind exn_bind].
  set (child_node := Node.mk child (Some node) (Some op) (Node.depth node + 1)
                             (Node.path_cost node + 1) 0).
  assert (plain_entry (Node.f child_node, counter, child_node)) as Hplain.
  { unfold plain_entry, entry_f, entry_node, Node.f, Node.g, Node.h. cbn.
    split_and!; [done|lia|lia]. }
  split.
  - rewrite Hd, Hp. f_equal. f_equal.
    rewrite <- (heappush_fmap forget_entry entry_lt V01.entry_lt plain_entry
                  forget_entry_lt) by done.
    f_equal. unfold forget_entry, entry_f, entry_counter, entry_node. cbn.
    unfold V01.Node.f, V01.Node.g, Node.f, Node.g, Node.h. cbn [int_add int_number].
    cbn. f_equal. f_equal. lia.
  - intros ?? [= <- <-]. rewrite heappush_perm. by apply Forall_cons.
Qed.

Lemma expand_all_forget node explored ops frontier counter :
  Forall plain_entry frontier →
  Node.heuristic_cost node = 0 → Node.path_cost node = Node.depth node →
  for_each ops (V01.expand_operator (forget_h node) explored)
    (forget_entry <$> frontier, counter)
  = match for_each ops (expand_operator Heuristic.uniform_cost node explored)
            (frontier, counter) with
    | Ok (frontier', counter') => Ok (forget_entry <$> frontier', counter')
    | Raise e => Raise e
    end
  ∧ ∀ frontier' counter',
      for_each ops (expand_operator Heuristic.uniform_cost node explored)
        (frontier, counter) = Ok (frontier', counter') →
      Forall plain_entry frontier'.
Proof.
  intros Hfr Hh Hcost. revert frontier counter Hfr.
  induction ops as [|op ops IH]; intros frontier counter Hfr; cbn [for_each].
  { split; [done|]. by intros ?? [= <- <-]. }
  destruct (expand_operator_forget node explored op frontier counter Hfr Hh Hcost)
    as [-> Hplain].
  destruct (expand_operator _ _ _ op _) as [[fr1 c1]|]; [|done].
  cbn [mbind exn_bind]. apply IH. by apply (Hplain fr1 c1).
Qed.

Lemma loop_body_forget st :
  Forall plain_entry (frontier st) →
  V01.loop_body problem (forget_state st)
  = match loop_body problem Heuristic.uniform_cost st with
    | Ok (inl r) => Ok (inl (forget_result r))
    | Ok (inr st') => Ok (inr (forget_state st'))
    | Raise e => Raise e
    end
  ∧ ∀ st', loop_body problem Heuristic.uniform_cost st = Ok (inr st') →
           Forall plain_entry (frontier st').
Proof.
  intros Hfr. unfold V01.loop_body, loop_body. cbn [V01.frontier forget_state].
  rewrite (heappop_fmap forget_entry entry_lt V01.entry_lt plain_entry
             forget_entry_lt) by done.
  destruct (heapq.heappop entry_lt (frontier st)) as [[popped rest]|] eqn:Hpop;
    [|done].
  apply heappop_perm in Hpop. rewrite Hpop in Hfr.
  apply Forall_cons in Hfr as [(Hh & Hcost & _) Hrest].
  cbn [mbind exn_bind]. rewrite !forget_entry_node, !forget_h_state.
  destruct (Problem.goal_test problem _); [done|].
  cbn [V01.explored V01.counter V01.nodes_expanded V01.max_queue_size forget_state].
  case_bool_decide.
  { split; [done|]. by intros ? [= <-]. }
  destruct (Problem.operators _) as [ops|]; [|done]. cbn [mbind exn_bind].
  destruct (expand_all_forget (entry_node popped)
              ({[state_tuple (Node.state (entry_node popped))]} ∪ explored st)
              ops rest (counter st) Hrest Hh Hcost) as [-> Hplain].
  destruct (for_each ops _ (rest, counter st)) as [[fr' c']|]; [|done].
  cbn [mbind exn_bind]. split.
  - unfold forget_state. cbn [frontier explored counter nodes_expanded max_queue_size].
    by rewrite length_fmap.
  - intros ? [= <-]. by apply (Hplain fr' c').
Qed.

Lemma search_loop_forget fuel st :
  Forall plain_entry (frontier st) →
  V01.search_loop problem fuel (forget_state st)
  = match search_loop problem Heuristic.uniform_cost fuel st with
    | Some (Ok r) => Some (Ok (forget_result r))
    | Some (Raise e) => Some (Raise e)
    | None => None
    end.
Proof.
  revert st. induction fuel as [|fuel IH]; intros st Hfr; [done|].
  cbn [V01.search_loop search_loop].
  destruct (loop_body_forget st Hfr) as [-> Hplain].
  change (V01.frontier (forget_state st)) with (forget_entry <$> frontier st).
  destruct (frontier st) as [|e0 fr0]; [done|]. cbn [fmap list_fmap].
  destruct (loop_body problem Heuristic.uniform_cost st) as [[r|st']|];
    [done| |done].
  apply IH. by apply Hplain.
Qed.

End forget.

Lemma solution_path_forget (node : Node.t Z) :
  V01.solution_path (forget_h node) = solution_path node.
Proof.
  induction node as [node Hp|node p Hp IH] using node_parent_ind;
    destruct node as [s q o d c h]; simpl in Hp; subst q; [done|].
  cbn [V01.solution_path forget_h solution_path V01.Node.parent V01.Node.operator
       V01.Node.state Node.parent Node.operator Node.state].
  by rewrite IH.
Qed.

(** X18. The first version of the program (eight_puzzle_v0.1.py), whose
    nodes have no heuristic cost and compare by path cost, does what the
    final [uniform_cost_search] does: on every initial state and under
    every budget of iterations it returns the same nodes_expanded and
    max_queue_size and a goal node with the same state, depth, path cost and
    solution path, or raises the same exception. *)
Theorem first_version_search_agrees (initial : PuzzleState) (fuel : nat) :
  V01.uniform_cost_search (Problem.init initial) fuel
  = match uniform_cost_search (Problem.init initial) fuel with
    | Some (Ok r) => Some (Ok (forget_result r))
    | Some (Raise e) => Some (Raise e)
    | None => None
    end
  ∧ ∀ node : Node.t Z,
      V01.solution_path (forget_h node) = solution_path node
      ∧ V01.Node.state (forget_h node) = Node.state node
      ∧ V01.Node.depth (forget_h node) = Node.depth node
      ∧ V01.Node.path_cost (forget_h node) = Node.path_cost node.
Proof.
  split.
  - unfold V01.uniform_cost_search, uniform_cost_search, graph_search.
    cbn [Heuristic.uniform_cost].
    rewrite <- (search_loop_forget initial fuel
                  (initial_search_state (Problem.init initial) 0))
      by (by apply Forall_singleton).
    reflexivity.
  - intros node. split; [apply solution_path_forget|].
    by destruct (forget_h_fields node) as (? & ? & ? & _).
Qed.

(** ** The Euclidean heuristic in the frontier *)

(** X19. With the Euclidean distance the values [depth + h] are floats that
    are not NaN, so that their order is a total preorder; at every
    iteration of such a run the popped entry has an [f] below that of each
    entry left in the frontier, or an equal [f] and a smaller counter. *)
Theorem euclidean_frontier_pops_least
    (initial : PuzzleState) (st : search_state float)
    (popped : entry float) (rest : list (entry float))
    (Hst : run_state (Problem.init initial) Heuristic.euclidean_distance st)
    (Hpop : heapq.heappop entry_lt (frontier st) = Ok (popped, rest)) :
  PrimFloat.is_nan (entry_f popped) = false
  ∧ entry_f popped
    = (float_of_Z (Node.depth (entry_node popped))
       + Node.heuristic_cost (entry_node popped))%float
  ∧ ∀ e, e ∈ rest →
      (entry_f popped <? entry_f e)%float = true
      ∨ ((entry_f popped =? entry_f e)%float = true
         ∧ entry_counter popped < entry_counter e).
Proof.
  pose proof (run_state_frontier_ok initial Heuristic.euclidean_distance
                euclidean_f_is_number st Hst) as Hok.
  destruct (frontier_ok_pop _ _ _ _ Hok Hpop) as (_ & (Hf & Hnum & _) & Hleast).
  split; [by apply negb_true_iff|]. split; [done|]. exact Hleast.
Qed.

Lemma euclidean_frontier_pops_least_witness :
  ∃ (popped : entry float) (rest : list (entry float)),
    PrimFloat.is_nan (entry_f popped) = false
    ∧ entry_f popped
      = (float_of_Z (Node.depth (entry_node popped))
         + Node.heuristic_cost (entry_node popped))%float
    ∧ ∀ e, e ∈ rest →
        (entry_f popped <? entry_f e)%float = true
        ∨ ((entry_f popped =? entry_f e)%float = true
           ∧ entry_counter popped < entry_counter e).
Proof.
  eexists _, _.
  eapply (euclidean_frontier_pops_least easy).
  - eapply run_next; [apply run_start; vm_compute; reflexivity|vm_compute; reflexivity].
  - vm_compute. reflexivity.
Defined.

(** ** The solvability test of run_tests.py *)

(** X20. [test_solvability] ends with [all_correct] true, and its labels
    are right: each puzzle it lists as solvable has a sequence of legal
    moves that reaches the goal, and each puzzle it lists as unsolvable is a
    valid state from which no such sequence does. *)
Theorem test_solvability_passes :
  test_solvability = true
  ∧ (∀ name state, (name, state) ∈ solvable_puzzles →
       ∃ moves, solves state moves)
  ∧ (∀ name state, (name, state) ∈ unsolvable_puzzles →
       valid_state state ∧ ∀ moves, ¬ solves state moves).
Proof.
  split; [reflexivity|]. split.
  - intros name state Hin. unfold solvable_puzzles in Hin.
    apply elem_of_cons in Hin as [[= -> ->]|Hin]; [by exists []|].
    apply elem_of_cons in Hin as [[= -> ->]|Hin];
      [by exists ["down"; "down"]%string|].
    apply elem_of_cons in Hin as [[= -> ->]|Hin]; [by exists ["right"%string]|].
    by apply elem_of_nil in Hin.
  - intros name state Hin.
    assert (valid_state state ∧ Problem.is_solvable state = false) as [Hv Hodd].
    { unfold unsolvable_puzzles in Hin.
      repeat (apply elem_of_cons in Hin as [[= -> ->]|Hin];
              [split; [|reflexivity];
               split_and!; [reflexivity|by repeat constructor|];
               by apply (bool_decide_unpack _)|]).
      by apply elem_of_nil in Hin. }
    split; [done|]. intros moves Hsolves.
    destruct (apply_moves_valid state moves goal Hv Hsolves) as [_ Hpar].
    rewrite Hodd in Hpar. discriminate Hpar.
Qed.

(** ** No exception leaves the search *)

Section no_exception.
Context {H : Type} `{PyNumber H}.
Variable initial : PuzzleState.
Variable heuristic_func : PuzzleState → exn H.
Hypothesis Hvalid : valid_state initial.
Hypothesis Htotal : ∀ s, valid_state s → ∃ v, heuristic_func s = Ok v.

Let problem := Problem.init initial.

Lemma loop_body_returns st e0 frontier0 :
  search_inv initial st → frontier st = e0 :: frontier0 →
  ∃ next, loop_body problem heuristic_func st = Ok next.
Proof.
  intros Hinv Hfr.
  destruct (heappop_nonempty entry_lt (frontier st)) as (popped & rest & Hpop);
    [by rewrite Hfr|].
  assert (reachable initial (Node.state (entry_node popped))) as Hreach.
  { destruct Hinv as (Hf & _). apply Hf.
    rewrite (heappop_perm _ _ _ _ Hpop). by left. }
  destruct (reachable_valid _ _ Hvalid Hreach) as [Hv _].
  unfold loop_body. rewrite Hpop. cbn [mbind exn_bind].
  destruct (Problem.goal_test problem _); [by eexists|].
  unfold state_tuple. case_bool_decide; [by eexists|].
  destruct (legal_moves _ Hv) as (ops & -> & _ & Hmoves).
  cbn [mbind exn_bind].
  destruct (expand_all_returns heuristic_func (entry_node popped)
              ({[Node.state (entry_node popped)]} ∪ explored st) ops rest
              (counter st)) as (fr' & c' & ->); [|done|by eexists].
  intros op Hop. destruct (Hmoves op Hop) as (child & ? & ? & _). eauto.
Qed.

Lemma search_loop_returns fuel st r :
  search_inv initial st →
  search_loop problem heuristic_func fuel st = Some r →
  ∃ goal_node ne mq, r = Ok (goal_node, ne, mq).
Proof.
  revert st. induction fuel as [|fuel IH]; intros st Hinv Hrun; [done|].
  cbn [search_loop] in Hrun. destruct (frontier st) as [|e0 fr0] eqn:Hfr.
  { injection Hrun as <-. by eexists _, _, _. }
  destruct (loop_body_returns st e0 fr0 Hinv Hfr) as [next Hbody].
  rewrite Hbody in Hrun. destruct next as [[[goal_node ne] mq]|st'].
  - injection Hrun as <-. by eexists _, _, _.
  - apply (IH st'); [|done].
    by destruct (search_inv_step initial heuristic_func Hvalid st st' Hinv Hbody).
Qed.

End no_exception.

(** X21. From a valid initial state [graph_search] raises no exception
    with any of the four heuristics, nor with any other that returns a
    value on every valid state: [heappop] is called on a non-empty frontier
    only, [result] with operators that [operators] lists only, and every
    cell that is read exists. *)
Theorem graph_search_never_raises
    (H : Type) (HN : PyNumber H) (heuristic_func : PuzzleState → exn H)
    (initial : PuzzleState) (fuel : nat) (r : exn (search_result H))
    (Hvalid : valid_state initial)
    (Htotal : ∀ s, valid_state s → ∃ v, heuristic_func s = Ok v)
    (Hrun : graph_search (Problem.init initial) heuristic_func fuel = Some r) :
  (∃ goal_node ne mq, r = Ok (goal_node, ne, mq))
  ∧ (∀ s, valid_state s → ∃ v, Heuristic.uniform_cost s = Ok v)
  ∧ (∀ s, valid_state s → ∃ v, Heuristic.misplaced_tile s = Ok v)
  ∧ (∀ s, valid_state s → ∃ v, Heuristic.manhattan_distance s = Ok v)
  ∧ (∀ s, valid_state s → ∃ v, Heuristic.euclidean_distance s = Ok v).
Proof.
  split.
  - unfold graph_search in Hrun. cbn [Problem.initial_state Problem.init] in Hrun.
    destruct (Htotal initial Hvalid) as [h_initial Hh]. rewrite Hh in Hrun.
    apply (search_loop_returns initial heuristic_func Hvalid Htotal fuel
             (initial_search_state (Problem.init initial) h_initial)); [|done].
    apply search_inv_initial.
  - split; [by eexists|]. split; [exact misplaced_tile_returns|].
    split; [exact manhattan_distance_returns|exact euclidean_distance_returns].
Qed.

Lemma graph_search_never_raises_witness :
  ∃ goal_node ne mq,
    (Ok (Some (Node.mk goal (Some (Node.mk very_easy None None 0 0 1))
                       (Some "right"%string) 1 1 0), 1, 3)
     : exn (search_result Z))
    = Ok (goal_node, ne, mq).
Proof.
  assert (valid_state very_easy) as Hv.
  { split_and!; [reflexivity|by repeat constructor|].
    by apply (bool_decide_unpack _). }
  refine (proj1 (graph_search_never_raises Z _ Heuristic.manhattan_distance
                   very_easy 10 _ Hv manhattan_distance_returns _)).
  vm_compute. reflexivity.
Defined.

(** ** The three searches with int values side by side *)

(** From a valid initial state the search returns a tuple, the same under
    every budget of iterations that is large enough. *)
Lemma graph_search_returns {H : Type} `{PyNumber H} (initial : PuzzleState)
    (heuristic_func : PuzzleState → exn H) :
  valid_state initial →
  (∀ s, valid_state s → ∃ v, heuristic_func s = Ok v) →
  ∃ fuel goal_node ne mq,
    ∀ fuel', (fuel ≤ fuel')%nat →
      graph_search (Problem.init initial) heuristic_func fuel'
      = Some (Ok (goal_node, ne, mq)).
Proof.
  intros Hvalid Htotal. destruct (Htotal initial Hvalid) as [h_initial Hh].
  pose proof (search_inv_initial initial (H:=H) h_initial) as Hinv.
  destruct (search_loop_terminates initial heuristic_func Hvalid _ Hinv) as [r Hr].
  destruct (search_loop_returns initial heuristic_func Hvalid Htotal _ _ r Hinv Hr)
    as (goal_node & ne & mq & ->).
  exists (S (potential (initial_search_state (Problem.init initial) h_initial))),
    goal_node, ne, mq.
  intros fuel' Hle. unfold graph_search.
  cbn [Problem.initial_state Problem.init]. rewrite Hh.
  by apply (search_loop_mono initial heuristic_func _ fuel') in Hr.
Qed.

(** With a consistent heuristic the search gives up only where no sequence
    of legal moves reaches the goal: when the frontier is empty, every state
    that such a sequence reaches is in the explored set, where the goal
    never is. *)
Lemma search_complete (initial : PuzzleState)
    (heuristic_func : PuzzleState → exn Z) fuel ne mq moves :
  valid_state initial → consistent heuristic_func →
  graph_search (Problem.init initial) heuristic_func fuel = Some (Ok (None, ne, mq)) →
  ¬ solves initial moves.
Proof.
  intros Hvalid Hcons (st & Hst & _ & _ & Hempty)%graph_search_final Hsolves.
  pose proof (run_state_opt_inv initial heuristic_func Hvalid Hcons st Hst) as Hinv.
  destruct (covered initial heuristic_func st moves goal Hinv Hsolves)
    as [Hin|(e & pre & post & He & _)].
  - by destruct Hinv as (_ & Hnogoal & _).
  - rewrite Hempty in He. by apply elem_of_nil in He.
Qed.

Lemma search_found (initial : PuzzleState)
    (heuristic_func : PuzzleState → exn Z) fuel node ne mq :
  valid_state initial → consistent heuristic_func →
  graph_search (Problem.init initial) heuristic_func fuel
  = Some (Ok (Some node, ne, mq)) →
  ∃ moves, solves initial moves.
Proof.
  intros Hvalid Hcons Hrun.
  destruct (search_shortest initial heuristic_func fuel node ne mq Hvalid Hcons Hrun)
    as [(moves & _ & Hsolves) _].
  by exists moves.
Qed.

(** X13. From a valid initial state, uniform-cost search and [graph_search]
    with the misplaced-tile count and with the Manhattan distance all
    return, and they agree: either each returns a goal node, the three
    nodes having one and the same depth, the length of a shortest solution;
    or each returns [None], and no sequence of legal moves reaches the
    goal. *)
Theorem int_heuristics_same_depth (initial : PuzzleState) (Hvalid : valid_state initial) :
  ∃ fuel goal_u goal_t goal_m ne_u mq_u ne_t mq_t ne_m mq_m,
    (∀ fuel', (fuel ≤ fuel')%nat →
       uniform_cost_search (Problem.init initial) fuel'
       = Some (Ok (goal_u, ne_u, mq_u)))
    ∧ (∀ fuel', (fuel ≤ fuel')%nat →
         graph_search (Problem.init initial) Heuristic.misplaced_tile fuel'
         = Some (Ok (goal_t, ne_t, mq_t)))
    ∧ (∀ fuel', (fuel ≤ fuel')%nat →
         graph_search (Problem.init initial) Heuristic.manhattan_distance fuel'
         = Some (Ok (goal_m, ne_m, mq_m)))
    ∧ match goal_u, goal_t, goal_m with
      | Some node_u, Some node_t, Some node_m =>
          Node.depth node_u = Node.depth node_t
          ∧ Node.depth node_t = Node.depth node_m
          ∧ optimal_length initial (Node.depth node_m)
      | None, None, None => ∀ moves, ¬ solves initial moves
      | _, _, _ => False
      end.
Proof.
  destruct (graph_search_returns initial Heuristic.uniform_cost Hvalid)
    as (fuel_u & goal_u & ne_u & mq_u & Hrun_u); [by eexists|].
  destruct (graph_search_returns initial Heuristic.misplaced_tile Hvalid
              misplaced_tile_returns) as (fuel_t & goal_t & ne_t & mq_t & Hrun_t).
  destruct (graph_search_returns initial Heuristic.manhattan_distance Hvalid
              manhattan_distance_returns) as (fuel_m & goal_m & ne_m & mq_m & Hrun_m).
  exists (Nat.max (Nat.max fuel_u fuel_t) fuel_m),
    goal_u, goal_t, goal_m, ne_u, mq_u, ne_t, mq_t, ne_m, mq_m.
  split; [intros fuel' Hle; apply Hrun_u; lia|].
  split; [intros fuel' Hle; apply Hrun_t; lia|].
  split; [intros fuel' Hle; apply Hrun_m; lia|].
  specialize (Hrun_u fuel_u (le_n _)). specialize (Hrun_t fuel_t (le_n _)).
  specialize (Hrun_m fuel_m (le_n _)).
  change (graph_search (Problem.init initial) Heuristic.uniform_cost fuel_u
          = Some (Ok (goal_u, ne_u, mq_u))) in Hrun_u.
  pose proof (search_complete initial Heuristic.uniform_cost fuel_u ne_u mq_u)
    as Hnone_u.
  pose proof (search_complete initial Heuristic.misplaced_tile fuel_t ne_t mq_t)
    as Hnone_t.
  pose proof (search_complete initial Heuristic.manhattan_distance fuel_m ne_m mq_m)
    as Hnone_m.
  destruct goal_u as [node_u|], goal_t as [node_t|], goal_m as [node_m|].
  - pose proof (search_shortest initial _ _ _ _ _ Hvalid
                  uniform_cost_consistent Hrun_u) as [(mu & Hlu & Hsu) Hu].
    pose proof (search_shortest initial _ _ _ _ _ Hvalid
                  misplaced_tile_consistent Hrun_t) as [(mt & Hlt & Hst) Ht].
    pose proof (search_shortest initial _ _ _ _ _ Hvalid
                  manhattan_distance_consistent Hrun_m) as [(mm & Hlm & Hsm) Hm].
    pose proof (Hu mt Hst). pose proof (Hu mm Hsm).
    pose proof (Ht mu Hsu). pose proof (Ht mm Hsm).
    pose proof (Hm mu Hsu). pose proof (Hm mt Hst).
    split; [lia|]. split; [lia|]. split; [by exists mm|done].
  - destruct (search_found initial _ _ _ _ _ Hvalid uniform_cost_consistent Hrun_u)
      as [moves Hsolves].
    by apply (Hnone_m moves Hvalid manhattan_distance_consistent Hrun_m).
  - destruct (search_found initial _ _ _ _ _ Hvalid uniform_cost_consistent Hrun_u)
      as [moves Hsolves].
    by apply (Hnone_t moves Hvalid misplaced_tile_consistent Hrun_t).
  - destruct (search_found initial _ _ _ _ _ Hvalid uniform_cost_consistent Hrun_u)
      as [moves Hsolves].
    by apply (Hnone_t moves Hvalid misplaced_tile_consistent Hrun_t).
  - destruct (search_found initial _ _ _ _ _ Hvalid misplaced_tile_consistent Hrun_t)
      as [moves Hsolves].
    by apply (Hnone_u moves Hvalid uniform_cost_consistent Hrun_u).
  - destruct (search_found initial _ _ _ _ _ Hvalid misplaced_tile_consistent Hrun_t)
      as [moves Hsolves].
    by apply (Hnone_u moves Hvalid uniform_cost_consistent Hrun_u).
  - destruct (search_found initial _ _ _ _ _ Hvalid manhattan_distance_consistent
                Hrun_m) as [moves Hsolves].
    by apply (Hnone_u moves Hvalid uniform_cost_consistent Hrun_u).
  - intros moves. by apply (Hnone_u moves Hvalid uniform_cost_consistent Hrun_u).
Qed.

Lemma int_heuristics_same_depth_witness :
  valid_state easy
  ∧ ∃ fuel goal_u goal_t goal_m ne_u mq_u ne_t mq_t ne_m mq_m,
      (∀ fuel', (fuel ≤ fuel')%nat →
         uniform_cost_search (Problem.init easy) fuel'
         = Some (Ok (goal_u, ne_u, mq_u)))
      ∧ (∀ fuel', (fuel ≤ fuel')%nat →
           graph_search (Problem.init easy) Heuristic.misplaced_tile fuel'
           = Some (Ok (goal_t, ne_t, mq_t)))
      ∧ (∀ fuel', (fuel ≤ fuel')%nat →
           graph_search (Problem.init easy) Heuristic.manhattan_distance fuel'
           = Some (Ok (goal_m, ne_m, mq_m)))
      ∧ match goal_u, goal_t, goal_m with
        | Some node_u, Some node_t, Some node_m =>
            Node.depth node_u = Node.depth node_t
            ∧ Node.depth node_t = Node.depth node_m
            ∧ optimal_length easy (Node.depth node_m)
        | None, None, None => ∀ moves, ¬ solves easy moves
        | _, _, _ => False
        end.
Proof.
  assert (valid_state easy) as Hv.
  { split_and!; [reflexivity|by repeat constructor|].
    by apply (bool_decide_unpack _). }
  split; [exact Hv|].
  exact (int_heuristics_same_depth easy Hv).
Defined.
